(** * A shallow embedding of the SimpleDB SQL driver (jjeffery/simpledb)

    The development follows the Go packages of the repository:

    - [lex]   : the scanner of [internal/lex/scanner.go];
    - [parse] : the recursive-descent parser of [internal/parse/parse.go]
                (the version built on package [lex]);
    - [sdb]   : the executor of [conn.go] and the result cursor of [rows.go].

    Text is a [string]; one [ascii] stands for one rune, so the development
    covers statement texts whose code points are below U+0100, and the
    classification predicates are Go's [unicode] tables on that range.
    Go maps are stdpp [gmap]s, slices are lists, nilable pointers are
    options.  A [panic(msg)] of the parser, which [parser.parse] recovers
    into an error, is the [Errorf] failure of the parser monad. *)

From Stdlib Require Import String Ascii List ZArith Lia Bool.
From Stdlib Require Import Decimal DecimalString DecimalZ DecimalPos.
From stdpp Require Import base decidable option list gmap strings.
Import ListNotations.
Open Scope string_scope.

(** ** Runes and the string helpers of Go's standard library *)

Module gostr.

Definition code (c : ascii) : N := N_of_ascii c.

Definition in_range (lo hi : N) (c : ascii) : bool :=
  (N.leb lo (code c) && N.leb (code c) hi)%bool.

(** [unicode.IsSpace] on the Latin-1 range. *)
Definition IsSpace (c : ascii) : bool :=
  (in_range 9 13 c || N.eqb (code c) 32 || N.eqb (code c) 133
   || N.eqb (code c) 160)%bool.

(** [unicode.IsDigit] on the Latin-1 range. *)
Definition IsDigit (c : ascii) : bool := in_range 48 57 c.

(** [unicode.IsLetter] on the Latin-1 range. *)
Definition IsLetter (c : ascii) : bool :=
  (in_range 65 90 c || in_range 97 122 c
   || N.eqb (code c) 170 || N.eqb (code c) 181 || N.eqb (code c) 186
   || in_range 192 214 c || in_range 216 246 c || in_range 248 255 c)%bool.

(** [unicode.ToLower] on the Latin-1 range. *)
Definition ToLowerRune (c : ascii) : ascii :=
  if (in_range 65 90 c || in_range 192 214 c || in_range 216 222 c)%bool
  then ascii_of_N (code c + 32) else c.

(** [strings.ToLower]. *)
Fixpoint ToLower (s : string) : string :=
  match s with
  | EmptyString => EmptyString
  | String c s' => String (ToLowerRune c) (ToLower s')
  end.

(** [strings.EqualFold]: on Latin-1 text the simple case folding orbits are
    the upper/lower pairs of [ToLowerRune]. *)
Definition EqualFold (s t : string) : bool := String.eqb (ToLower s) (ToLower t).

(** [strings.ContainsRune]. *)
Fixpoint ContainsRune (s : string) (c : ascii) : bool :=
  match s with
  | EmptyString => false
  | String d s' => (Ascii.eqb c d || ContainsRune s' c)%bool
  end.

(** [strings.HasPrefix] and [strings.TrimPrefix]. *)
Fixpoint HasPrefix (s prefix : string) : bool :=
  match prefix, s with
  | EmptyString, _ => true
  | String _ _, EmptyString => false
  | String p prefix', String c s' => (Ascii.eqb c p && HasPrefix s' prefix')%bool
  end.

Fixpoint drop (n : nat) (s : string) : string :=
  match n, s with
  | O, _ => s
  | S _, EmptyString => EmptyString
  | S n', String _ s' => drop n' s'
  end.

Definition TrimPrefix (s prefix : string) : string :=
  if HasPrefix s prefix then drop (String.length prefix) s else s.

(** [strings.Replace(s, old, new, -1)] for a one-rune [old]. *)
Fixpoint ReplaceRune (s : string) (old : ascii) (new : string) : string :=
  match s with
  | EmptyString => EmptyString
  | String c s' =>
      if Ascii.eqb c old then new ++ ReplaceRune s' old new
      else String c (ReplaceRune s' old new)
  end.

(** [strings.Join]. *)
Fixpoint Join (l : list string) (sep : string) : string :=
  match l with
  | [] => ""
  | [x] => x
  | x :: l' => x ++ sep ++ Join l' sep
  end.

Definition dquote : ascii := ascii_of_N 34.
Definition squote : ascii := ascii_of_N 39.
Definition backquote : ascii := ascii_of_N 96.
Definition backslash : ascii := ascii_of_N 92.

Definition hexdigit (n : N) : ascii :=
  if N.ltb n 10 then ascii_of_N (48 + n) else ascii_of_N (87 + n).

Definition hex2 (n : N) : string :=
  String (hexdigit (N.div n 16)) (String (hexdigit (N.modulo n 16)) "").

(** [strconv.IsPrint] on the Latin-1 range. *)
Definition IsPrint (c : ascii) : bool :=
  (in_range 32 126 c || (in_range 161 255 c && negb (N.eqb (code c) 173)))%bool.

(** One rune of [strconv.Quote]. *)
Definition quoteRune (c : ascii) : string :=
  if (Ascii.eqb c dquote || Ascii.eqb c backslash)%bool then String backslash (String c "")
  else if IsPrint c then String c ""
  else match code c with
       | 7%N => String backslash "a"
       | 8%N => String backslash "b"
       | 12%N => String backslash "f"
       | 10%N => String backslash "n"
       | 13%N => String backslash "r"
       | 9%N => String backslash "t"
       | 11%N => String backslash "v"
       | n => if (N.ltb n 32 || N.eqb n 127)%bool
              then String backslash ("x" ++ hex2 n)
              else String backslash ("u00" ++ hex2 n)
       end.

Fixpoint quoteBody (s : string) : string :=
  match s with
  | EmptyString => EmptyString
  | String c s' => quoteRune c ++ quoteBody s'
  end.

(** The verb [%q] of [fmt] applied to a string ([strconv.Quote]). *)
Definition fmtQ (s : string) : string :=
  String dquote (quoteBody s ++ String dquote "").

(** [fmt.Sprintf("%c", ch)]. *)
Definition runeToString (ch : ascii) : string := String ch "".

(** [strconv.FormatInt(n, 10)], also the verb [%d] of [fmt]. *)
Definition FormatInt (n : Z) : string := NilEmpty.string_of_int (Z.to_int n).

(** The text of the run-time panic of an index expression [s[i]] on a
    slice of length [n]. *)
Definition indexOutOfRange (i n : Z) : string :=
  if (i <? 0)%Z then "runtime error: index out of range [" ++ FormatInt i ++ "]"
  else "runtime error: index out of range [" ++ FormatInt i ++ "] with length "
       ++ FormatInt n.

Definition minInt64 : Z := - 2 ^ 63.
Definition maxInt64 : Z := 2 ^ 63 - 1.

(** [strconv.ParseUint(s, 10, 64)] before the range check: the digits as a
    number, nothing for the empty text or a rune that is not a digit. *)
Definition parseDigits (s : string) : option Z :=
  match s with
  | EmptyString => None
  | _ => option_map Z.of_uint (NilEmpty.uint_of_string s)
  end.

(** [strconv.ParseInt(s, 10, 64)]: the value and whether [err] is nil.  A
    syntax error returns 0, a range error the nearest bound. *)
Definition ParseInt (s : string) : Z * bool :=
  match s with
  | EmptyString => (0%Z, false)
  | String c s' =>
      let '(neg, digits) :=
        if Ascii.eqb c "+" then (false, s')
        else if Ascii.eqb c "-" then (true, s')
        else (false, s) in
      match parseDigits digits with
      | None => (0%Z, false)
      | Some un =>
          if (negb neg && (2 ^ 63 <=? un)%Z)%bool then (maxInt64, false)
          else if (neg && (2 ^ 63 <? un)%Z)%bool then (minInt64, false)
          else ((if neg then - un else un)%Z, true)
      end
  end.

(** [strconv.FormatBool] and [strconv.ParseBool]. *)
Definition FormatBool (b : bool) : string := if b then "true" else "false".

Definition ParseBool (s : string) : bool * bool :=
  if existsb (String.eqb s) ["1"; "t"; "T"; "TRUE"; "true"; "True"] then (true, true)
  else if existsb (String.eqb s) ["0"; "f"; "F"; "FALSE"; "false"; "False"]
       then (false, true)
  else (false, false).

End gostr.

(** ** Values, errors and results shared by the packages *)

Module driver.
Import gostr.

(** The conversions of Go's standard library that the driver calls on
    floating point numbers, on times and on binary data; the development
    is stated for any such functions.  [ParseFloat], [ParseRFC3339] and
    [DecodeString] give the value the Go call returns; the driver drops
    the error. *)
Class Codec := {
  float64 : Type;
  float64_zero : float64;
  FormatFloat : float64 -> string;
  ParseFloat : string -> float64;
  Time : Type;
  FormatRFC3339 : Time -> string;
  ParseRFC3339 : string -> Time;
  EncodeToString : list Byte.byte -> string;
  DecodeString : string -> list Byte.byte
}.

Section Values.
Context `{Codec}.

(** driver.Value: the dynamic value of an argument or of a result column.
    [VNamed ty s] is a value of a defined type [ty] of kind string,
    [VOther ty] a value of any other type. *)
Inductive Value :=
| VNil
| VString (s : string)
| VInt64 (n : Z)
| VFloat64 (f : float64)
| VBool (b : bool)
| VBytes (b : list Byte.byte)
| VTime (t : Time)
| VNamed (ty : string) (s : string)
| VOther (ty : string).

(** [reflect.TypeOf(v).String()] for a value that is not nil. *)
Definition typeName (v : Value) : string :=
  match v with
  | VNil => "<nil>"
  | VString _ => "string"
  | VInt64 _ => "int64"
  | VFloat64 _ => "float64"
  | VBool _ => "bool"
  | VBytes _ => "[]uint8"
  | VTime _ => "time.Time"
  | VNamed ty _ => ty
  | VOther ty => ty
  end.

End Values.

(** Go errors: [ErrorString] is built by [errors.New] and [fmt.Errorf];
    [AWSError] is an error of the SDK, which has a [Code] method;
    [Wrapped] is [errors.Wrap(cause, msg).With(fields...)];
    [DuplicateKeyError] is the type [duplicateKeyError] of [conn.go]. *)
Inductive error :=
| ErrorString (msg : string)
| AWSError (code : string) (msg : string)
| Wrapped (cause : error) (msg : string) (fields : list (string * string))
| DuplicateKeyError (msg : string).

(** How a call ends: it returns a value, returns an error, or panics. *)
Inductive outcome (A : Type) :=
| Return (a : A)
| Error (e : error)
| Panic (msg : string).
Arguments Return {A} a.
Arguments Error {A} e.
Arguments Panic {A} msg.

Definition obind {A B} (m : outcome A) (k : A -> outcome B) : outcome B :=
  match m with
  | Return a => k a
  | Error e => Error e
  | Panic msg => Panic msg
  end.

End driver.

(** ** Package lex: the scanner *)

Module lex.
Import gostr.

(** Token is a lexical token for SQL. *)
Inductive Token :=
| TokenIllegal
| TokenEOF
| TokenWhiteSpace
| TokenComment
| TokenIdent
| TokenKeyword
| TokenLiteral
| TokenOperator
| TokenPlaceholder.

#[global] Instance Token_eq_dec : EqDecision Token.
Proof. solve_decision. Defined.

Definition eof : ascii := ascii_of_N 0.
Definition operators : string := "%&()*+,-./:;<=>?^|{}".

Definition keywords : gmap string bool :=
  list_to_map
    (map (fun k => (k, true))
       [ "or"; "and"; "not"; "from"; "where"; "select"; "like"; "null"; "is";
         "order"; "by"; "asc"; "desc"; "in"; "between"; "intersection";
         "limit"; "every";
         "update"; "upsert"; "insert"; "delete"; "create"; "drop"; "table";
         "values"; "set" ]).

(** Scanner is a simple lexical scanner for SQL statements.  [r] is the
    unread rest of the input; the [keywords] field of the Go struct is
    always the package-level table above. *)
Record Scanner := mkScanner {
  IgnoreWhiteSpace : bool;
  r : string;
  err : option string;
  token : Token;
  lexeme : string
}.

(** [lex.New]. *)
Definition New (input : string) : Scanner :=
  {| IgnoreWhiteSpace := false; r := input; err := None;
     token := TokenIllegal; lexeme := "" |}.

Definition setIgnoreWhiteSpace (b : bool) (s : Scanner) : Scanner :=
  {| IgnoreWhiteSpace := b; r := r s; err := err s;
     token := token s; lexeme := lexeme s |}.

Definition isKeyword (lit : string) : bool :=
  default false (keywords !! ToLower lit).

Definition isWhitespace (ch : ascii) : bool := IsSpace ch.
Definition isDigit (ch : ascii) : bool := IsDigit ch.
Definition isStartIdent (ch : ascii) : bool :=
  (Ascii.eqb ch "_" || IsLetter ch)%bool.
Definition isIdent (ch : ascii) : bool := (isStartIdent ch || IsDigit ch)%bool.

(** [s.read()]: the next rune and the reader after it; [eof] at the end of
    the input (and for a NUL rune, which the scanner cannot tell apart). *)
Definition read (input : string) : ascii * string :=
  match input with
  | EmptyString => (eof, EmptyString)
  | String ch rest => (ch, rest)
  end.

(** [s.unread(ch)]: [before] is the reader before [ch] was read, [after]
    the reader after it; nothing is pushed back for [eof]. *)
Definition unread (ch : ascii) (before after : string) : string :=
  if Ascii.eqb ch eof then after else before.

(** [setToken], on the reader [rest] left by the scanning function. *)
Definition setToken (tok : Token) (text : string) (rest : string) (s : Scanner)
  : bool * Scanner :=
  if bool_decide (tok = TokenIllegal) then
    (false,
     {| IgnoreWhiteSpace := IgnoreWhiteSpace s; r := rest;
        err := Some ("unrecognised input near " ++ fmtQ text);
        token := tok; lexeme := text |})
  else
    (negb (bool_decide (tok = TokenEOF)),
     {| IgnoreWhiteSpace := IgnoreWhiteSpace s; r := rest; err := err s;
        token := tok; lexeme := text |}).

(** The loop of [scanWhitespace]: the buffer and the reader at the break. *)
Fixpoint scanWhitespaceLoop (buf input : string) : string * string :=
  match input with
  | EmptyString => (buf, EmptyString)
  | String ch rest =>
      if Ascii.eqb ch eof then (buf, rest)
      else if negb (isWhitespace ch) then (buf, input)
      else scanWhitespaceLoop (buf ++ String ch "") rest
  end.

Definition scanWhitespace (input : string) (s : Scanner) : bool * Scanner :=
  let '(ch, rest) := read input in
  let '(buf, rest') := scanWhitespaceLoop (String ch "") rest in
  setToken TokenWhiteSpace buf rest' s.

(** The loop of [scanComment]. *)
Fixpoint scanCommentLoop (buf input : string) : string * string :=
  match input with
  | EmptyString => (buf, EmptyString)
  | String ch rest =>
      if Ascii.eqb ch eof then (buf, rest)
      else if Ascii.eqb ch (ascii_of_N 10) then (buf ++ String ch "", rest)
      else scanCommentLoop (buf ++ String ch "") rest
  end.

Definition scanComment (prefix input : string) (s : Scanner) : bool * Scanner :=
  let '(buf, rest) := scanCommentLoop prefix input in
  setToken TokenComment buf rest s.

(** The loop of [scanDelimitedIdentifier]; [None] is the return of
    [TokenIllegal] at the end of the input. *)
Fixpoint scanDelimitedLoop (endCh : ascii) (buf input : string)
  : option unit * string * string :=
  match input with
  | EmptyString => (None, buf, EmptyString)
  | String ch rest =>
      if Ascii.eqb ch eof then (None, buf, rest)
      else
        let buf1 := buf ++ String ch "" in
        if Ascii.eqb ch endCh then
          match rest with
          | EmptyString => (Some tt, buf1, EmptyString)
          | String ch2 rest2 =>
              if negb (Ascii.eqb ch2 endCh)
              then (Some tt, buf1, unread ch2 rest rest2)
              else scanDelimitedLoop endCh (buf1 ++ String ch2 "") rest2
          end
        else scanDelimitedLoop endCh buf1 rest
  end.

Definition scanDelimitedIdentifier (startCh endCh : ascii) (input : string)
  (s : Scanner) : bool * Scanner :=
  match scanDelimitedLoop endCh (String startCh "") input with
  | (None, buf, rest) => setToken TokenIllegal buf rest s
  | (Some _, buf, rest) => setToken TokenIdent buf rest s
  end.

(** The loop of [scanIdentifier]. *)
Fixpoint scanIdentifierLoop (buf input : string) : string * string :=
  match input with
  | EmptyString => (buf, EmptyString)
  | String ch rest =>
      if Ascii.eqb ch eof then (buf, rest)
      else if negb (isIdent ch) then (buf, input)
      else scanIdentifierLoop (buf ++ String ch "") rest
  end.

Definition scanIdentifier (startCh : ascii) (input : string) (s : Scanner)
  : bool * Scanner :=
  let '(lexeme, rest) := scanIdentifierLoop (String startCh "") input in
  if isKeyword lexeme then setToken TokenKeyword (ToLower lexeme) rest s
  else setToken TokenIdent lexeme rest s.

(** The loop of [scanNumber]; [dot] tells that a period was added, after
    which the comparison function is [isDigit] alone. *)
Fixpoint scanNumberLoop (dot : bool) (buf input : string) : string * string :=
  match input with
  | EmptyString => (buf, EmptyString)
  | String ch rest =>
      if Ascii.eqb ch eof then (buf, rest)
      else if (isDigit ch || (negb dot && Ascii.eqb ch "."))%bool
      then scanNumberLoop (dot || Ascii.eqb ch ".")%bool (buf ++ String ch "") rest
      else (buf, input)
  end.

Definition scanNumber (startCh : ascii) (input : string) (s : Scanner)
  : bool * Scanner :=
  let '(buf, rest) :=
    scanNumberLoop (Ascii.eqb startCh ".") (String startCh "") input in
  setToken TokenLiteral buf rest s.

(** The loop of [scanQuote]; the end rune is the last start rune. *)
Fixpoint scanQuoteLoop (endCh : ascii) (buf input : string)
  : option unit * string * string :=
  match input with
  | EmptyString => (None, buf, EmptyString)
  | String ch rest =>
      if Ascii.eqb ch eof then (None, buf, rest)
      else
        let buf1 := buf ++ String ch "" in
        if Ascii.eqb ch endCh then
          match rest with
          | EmptyString => (Some tt, buf1, EmptyString)
          | String ch2 rest2 =>
              if Ascii.eqb ch2 endCh
              then scanQuoteLoop endCh (buf1 ++ String ch2 "") rest2
              else (Some tt, buf1, unread ch2 rest rest2)
          end
        else scanQuoteLoop endCh buf1 rest
  end.

Definition scanQuote (startChs : string) (endCh : ascii) (input : string)
  (s : Scanner) : bool * Scanner :=
  match scanQuoteLoop endCh startChs input with
  | (None, buf, rest) => setToken TokenIllegal buf rest s
  | (Some _, buf, rest) => setToken TokenLiteral buf rest s
  end.

Definition scanPlaceholder (startCh : ascii) (input : string) (s : Scanner)
  : bool * Scanner :=
  setToken TokenPlaceholder (String startCh "") input s.

(** The leading loop of [Scan]: with [IgnoreWhiteSpace], white space is read
    and dropped. *)
Fixpoint skipWhitespace (input : string) : ascii * string :=
  match input with
  | EmptyString => (eof, EmptyString)
  | String ch rest => if isWhitespace ch then skipWhitespace rest else (ch, rest)
  end.

(** Scan the next SQL token. *)
Definition Scan (s : Scanner) : bool * Scanner :=
  let '(ch, rest) :=
    if IgnoreWhiteSpace s then skipWhitespace (r s) else read (r s) in
  if Ascii.eqb ch eof then setToken TokenEOF "" rest s
  else if isWhitespace ch then scanWhitespace (unread ch (r s) rest) s
  else if Ascii.eqb ch "-" then
    let '(ch2, rest2) := read rest in
    if Ascii.eqb ch2 "-" then scanComment "--" rest2 s
    else setToken TokenOperator (runeToString ch) (unread ch2 rest rest2) s
  else if Ascii.eqb ch "[" then scanDelimitedIdentifier "[" "]" rest s
  else if Ascii.eqb ch backquote then scanDelimitedIdentifier backquote backquote rest s
  else if Ascii.eqb ch dquote then scanDelimitedIdentifier dquote dquote rest s
  else if Ascii.eqb ch squote then scanQuote (String ch "") squote rest s
  else if Ascii.eqb ch "{" then scanDelimitedIdentifier "{" "}" rest s
  else if ContainsRune "NnXx" ch then
    let '(ch2, rest2) := read rest in
    if Ascii.eqb ch2 squote then scanQuote (String ch (String ch2 "")) squote rest2 s
    else scanIdentifier ch (unread ch2 rest rest2) s
  else if isStartIdent ch then scanIdentifier ch rest s
  else if isDigit ch then scanNumber ch rest s
  else if Ascii.eqb ch "." then
    let '(ch2, rest2) := read rest in
    let rest' := unread ch2 rest rest2 in
    if isDigit ch2 then scanNumber ch rest' s
    else setToken TokenOperator (runeToString ch) rest' s
  else if Ascii.eqb ch "<" then
    let '(ch2, rest2) := read rest in
    if Ascii.eqb ch2 ">" then setToken TokenOperator "<>" rest2 s
    else setToken TokenOperator (runeToString ch) (unread ch2 rest rest2) s
  else if Ascii.eqb ch "?" then scanPlaceholder ch rest s
  else if ContainsRune operators ch then setToken TokenOperator (runeToString ch) rest s
  else setToken TokenIllegal (runeToString ch) rest s.

(** The tokens of a text, as [TestScan] collects them: scan until the end of
    the input is reported; [fuel] bounds the number of scans. *)
Fixpoint scanAll (fuel : nat) (s : Scanner) : list (Token * string) :=
  match fuel with
  | O => []
  | S fuel' =>
      let s' := snd (Scan s) in
      if bool_decide (token s' = TokenEOF) then [(TokenEOF, "")]
      else (token s', lexeme s') :: scanAll fuel' s'
  end.

Definition tokensOf (ignoreWS : bool) (sql : string) : list (Token * string) :=
  scanAll (S (String.length sql)) (setIgnoreWhiteSpace ignoreWS (New sql)).

(** [lex.Unquote] is declared in a file of package [lex] that is not among
    the sources; the parser and the executor are stated for any such
    function. *)
Class Quoting := { Unquote : string -> string }.

End lex.

(** ** Package parse: the statement model and the parser *)

Module parse.
Import gostr lex.

(** Key represents the primary key of the record being
    inserted/updated/deleted: a zero-based placeholder ordinal, or a literal
    value when [KeyValue] is not nil. *)
Record Key := mkKey {
  KeyOrdinal : Z;
  KeyValue : option string
}.

(** Column represents a column in the query and the placeholder or value it
    is associated with. *)
Record Column := mkColumn {
  ColumnName : string;
  ColOrdinal : Z;
  ColValue : option string
}.

(** SelectQuery is the representation of a select query. *)
Record SelectQuery := mkSelectQuery {
  ConsistentRead : bool;
  ColumnNames : list string;
  SelTableName : string;
  WhereClause : list string;
  SelKey : option Key
}.

(** InsertQuery is the representation of an insert query. *)
Record InsertQuery := mkInsertQuery {
  InsTableName : string;
  InsColumns : list Column;
  InsKey : Key
}.

(** UpdateQuery is the representation of an update query.

    Modelled from the spec: the field [Upsert], which [conn.updateRow]
    reads, is not declared by the [UpdateQuery] of [parse.go]; the spec has
    "upsert: bool (true when the statement used the upsert keyword in place
    of update, relaxing the existence precondition)".  The parser below
    builds [&UpdateQuery{}], which leaves the field at its zero value. *)
Record UpdateQuery := mkUpdateQuery {
  UpdTableName : string;
  UpdColumns : list Column;
  UpdKey : Key;
  Upsert : bool
}.

(** DeleteQuery is the representation of a delete query. *)
Record DeleteQuery := mkDeleteQuery {
  DelTableName : string;
  DelKey : Key
}.

Record CreateTableQuery := mkCreateTableQuery { CreateTableName : string }.
Record DropTableQuery := mkDropTableQuery { DropTableName : string }.

(** Query is the representation of a single parsed query. *)
Record Query := mkQuery {
  Select : option SelectQuery;
  Insert : option InsertQuery;
  Update : option UpdateQuery;
  Delete : option DeleteQuery;
  CreateTable : option CreateTableQuery;
  DropTable : option DropTableQuery
}.

Definition zeroKey : Key := mkKey 0 None.
Definition zeroQuery : Query := mkQuery None None None None None None.

Record parser := mkParser {
  lexer : Scanner;
  query : Query;
  placeholderIndex : Z;
  lexemes : list string
}.

Definition setLexer (l : Scanner) (p : parser) : parser :=
  mkParser l (query p) (placeholderIndex p) (lexemes p).
Definition setQuery (q : Query) (p : parser) : parser :=
  mkParser (lexer p) q (placeholderIndex p) (lexemes p).
Definition setPlaceholderIndex (n : Z) (p : parser) : parser :=
  mkParser (lexer p) (query p) n (lexemes p).
Definition setLexemes (l : list string) (p : parser) : parser :=
  mkParser (lexer p) (query p) (placeholderIndex p) l.

(** How a parser function can end other than by returning: [Errorf msg] is
    [p.errorf], the panic with a string that [parse] recovers into its
    error; [NilPointer] is the dereference of a statement that was not
    allocated; [OutOfFuel] is a loop that did not stop within its bound. *)
Inductive failure :=
| Errorf (msg : string)
| NilPointer
| OutOfFuel.

Inductive result (A : Type) :=
| Ok (a : A) (p : parser)
| Fail (f : failure).
Arguments Ok {A} a p.
Arguments Fail {A} f.

Definition M (A : Type) : Type := parser -> result A.

Definition ret {A} (a : A) : M A := fun p => Ok a p.

Definition bind {A B} (m : M A) (k : A -> M B) : M B :=
  fun p => match m p with
           | Ok a p' => k a p'
           | Fail f => Fail f
           end.

Definition errorf {A} (msg : string) : M A := fun _ => Fail (Errorf msg).

Declare Scope parser_scope.
Delimit Scope parser_scope with parser.
Notation "x <- m ;; k" := (bind m (fun x => k))
  (at level 100, m at next level, k at level 200, right associativity)
  : parser_scope.
Notation "m ;; k" := (bind m (fun _ => k))
  (at level 100, k at level 200, right associativity) : parser_scope.
Open Scope parser_scope.

Definition ptoken (p : parser) : Token := token (lexer p).
Definition ptext (p : parser) : string := lexeme (lexer p).
Definition remaining (p : parser) : nat := String.length (r (lexer p)).

Definition scan (p : parser) : parser := setLexer (snd (Scan (lexer p))) p.

(** A loop whose every turn reads input runs with a bound taken from the
    unread input. *)
Definition withFuel {A} (loop : nat -> M A) : M A :=
  fun p => loop (2 + remaining p)%nat p.

(** The [for] loop of [next]. *)
Fixpoint nextLoop (fuel : nat) : M bool :=
  fun p =>
    match fuel with
    | O => Fail OutOfFuel
    | S fuel' =>
        if bool_decide (ptoken p = TokenComment) then nextLoop fuel' (scan p)
        else if bool_decide (ptoken p = TokenWhiteSpace) then
          let p' :=
            match last (lexemes p) with
            | Some l => if negb (String.eqb l " ")
                        then setLexemes (lexemes p ++ [" "]) p else p
            | None => p
            end in
          nextLoop fuel' (scan p')
        else Ok (negb (bool_decide (ptoken p = TokenEOF))) p
    end.

Definition next : M bool :=
  fun p =>
    let p1 := if bool_decide (ptoken p = TokenPlaceholder)
              then setPlaceholderIndex (placeholderIndex p + 1) p else p in
    withFuel nextLoop (scan p1).

Definition copyText : M unit :=
  fun p => Ok tt (setLexemes (lexemes p ++ [ptext p]) p).

Definition expect (toks : list Token) : M unit :=
  fun p =>
    if existsb (fun tok => bool_decide (ptoken p = tok)) toks then Ok tt p
    else Fail (Errorf ("unexpected " ++ fmtQ (ptext p))).

Definition expectText (text : string) : M unit :=
  fun p =>
    if negb (EqualFold (ptext p) text)
    then Fail (Errorf ("expected " ++ fmtQ text ++ ", found " ++ fmtQ (ptext p)))
    else Ok tt p.

Definition expectEOF : M unit :=
  fun p =>
    if negb (bool_decide (ptoken p = TokenEOF))
    then Fail (Errorf ("expected end of query, found " ++ fmtQ (ptext p)))
    else Ok tt p.

(** Assignments through the statement pointers of [p.query]. *)
Definition onSelect (f : parser -> SelectQuery -> SelectQuery) : M unit :=
  fun p =>
    match Select (query p) with
    | Some s =>
        Ok tt (setQuery (mkQuery (Some (f p s)) (Insert (query p)) (Update (query p))
                           (Delete (query p)) (CreateTable (query p))
                           (DropTable (query p))) p)
    | None => Fail NilPointer
    end.

Definition onInsert (f : parser -> InsertQuery -> InsertQuery) : M unit :=
  fun p =>
    match Insert (query p) with
    | Some s =>
        Ok tt (setQuery (mkQuery (Select (query p)) (Some (f p s)) (Update (query p))
                           (Delete (query p)) (CreateTable (query p))
                           (DropTable (query p))) p)
    | None => Fail NilPointer
    end.

Definition onUpdate (f : parser -> UpdateQuery -> UpdateQuery) : M unit :=
  fun p =>
    match Update (query p) with
    | Some s =>
        Ok tt (setQuery (mkQuery (Select (query p)) (Insert (query p)) (Some (f p s))
                           (Delete (query p)) (CreateTable (query p))
                           (DropTable (query p))) p)
    | None => Fail NilPointer
    end.

Definition onDelete (f : parser -> DeleteQuery -> DeleteQuery) : M unit :=
  fun p =>
    match Delete (query p) with
    | Some s =>
        Ok tt (setQuery (mkQuery (Select (query p)) (Insert (query p)) (Update (query p))
                           (Some (f p s)) (CreateTable (query p))
                           (DropTable (query p))) p)
    | None => Fail NilPointer
    end.

Definition newSelect : M unit :=
  fun p => Ok tt (setQuery (mkQuery (Some (mkSelectQuery false [] "" [] None))
                              (Insert (query p)) (Update (query p)) (Delete (query p))
                              (CreateTable (query p)) (DropTable (query p))) p).
Definition newInsert : M unit :=
  fun p => Ok tt (setQuery (mkQuery (Select (query p))
                              (Some (mkInsertQuery "" [] zeroKey))
                              (Update (query p)) (Delete (query p))
                              (CreateTable (query p)) (DropTable (query p))) p).
Definition newUpdate : M unit :=
  fun p => Ok tt (setQuery (mkQuery (Select (query p)) (Insert (query p))
                              (Some (mkUpdateQuery "" [] zeroKey false))
                              (Delete (query p))
                              (CreateTable (query p)) (DropTable (query p))) p).
Definition newDelete : M unit :=
  fun p => Ok tt (setQuery (mkQuery (Select (query p)) (Insert (query p))
                              (Update (query p)) (Some (mkDeleteQuery "" zeroKey))
                              (CreateTable (query p)) (DropTable (query p))) p).
Definition setCreateTable (c : CreateTableQuery) : M unit :=
  fun p => Ok tt (setQuery (mkQuery (Select (query p)) (Insert (query p))
                              (Update (query p)) (Delete (query p))
                              (Some c) (DropTable (query p))) p).
Definition setDropTable (c : DropTableQuery) : M unit :=
  fun p => Ok tt (setQuery (mkQuery (Select (query p)) (Insert (query p))
                              (Update (query p)) (Delete (query p))
                              (CreateTable (query p)) (Some c)) p).

Section Parser.

Context `{Quoting}.

(** IsID returns true if name corresponds to the special name of the item
    name column ("id"). *)
Definition IsID (name : string) : bool := EqualFold (Unquote name) "id".

(** The value source under the current token: [p.placeholderIndex] for a
    placeholder, the unquoted text for a literal. *)
Definition valueColumn (col : Column) (p : parser) : Column :=
  if bool_decide (ptoken p = TokenPlaceholder)
  then mkColumn (ColumnName col) (placeholderIndex p) (ColValue col)
  else mkColumn (ColumnName col) (ColOrdinal col) (Some (Unquote (ptext p))).

Definition valueKey (p : parser) : Key :=
  if bool_decide (ptoken p = TokenPlaceholder)
  then mkKey (placeholderIndex p) None
  else mkKey 0 (Some (Unquote (ptext p))).

(** *** select *)

(** The closure [expectIdent] of [parseSelectColumnList]. *)
Definition selectExpectIdent : M unit :=
  expect [TokenIdent] ;;
  onSelect (fun p s =>
    mkSelectQuery (ConsistentRead s) (ColumnNames s ++ [Unquote (ptext p)])
      (SelTableName s) (WhereClause s) (SelKey s)) ;;
  next ;;
  ret tt.

Fixpoint selectColumnListLoop (fuel : nat) : M unit :=
  fun p =>
    match fuel with
    | O => Fail OutOfFuel
    | S fuel' =>
        if String.eqb (ptext p) ","
        then (next ;; selectExpectIdent ;; selectColumnListLoop fuel') p
        else Ok tt p
    end.

Definition parseSelectColumnList : M unit :=
  selectExpectIdent ;;
  withFuel selectColumnListLoop.

Definition parseSelectFromClause : M unit :=
  expectText "from" ;;
  next ;;
  expect [TokenIdent] ;;
  onSelect (fun p s =>
    mkSelectQuery (ConsistentRead s) (ColumnNames s) (Unquote (ptext p))
      (WhereClause s) (SelKey s)) ;;
  next ;;
  ret tt.

Fixpoint copyRemainingLoop (fuel : nat) : M unit :=
  fun p =>
    match fuel with
    | O => Fail OutOfFuel
    | S fuel' =>
        if negb (bool_decide (ptoken p = TokenEOF))
        then (copyText ;; next ;; copyRemainingLoop fuel') p
        else Ok tt p
    end.

Definition copyRemaining : M unit :=
  withFuel copyRemainingLoop ;;
  onSelect (fun p s =>
    mkSelectQuery (ConsistentRead s) (ColumnNames s) (SelTableName s)
      (lexemes p) (SelKey s)) ;;
  (fun p => Ok tt (setLexemes [] p)).

Definition parseSelectWhereClause : M unit :=
  (fun p => Ok tt (setLexer (setIgnoreWhiteSpace false (lexer p)) p)) ;;
  fun p =>
    if negb (String.eqb (ToLower (ptext p)) "where") then copyRemaining p
    else
      (copyText ;; next ;;
       fun p =>
         if (negb (bool_decide (ptoken p = TokenIdent))
             || negb (String.eqb (Unquote (ptext p)) "id"))%bool
         then copyRemaining p
         else
           (copyText ;; next ;;
            fun p =>
              if negb (String.eqb (ptext p) "=") then copyRemaining p
              else
                (copyText ;; next ;;
                 fun p =>
                   if (bool_decide (ptoken p = TokenLiteral)
                       || bool_decide (ptoken p = TokenPlaceholder))%bool
                   then
                     let key :=
                       if bool_decide (ptoken p = TokenLiteral)
                       then mkKey 0 (Some (Unquote (ptext p)))
                       else mkKey (placeholderIndex p) None in
                     (copyText ;; next ;;
                      fun p =>
                        if negb (bool_decide (ptoken p = TokenEOF))
                        then copyRemaining p
                        else
                          onSelect (fun _ s =>
                            mkSelectQuery (ConsistentRead s) (ColumnNames s)
                              (SelTableName s) (WhereClause s) (Some key)) p) p
                   else copyRemaining p) p) p) p.

Definition parseSelect : M unit :=
  newSelect ;;
  (fun p =>
     if String.eqb (ptext p) "consistent" then
       (onSelect (fun _ s =>
          mkSelectQuery true (ColumnNames s) (SelTableName s) (WhereClause s)
            (SelKey s)) ;;
        next ;;
        expectText "select") p
     else Ok tt p) ;;
  next ;;
  parseSelectColumnList ;;
  parseSelectFromClause ;;
  parseSelectWhereClause.

(** *** update *)

Definition parseUpdateColumn : M unit :=
  expect [TokenIdent] ;;
  col <- (fun p => Ok (mkColumn (Unquote (ptext p)) 0 None) p) ;;
  next ;;
  expectText "=" ;;
  next ;;
  expect [TokenPlaceholder; TokenLiteral] ;;
  onUpdate (fun p u =>
    mkUpdateQuery (UpdTableName u) (UpdColumns u ++ [valueColumn col p])
      (UpdKey u) (Upsert u)) ;;
  next ;;
  ret tt.

Fixpoint updateColumnsLoop (fuel : nat) : M unit :=
  fun p =>
    match fuel with
    | O => Fail OutOfFuel
    | S fuel' =>
        if String.eqb (ptext p) ","
        then (next ;; parseUpdateColumn ;; updateColumnsLoop fuel') p
        else Ok tt p
    end.

Definition parseUpdateColumns : M unit :=
  parseUpdateColumn ;;
  withFuel updateColumnsLoop.

Definition parseUpdateWhere : M unit :=
  expectText "where" ;;
  next ;;
  expectText "id" ;;
  next ;;
  expectText "=" ;;
  next ;;
  expect [TokenPlaceholder; TokenLiteral] ;;
  onUpdate (fun p u =>
    mkUpdateQuery (UpdTableName u) (UpdColumns u) (valueKey p) (Upsert u)) ;;
  next ;;
  ret tt.

Definition parseUpdate : M unit :=
  newUpdate ;;
  next ;;
  expect [TokenIdent] ;;
  onUpdate (fun p u =>
    mkUpdateQuery (Unquote (ptext p)) (UpdColumns u) (UpdKey u) (Upsert u)) ;;
  next ;;
  expectText "set" ;;
  next ;;
  parseUpdateColumns ;;
  parseUpdateWhere ;;
  expectEOF.

(** *** insert *)

(** The closure [expectIdent] of [parseInsertColumnList]; the local slice
    [columns] is threaded through. *)
Definition insertExpectIdent (columns : list Column) : M (list Column) :=
  expect [TokenIdent] ;;
  col <- (fun p => Ok (mkColumn (Unquote (ptext p)) 0 None) p) ;;
  next ;;
  ret (columns ++ [col])%list.

Fixpoint insertColumnListLoop (fuel : nat) (columns : list Column)
  : M (list Column) :=
  fun p =>
    match fuel with
    | O => Fail OutOfFuel
    | S fuel' =>
        if String.eqb (ptext p) ","
        then (next ;;
              columns' <- insertExpectIdent columns ;;
              insertColumnListLoop fuel' columns') p
        else Ok columns p
    end.

Definition parseInsertColumnList : M unit :=
  columns <- insertExpectIdent [] ;;
  columns <- withFuel (fun fuel => insertColumnListLoop fuel columns) ;;
  onInsert (fun _ q => mkInsertQuery (InsTableName q) columns (InsKey q)).

(** The first loop of [parseInsertValueList]: [todo] are the columns not
    yet reached by [range], [done] the columns already given their value
    through [col := &p.query.Insert.Columns[i]]. *)
Fixpoint insertValuesLoop (done todo : list Column) : M (list Column) :=
  match todo with
  | [] => ret done
  | col :: todo' =>
      (match done with
       | [] => ret tt
       | _ :: _ => expectText "," ;; next ;; ret tt
       end) ;;
      expect [TokenPlaceholder; TokenLiteral] ;;
      col' <- (fun p => Ok (valueColumn col p) p) ;;
      next ;;
      insertValuesLoop (done ++ [col'])%list todo'
  end.

(** The second loop of [parseInsertValueList]: strip out the id column and
    put it in the key field. *)
Fixpoint stripID (cols : list Column) (haveKey : bool) (key : Key)
  (columns : list Column) : failure + (bool * Key * list Column) :=
  match cols with
  | [] => inr (haveKey, key, columns)
  | col :: cols' =>
      if IsID (ColumnName col) then
        if haveKey then inl (Errorf "duplicate id column in insert statement")
        else stripID cols' true (mkKey (ColOrdinal col) (ColValue col)) columns
      else stripID cols' haveKey key (columns ++ [col])%list
  end.

Definition parseInsertValueList : M unit :=
  fun p =>
    match Insert (query p) with
    | None => Fail NilPointer
    | Some q =>
        (cols <- insertValuesLoop [] (InsColumns q) ;;
         onInsert (fun _ q => mkInsertQuery (InsTableName q) cols (InsKey q)) ;;
         fun p =>
           match Insert (query p) with
           | None => Fail NilPointer
           | Some q =>
               match stripID (InsColumns q) false (InsKey q) [] with
               | inl f => Fail f
               | inr (haveKey, key, columns) =>
                   (onInsert (fun _ q =>
                      mkInsertQuery (InsTableName q) (InsColumns q) key) ;;
                    if negb haveKey
                    then errorf "missing id column in insert statement"
                    else onInsert (fun _ q =>
                           mkInsertQuery (InsTableName q) columns (InsKey q))) p
               end
           end) p
    end.

Definition parseInsert : M unit :=
  newInsert ;;
  next ;;
  (fun p => if EqualFold (ptext p) "into" then (next ;; ret tt) p else Ok tt p) ;;
  expect [TokenIdent] ;;
  onInsert (fun p q => mkInsertQuery (Unquote (ptext p)) (InsColumns q) (InsKey q)) ;;
  next ;;
  expectText "(" ;;
  next ;;
  parseInsertColumnList ;;
  expectText ")" ;;
  next ;;
  expectText "values" ;;
  next ;;
  expectText "(" ;;
  next ;;
  parseInsertValueList ;;
  expectText ")" ;;
  next ;;
  expectEOF.

(** *** delete *)

Definition parseDeleteWhere : M unit :=
  expectText "where" ;;
  next ;;
  expectText "id" ;;
  next ;;
  expectText "=" ;;
  next ;;
  expect [TokenPlaceholder; TokenLiteral] ;;
  onDelete (fun p d => mkDeleteQuery (DelTableName d) (valueKey p)) ;;
  next ;;
  ret tt.

Definition parseDelete : M unit :=
  newDelete ;;
  next ;;
  (fun p => if String.eqb (ToLower (ptext p)) "from"
            then (next ;; ret tt) p else Ok tt p) ;;
  expect [TokenIdent] ;;
  onDelete (fun p d => mkDeleteQuery (Unquote (ptext p)) (DelKey d)) ;;
  next ;;
  parseDeleteWhere ;;
  expectEOF.

(** *** create table, drop table *)

Definition parseCreateTable : M unit :=
  setCreateTable (mkCreateTableQuery "") ;;
  next ;;
  expectText "table" ;;
  next ;;
  expect [TokenIdent] ;;
  (fun p => setCreateTable (mkCreateTableQuery (Unquote (ptext p))) p) ;;
  next ;;
  expectEOF.

Definition parseDropTable : M unit :=
  setDropTable (mkDropTableQuery "") ;;
  next ;;
  expectText "table" ;;
  next ;;
  expect [TokenIdent] ;;
  (fun p => setDropTable (mkDropTableQuery (Unquote (ptext p))) p) ;;
  next ;;
  expectEOF.

(** *** the entry point *)

Definition dispatch : M unit :=
  fun p =>
    let text := ptext p in
    let kw := ToLower text in
    if (String.eqb kw "select" || String.eqb kw "consistent")%bool then parseSelect p
    else if String.eqb kw "update" then parseUpdate p
    else if String.eqb kw "insert" then parseInsert p
    else if String.eqb kw "delete" then parseDelete p
    else if String.eqb kw "create" then parseCreateTable p
    else if String.eqb kw "drop" then parseDropTable p
    else if bool_decide (ptoken p = TokenKeyword)
         then Fail (Errorf ("unexpected keyword " ++ fmtQ text))
         else Fail (Errorf ("unrecognized query " ++ fmtQ text)).

(** The parser at the start of [parse]: a fresh scanner that ignores white
    space, no statement, no placeholder seen. *)
Definition newParser (text : string) : parser :=
  mkParser (setIgnoreWhiteSpace true (New text)) zeroQuery 0 [].

(** [parser.parse], with the deferred [recover]: a panic with a string is
    the error of the call. *)
Definition parse (text : string) : result Query :=
  match (next ;; dispatch) (newParser text) with
  | Ok _ p => Ok (query p) p
  | Fail f => Fail f
  end.

(** Parse a query: the statement, or the failure. *)
Definition Parse (text : string) : failure + Query :=
  match parse text with
  | Ok q _ => inr q
  | Fail f => inl f
  end.

End Parser.

Section Binding.
Import driver.
Context `{Codec}.

(** [values[i]] for an index already checked to be in range; the model
    keeps the run-time check of the index expression. *)
Definition index (values : list Value) (i : Z) : outcome Value :=
  match nth_error values (Z.to_nat i) with
  | Some v =>
      if (i <? 0)%Z then Panic (indexOutOfRange i (Z.of_nat (length values)))
      else Return v
  | None => Panic (indexOutOfRange i (Z.of_nat (length values)))
  end.

(** GetValue gets the value for a column, either from the placeholder
    value or the literal value. *)
Definition GetValue (col : Column) (values : list Value) : outcome Value :=
  match ColValue col with
  | Some v => Return (VString v)
  | None =>
      if ((ColOrdinal col <? 0)%Z
          || (Z.of_nat (length values) <=? ColOrdinal col)%Z)%bool
      then Error (ErrorString ("internal error: ordinal=" ++ FormatInt (ColOrdinal col)
                               ++ ", value len=" ++ FormatInt (Z.of_nat (length values))))
      else index values (ColOrdinal col)
  end.

(** [Key.String] returns the string for the primary key, either from the
    placeholder values or the literal value.  For a value that is neither
    a string nor of kind string the error message is built from
    [vv.Type()], which panics on the zero [reflect.Value] of a nil
    interface value. *)
Definition Key_String (key : Key) (values : list Value) : outcome string :=
  match KeyValue key with
  | Some v => Return v
  | None =>
      if ((KeyOrdinal key <? 0)%Z
          || (Z.of_nat (length values) <=? KeyOrdinal key)%Z)%bool
      then Error (ErrorString "not enough args supplied")
      else
        obind (index values (KeyOrdinal key)) (fun v =>
          match v with
          | VString s => Return s
          | VNamed _ s => Return s
          | VNil => Panic "reflect: call of reflect.Value.Type on zero Value"
          | _ => Error (ErrorString ("invalid type for item name: " ++ fmtQ (typeName v)))
          end)
  end.

End Binding.

End parse.

(** ** An instance of [lex.Unquote] *)

Module lexquote.
Import gostr.

Definition closing (c : ascii) : option ascii :=
  if Ascii.eqb c "[" then Some "]"%char
  else if Ascii.eqb c "{" then Some "}"%char
  else if (Ascii.eqb c backquote || Ascii.eqb c dquote || Ascii.eqb c squote)%bool
       then Some c
  else None.

Fixpoint unquoteBody (endCh : ascii) (s : string) : string :=
  match s with
  | EmptyString => EmptyString
  | String c s' =>
      if Ascii.eqb c endCh then
        match s' with
        | EmptyString => EmptyString
        | String c2 s'' =>
            if Ascii.eqb c2 endCh then String c (unquoteBody endCh s'')
            else String c (unquoteBody endCh s')
        end
      else String c (unquoteBody endCh s')
  end.

(** Modelled from the spec: [lex.Unquote], whose file is not part of the
    sources.  The spec has identifiers "delimited by matching [ ], ` `,
    double quotes, { } with doubled-delimiter escaping inside" and string
    literals "delimited by ' ... with doubled-quote escaping", and names
    the parser's "literal unquoting": a text that opens with a delimiter
    loses it and its closing delimiter, and a doubled closing delimiter
    inside stands for one; any other text is returned as it is. *)
Definition Unquote (s : string) : string :=
  match s with
  | EmptyString => EmptyString
  | String c s' =>
      match closing c with
      | Some endCh => unquoteBody endCh s'
      | None => s
      end
  end.

(** The instance of [lex.Quoting] used to run the parser on texts. *)
Definition quoting : lex.Quoting := {| lex.Unquote := Unquote |}.

End lexquote.

(** ** Package simpledbsql: the executor of conn.go *)

Module sdb.
Import gostr lex parse driver.

(** SimpleDB error codes. *)
Definition conditionalCheckFailed : string := "ConditionalCheckFailed".
Definition attributeDoesNotExist : string := "AttributeDoesNotExist".

(** The requests of the SDK that the driver builds.  A [*string] that the
    driver always sets is a [string]; one it may leave nil is an option. *)
Record UpdateCondition := mkUpdateCondition {
  Exists : option bool;
  CondName : option string;
  CondValue : option string
}.

Record ReplaceableAttribute := mkReplaceableAttribute {
  RName : string;
  RReplace : bool;
  RValue : string
}.

Record DeletableAttribute := mkDeletableAttribute { DName : string }.

Record PutAttributesInput := mkPutAttributesInput {
  PutDomainName : string;
  PutItemName : string;
  PutAttributes : list ReplaceableAttribute;
  PutExpected : option UpdateCondition
}.

Record DeleteAttributesInput := mkDeleteAttributesInput {
  DelDomainName : string;
  DelItemName : string;
  DelAttributes : list DeletableAttribute;
  DelExpected : option UpdateCondition
}.

Record GetAttributesInput := mkGetAttributesInput {
  GetConsistentRead : bool;
  GetDomainName : string;
  GetItemName : string;
  GetAttributeNames : list string
}.

Record SelectInput := mkSelectInput {
  SelConsistentRead : bool;
  SelectExpression : string;
  NextToken : option string
}.

Record Attribute := mkAttribute {
  AName : option string;
  AValue : option string
}.

Record Item := mkItem {
  IName : option string;
  IAttributes : list Attribute
}.

Record SelectOutput := mkSelectOutput {
  Items : list Item;
  OutNextToken : option string
}.

(** simpledbiface.SimpleDBAPI, as far as the driver calls it: every call
    answers with an error or with its output. *)
Record SimpleDBAPI := mkAPI {
  CreateDomainWithContext : string -> option error;
  DeleteDomainWithContext : string -> option error;
  PutAttributesWithContext : PutAttributesInput -> option error;
  DeleteAttributesWithContext : DeleteAttributesInput -> option error;
  GetAttributesWithContext : GetAttributesInput -> error + list Attribute;
  SelectWithContext : SelectInput -> error + SelectOutput
}.

(** The requests a call of the driver sends, in the order they are sent. *)
Inductive request :=
| ReqCreateDomain (name : string)
| ReqDeleteDomain (name : string)
| ReqPut (input : PutAttributesInput)
| ReqDelete (input : DeleteAttributesInput)
| ReqGet (input : GetAttributesInput)
| ReqSelect (input : SelectInput).

Record conn := mkConn {
  Schema : string;
  Synonyms : gmap string string
}.

Record resultT := mkResult { rowsAffected : Z }.

Definition newResult (rowCount : Z) : resultT := mkResult rowCount.

Definition typeColumnName (columnName : string) : string := "sql:" ++ columnName.

Definition quoteString (s : string) : string :=
  String squote (ReplaceRune s squote (String squote (String squote ""))
                 ++ String squote "").

Definition hasCode (err : error) (code : string) : bool :=
  match err with
  | AWSError c _ => String.eqb code c
  | _ => false
  end.

Definition derefString (sp : option string) : string :=
  match sp with
  | None => ""
  | Some s => s
  end.

(** The method [DuplicateKey] of [duplicateKeyError], reached through the
    assertion [err.(interface{ DuplicateKey() bool })]; the assertion fails
    on every other error. *)
Definition DuplicateKey (e : error) : option bool :=
  match e with
  | DuplicateKeyError _ => Some true
  | _ => None
  end.

Definition getDomainName (c : conn) (tableName : string) : string :=
  match Synonyms c !! tableName with
  | Some dn => dn
  | None =>
      if negb (String.eqb (Schema c) "") then Schema c ++ "." ++ tableName
      else tableName
  end.

Section Executor.
Context `{Quoting} `{Codec}.

(** The closure [quoteIdentifier] of [makeSelectExpression]. *)
Definition quoteIdentifier (columnName : string) : string :=
  String backquote
    (ReplaceRune columnName backquote (String backquote (String backquote ""))
     ++ String backquote "").

(** The closure [getArg] of [makeSelectExpression]. *)
Definition getArg (args : list Value) (i : nat) : outcome string :=
  match nth_error args i with
  | None => Error (ErrorString "not enough args for select query")
  | Some (VString s) => Return s
  | Some (VNamed _ s) => Return s
  | Some _ => Error (ErrorString "all args to a select query must be strings")
  end.

Definition selectColumnNames (q : SelectQuery) : list string :=
  quoteIdentifier "sql:id"
  :: flat_map (fun columnName =>
                 if negb (IsID columnName)
                 then [quoteIdentifier columnName; quoteIdentifier ("sql:" ++ columnName)]
                 else [])
       (ColumnNames q).

(** The loop of [makeSelectExpression] over [q.WhereClause]: [sb] is the
    string builder, [argIndex] the index of the next argument. *)
Fixpoint replayLexemes (args : list Value) (lexemes : list string)
  (sb : string) (argIndex : nat) : outcome string :=
  match lexemes with
  | [] => Return sb
  | lexeme :: rest =>
      if (String.eqb lexeme "id" || String.eqb lexeme "`id`")%bool
      then replayLexemes args rest (sb ++ "itemName()") argIndex
      else if String.eqb lexeme "?" then
        obind (getArg args argIndex) (fun arg =>
          replayLexemes args rest (sb ++ quoteString arg) (S argIndex))
      else replayLexemes args rest (sb ++ lexeme) argIndex
  end.

Definition makeSelectExpression (c : conn) (q : SelectQuery) (args : list Value)
  : outcome string :=
  let sb := "select " ++ Join (selectColumnNames q) ", " ++ " from "
            ++ quoteIdentifier (getDomainName c (SelTableName q)) ++ " " in
  replayLexemes args (WhereClause q) sb 0.

(** One column of the loop of [newPutDeleteInputs]: the attributes added to
    the put request and to the delete request. *)
Definition encodeColumn (name : string) (v : Value)
  : outcome (list ReplaceableAttribute * list DeletableAttribute) :=
  let addType value := mkReplaceableAttribute (typeColumnName name) true value in
  let addPut value := mkReplaceableAttribute name true value in
  let addDelete := mkDeletableAttribute name in
  match v with
  | VNil => Return ([addType "null"], [addDelete])
  | VString val =>
      if String.eqb val "" then Return ([addType "string"], [addDelete])
      else Return ([addType "string"; addPut val], [])
  | VInt64 val => Return ([addType "int64"; addPut (FormatInt val)], [])
  | VFloat64 val => Return ([addType "float64"; addPut (FormatFloat val)], [])
  | VTime val => Return ([addType "time"; addPut (FormatRFC3339 val)], [])
  | VBool val => Return ([addType "bool"; addPut (FormatBool val)], [])
  | VBytes val => Return ([addType "binary"; addPut (EncodeToString val)], [])
  | VNamed _ _ | VOther _ =>
      Error (ErrorString ("unexpected arg type: " ++ typeName v))
  end.

Fixpoint encodeColumns (columns : list Column) (args : list Value)
  (puts : list ReplaceableAttribute) (dels : list DeletableAttribute)
  : outcome (list ReplaceableAttribute * list DeletableAttribute) :=
  match columns with
  | [] => Return (puts, dels)
  | col :: columns' =>
      obind (GetValue col args) (fun v =>
      obind (encodeColumn (ColumnName col) v) (fun '(p, d) =>
      encodeColumns columns' args (puts ++ p) (dels ++ d)))
  end.

(** newPutDeleteInputs is common to insert and update. It assembles the
    attributes for the put item and delete item requests. *)
Definition newPutDeleteInputs (c : conn) (tableName : string)
  (columns : list Column) (key : Key) (args : list Value)
  : outcome (PutAttributesInput * DeleteAttributesInput) :=
  obind (Key_String key args) (fun itemName =>
  obind (encodeColumns columns args
           [mkReplaceableAttribute "sql:id" true "string"] []) (fun '(puts, dels) =>
  Return (mkPutAttributesInput (getDomainName c tableName) itemName puts None,
          mkDeleteAttributesInput (getDomainName c tableName) itemName dels None))).

Definition createTable (api : SimpleDBAPI) (c : conn) (q : CreateTableQuery)
  : list request * outcome resultT :=
  let domainName := getDomainName c (CreateTableName q) in
  ([ReqCreateDomain domainName],
   match CreateDomainWithContext api domainName with
   | Some err =>
       Error (Wrapped err "cannot create simpledb domain"
                [("domain", domainName); ("table", CreateTableName q)])
   | None => Return (newResult 1)
   end).

Definition dropTable (api : SimpleDBAPI) (c : conn) (q : DropTableQuery)
  : list request * outcome resultT :=
  let domainName := getDomainName c (DropTableName q) in
  ([ReqDeleteDomain (getDomainName c domainName)],
   match DeleteDomainWithContext api (getDomainName c domainName) with
   | Some err =>
       Error (Wrapped err "cannot delete simpledb domain"
                [("domain", domainName); ("table", DropTableName q)])
   | None => Return (newResult 1)
   end).

Definition deleteRow (api : SimpleDBAPI) (c : conn) (q : DeleteQuery)
  (args : list Value) : list request * outcome resultT :=
  match Key_String (DelKey q) args with
  | Error e => ([], Error e)
  | Panic msg => ([], Panic msg)
  | Return itemName =>
      let deleteInput :=
        mkDeleteAttributesInput (getDomainName c (DelTableName q)) itemName [] None in
      ([ReqDelete deleteInput],
       match DeleteAttributesWithContext api deleteInput with
       | Some err =>
           Error (Wrapped err "cannot delete attributes" [("itemName", itemName)])
       | None => Return (newResult 0)
       end)
  end.

Definition insertRow (api : SimpleDBAPI) (c : conn) (q : InsertQuery)
  (args : list Value) : list request * outcome resultT :=
  match newPutDeleteInputs c (InsTableName q) (InsColumns q) (InsKey q) args with
  | Error e => ([], Error e)
  | Panic msg => ([], Panic msg)
  | Return (putInput0, _) =>
      let putInput :=
        mkPutAttributesInput (PutDomainName putInput0) (PutItemName putInput0)
          (PutAttributes putInput0)
          (Some (mkUpdateCondition (Some false) (Some "sql:id") None)) in
      ([ReqPut putInput],
       match PutAttributesWithContext api putInput with
       | Some err =>
           if hasCode err conditionalCheckFailed then
             Error (DuplicateKeyError
                      ("cannot insert duplicate key table="
                       ++ fmtQ (PutDomainName putInput)
                       ++ " itemName=" ++ fmtQ (PutItemName putInput)))
           else Error (Wrapped err "cannot put attributes"
                         [("itemName", PutItemName putInput)])
       | None => Return (newResult 1)
       end)
  end.

(** What one goroutine of [updateRow] leaves behind: the error it returns
    to the group and whether it set its [...ItemExists] flag. *)
Definition branch (response : option error) (msg itemName : string)
  : option error * bool :=
  match response with
  | Some err =>
      if hasCode err attributeDoesNotExist then (None, false)
      else (Some (Wrapped err msg [("itemName", itemName)]), false)
  | None => (None, true)
  end.

(** [updateRow].  The two goroutines of the error group may finish in
    either order; [putFirst] tells whether the put goroutine returns first,
    and [group.Wait] returns the first error that was returned. *)
Definition updateRow (api : SimpleDBAPI) (putFirst : bool) (c : conn)
  (q : UpdateQuery) (args : list Value) : list request * outcome resultT :=
  match newPutDeleteInputs c (UpdTableName q) (UpdColumns q) (UpdKey q) args with
  | Error e => ([], Error e)
  | Panic msg => ([], Panic msg)
  | Return (putInput0, deleteInput0) =>
      let expected :=
        if negb (Upsert q)
        then Some (mkUpdateCondition (Some true) (Some "sql:id") (Some "string"))
        else None in
      let putInput :=
        mkPutAttributesInput (PutDomainName putInput0) (PutItemName putInput0)
          (PutAttributes putInput0) expected in
      let deleteInput :=
        mkDeleteAttributesInput (DelDomainName deleteInput0) (DelItemName deleteInput0)
          (DelAttributes deleteInput0) expected in
      let hasPut := (0 <? length (PutAttributes putInput))%nat in
      let hasDel := (0 <? length (DelAttributes deleteInput))%nat in
      let '(putErr, putItemExists) :=
        if hasPut
        then branch (PutAttributesWithContext api putInput)
               "cannot put attributes" (PutItemName putInput)
        else (None, false) in
      let '(delErr, delItemExists) :=
        if hasDel
        then branch (DeleteAttributesWithContext api deleteInput)
               "cannot delete attributes" (DelItemName deleteInput)
        else (None, false) in
      let putReq := if hasPut then [ReqPut putInput] else [] in
      let delReq := if hasDel then [ReqDelete deleteInput] else [] in
      let waitErr :=
        if putFirst
        then match putErr with Some e => Some e | None => delErr end
        else match delErr with Some e => Some e | None => putErr end in
      ((if putFirst then putReq ++ delReq else delReq ++ putReq)%list,
       match waitErr with
       | Some err => Error err
       | None =>
           Return (newResult (if (putItemExists || delItemExists)%bool then 1 else 0))
       end)
  end.

(** [ExecContext], on the positional arguments that [getArgs] collects. *)
Definition ExecContext (api : SimpleDBAPI) (putFirst : bool) (c : conn)
  (query : string) (args : list Value) : list request * outcome resultT :=
  match Parse query with
  | inl (Errorf msg) => ([], Error (ErrorString msg))
  | inl NilPointer => ([], Panic "nil pointer dereference")
  | inl OutOfFuel => ([], Panic "out of fuel")
  | inr q =>
      match Select q, CreateTable q, DropTable q, Insert q, Update q, Delete q with
      | Some _, _, _, _, _, _ =>
          ([], Error (ErrorString "unexpected select query for ExecContext"))
      | None, Some ct, _, _, _, _ => createTable api c ct
      | None, None, Some dt, _, _, _ => dropTable api c dt
      | None, None, None, Some ins, _, _ => insertRow api c ins args
      | None, None, None, None, Some upd, _ => updateRow api putFirst c upd args
      | None, None, None, None, None, Some del => deleteRow api c del args
      | None, None, None, None, None, None =>
          ([], Error (ErrorString "unsupported query"))
      end
  end.

(** *** The result cursor of rows.go *)

Record columnMap := mkColumnMap {
  columns : list string;
  colmap : gmap string nat;
  itemNameIndex : nat
}.

(** The loop of [setColumns], from index [i] on. *)
Fixpoint setColumnsLoop (i : nat) (cols : list string) (cm : columnMap)
  : columnMap :=
  match cols with
  | [] => cm
  | col :: cols' =>
      setColumnsLoop (S i) cols'
        (if IsID col then mkColumnMap (columns cm) (colmap cm) i
         else mkColumnMap (columns cm) (<[col := i]> (colmap cm)) (itemNameIndex cm))
  end.

(** [setColumns], on the zero [columnMap] of a new cursor. *)
Definition setColumns (cols : list string) : columnMap :=
  setColumnsLoop 0 cols (mkColumnMap cols ∅ 0).

(** [values[index] = v]. *)
Definition assign (values : list Value) (index : nat) (v : Value)
  : outcome (list Value) :=
  if (index <? length values)%nat then Return (<[index := v]> values)
  else Panic (indexOutOfRange (Z.of_nat index) (Z.of_nat (length values))).

(** The zero value that the first pass stores for a type tag. *)
Definition zeroValue (tag : string) : option Value :=
  if String.eqb tag "string" then Some (VString "")
  else if String.eqb tag "int64" then Some (VInt64 0)
  else if String.eqb tag "float64" then Some (VFloat64 float64_zero)
  else if String.eqb tag "bool" then Some (VBool false)
  else if (String.eqb tag "binary" || String.eqb tag "null")%bool then Some VNil
  else None.

(** The value that the second pass decodes for a type tag. *)
Definition decodeValue (colType value : string) : option Value :=
  if String.eqb colType "string" then Some (VString value)
  else if String.eqb colType "int64" then Some (VInt64 (fst (ParseInt value)))
  else if String.eqb colType "float64" then Some (VFloat64 (ParseFloat value))
  else if String.eqb colType "bool" then Some (VBool (fst (ParseBool value)))
  else if String.eqb colType "time" then Some (VTime (ParseRFC3339 value))
  else if String.eqb colType "binary" then Some (VBytes (DecodeString value))
  else None.

(** The first loop of [setValues]: collect the column types. *)
Fixpoint collectTypes (cm : columnMap) (attrs : list Attribute)
  (colTypes : gmap string string) (values : list Value)
  : outcome (gmap string string * list Value) :=
  match attrs with
  | [] => Return (colTypes, values)
  | attr :: attrs' =>
      let name := derefString (AName attr) in
      if HasPrefix name "sql:" then
        let value := derefString (AValue attr) in
        let colTypes' := <[name := value]> colTypes in
        let colName := TrimPrefix name "sql:" in
        match colmap cm !! colName, zeroValue value with
        | Some index, Some z =>
            obind (assign values index z) (fun values' =>
              collectTypes cm attrs' colTypes' values')
        | _, _ => collectTypes cm attrs' colTypes' values
        end
      else collectTypes cm attrs' colTypes values
  end.

(** The second loop of [setValues]: decode the values. *)
Fixpoint decodeValues (cm : columnMap) (colTypes : gmap string string)
  (attrs : list Attribute) (values : list Value) : outcome (list Value) :=
  match attrs with
  | [] => Return values
  | attr :: attrs' =>
      let name := derefString (AName attr) in
      let value := derefString (AValue attr) in
      let colType0 := default "" (colTypes !! typeColumnName name) in
      let colType := if String.eqb colType0 "" then "string" else colType0 in
      match colmap cm !! name, decodeValue colType value with
      | Some index, Some v =>
          obind (assign values index v) (fun values' =>
            decodeValues cm colTypes attrs' values')
      | _, _ => decodeValues cm colTypes attrs' values
      end
  end.

(** [setValues]: [values] is the destination row; the result is its new
    content. *)
Definition setValues (cm : columnMap) (item : Item) (values : list Value)
  : outcome (list Value) :=
  let values0 := map (fun _ => VNil) values in
  obind (assign values0 (itemNameIndex cm) (VString (derefString (IName item))))
    (fun values1 =>
  obind (collectTypes cm (IAttributes item) ∅ values1) (fun '(colTypes, values2) =>
  decodeValues cm colTypes (IAttributes item) values2)).

End Executor.

End sdb.

(** ** Package simpledbsql: the query path of conn.go and the cursors of rows.go *)

Module sdbrows.
Import gostr lex parse driver sdb.

(** [io.EOF], the error that ends a cursor. *)
Definition EOF : error := ErrorString "EOF".

Section Arguments.
Context `{Codec}.

(** driver.NamedValue: [Ordinal] is the position of the argument,
    starting from one. *)
Record NamedValue := mkNamedValue {
  Name : string;
  Ordinal : Z;
  ArgValue : Value
}.

(** [list[i] = v]. *)
Definition assignAt (values : list Value) (i : Z) (v : Value)
  : outcome (list Value) :=
  if ((i <? 0)%Z || (Z.of_nat (length values) <=? i)%Z)%bool
  then Panic (indexOutOfRange i (Z.of_nat (length values)))
  else Return (<[Z.to_nat i := v]> values).

(** The first loop of [getArgs]. *)
Definition maxOrdinal (args : list NamedValue) : Z :=
  fold_left (fun max arg => if (max <? Ordinal arg)%Z then Ordinal arg else max)
    args 0%Z.

(** The second loop of [getArgs], on the slice [values] that the function
    returns. *)
Fixpoint fillArgs (args : list NamedValue) (values : list Value)
  : outcome (list Value) :=
  match args with
  | [] => Return values
  | arg :: args' =>
      obind (assignAt values (Ordinal arg - 1) (ArgValue arg)) (fillArgs args')
  end.

Definition getArgs (args : list NamedValue) : outcome (list Value) :=
  fillArgs args (replicate (Z.to_nat (maxOrdinal args)) VNil).

End Arguments.

(** getAttributeRows implements the sql.Rows interface. It returns at most
    one row. *)
Module getAttributesRows.
Section Rows.
Context `{Quoting} `{Codec}.

Record t := mk {
  cm : columnMap;
  item : option Item
}.

Definition newGetAttributeRows (columns : list string) : t :=
  mk (setColumns columns) None.

Definition Columns (rows : t) : list string := columns (cm rows).

Definition Close (rows : t) : t := mk (cm rows) None.

(** [Next]: the cursor after the call and what the call leaves in [dest],
    or the error it returns. *)
Definition Next (rows : t) (dest : list Value) : t * outcome (list Value) :=
  match item rows with
  | None => (rows, Error EOF)
  | Some it =>
      match setValues (cm rows) it dest with
      | Return dest' => (mk (cm rows) None, Return dest')
      | Error e => (rows, Error e)
      | Panic msg => (rows, Panic msg)
      end
  end.

End Rows.
End getAttributesRows.

(** selectQueryRows implements the sql.Rows interface. It can keep querying
    the next page of results for as long as the calling program wants
    them. *)
Module selectQueryRows.
Section Rows.
Context `{Quoting} `{Codec}.

Record t := mk {
  cm : columnMap;
  simpledb : SimpleDBAPI;
  input : SelectInput;
  items : list Item
}.

Definition newRows (simpledb : SimpleDBAPI) (columns : list string)
  (input : SelectInput) : t :=
  mk (setColumns columns) simpledb input [].

(** [selectNext]: the request sent, the cursor after the call and the
    error returned. *)
Definition selectNext (rows : t) : list request * t * option error :=
  match SelectWithContext (simpledb rows) (input rows) with
  | inl err => ([ReqSelect (input rows)], rows, Some err)
  | inr output =>
      ([ReqSelect (input rows)],
       mk (cm rows) (simpledb rows)
         (mkSelectInput (SelConsistentRead (input rows))
            (SelectExpression (input rows)) (OutNextToken output))
         (Items output),
       None)
  end.

Definition Columns (rows : t) : list string := columns (cm rows).

Definition Close (rows : t) : t :=
  mk (cm rows) (simpledb rows) (input rows) [].

(** The [for] loop of [Next], which runs for as long as the store answers
    with an empty page that has a next token: [Some None] is the end of the
    loop, [Some (Some err)] a return from inside it, [None] a loop that is
    still running after [fuel] turns. *)
Fixpoint nextLoop (fuel : nat) (rows : t)
  : list request * t * option (option error) :=
  match fuel with
  | O => ([], rows, None)
  | S fuel' =>
      match items rows with
      | _ :: _ => ([], rows, Some None)
      | [] =>
          match NextToken (input rows) with
          | None => ([], rows, Some (Some EOF))
          | Some _ =>
              let '(reqs, rows', err) := selectNext rows in
              match err with
              | Some e => (reqs, rows', Some (Some e))
              | None =>
                  let '(reqs', rows'', res) := nextLoop fuel' rows' in
                  ((reqs ++ reqs')%list, rows'', res)
              end
          end
      end
  end.

(** [Next]: the requests sent, the cursor after the call and what the call
    leaves in [dest], or the error it returns. *)
Definition Next (fuel : nat) (rows : t) (dest : list Value)
  : list request * t * option (outcome (list Value)) :=
  let '(reqs, rows1, res) := nextLoop fuel rows in
  match res with
  | None => (reqs, rows1, None)
  | Some (Some e) => (reqs, rows1, Some (Error e))
  | Some None =>
      match items rows1 with
      | [] => (reqs, rows1, Some (Panic (indexOutOfRange 0 0)))
      | item :: items' =>
          (reqs, mk (cm rows1) (simpledb rows1) (input rows1) items',
           Some (setValues (cm rows1) item dest))
      end
  end.

End Rows.
End selectQueryRows.

Section Query.
Context `{Quoting} `{Codec}.

(** driver.Rows, as [QueryContext] returns it. *)
Inductive Rows :=
| GetAttributesRows (rows : getAttributesRows.t)
| SelectQueryRows (rows : selectQueryRows.t).

Definition getAttributes (api : SimpleDBAPI) (c : conn) (q : SelectQuery)
  (args : list Value) : list request * outcome getAttributesRows.t :=
  match SelKey q with
  | None => ([], Panic "nil pointer dereference")
  | Some key =>
      match Key_String key args with
      | Error e => ([], Error e)
      | Panic msg => ([], Panic msg)
      | Return itemName =>
          let domainName := getDomainName c (SelTableName q) in
          let getAttributesInput :=
            mkGetAttributesInput (ConsistentRead q) domainName itemName
              (flat_map (fun columnName =>
                           [columnName; ("sql:" ++ columnName)%string])
                 (ColumnNames q) ++ ["sql:id"])%list in
          ([ReqGet getAttributesInput],
           match GetAttributesWithContext api getAttributesInput with
           | inl err =>
               Error (Wrapped err "cannot get item"
                        [("itemName", itemName); ("table", SelTableName q);
                         ("domain", domainName)])
           | inr attributes =>
               let rows := getAttributesRows.newGetAttributeRows (ColumnNames q) in
               Return
                 (if (0 <? length attributes)%nat
                  then getAttributesRows.mk (getAttributesRows.cm rows)
                         (Some (mkItem (Some itemName) attributes))
                  else rows)
           end)
      end
  end.

Definition selectQuery (api : SimpleDBAPI) (c : conn) (q : SelectQuery)
  (args : list Value) : list request * outcome selectQueryRows.t :=
  match makeSelectExpression c q args with
  | Error e => ([], Error e)
  | Panic msg => ([], Panic msg)
  | Return selectExpression =>
      let selectInput := mkSelectInput (ConsistentRead q) selectExpression None in
      let rows := selectQueryRows.newRows api (ColumnNames q) selectInput in
      let '(reqs, rows', err) := selectQueryRows.selectNext rows in
      match err with
      | Some e => (reqs, Error e)
      | None => (reqs, Return rows')
      end
  end.

(** [QueryContext]. *)
Definition QueryContext (api : SimpleDBAPI) (c : conn) (query : string)
  (args : list NamedValue) : list request * outcome Rows :=
  match Parse query with
  | inl (Errorf msg) => ([], Error (ErrorString msg))
  | inl NilPointer => ([], Panic "nil pointer dereference")
  | inl OutOfFuel => ([], Panic "out of fuel")
  | inr q =>
      match Select q with
      | None => ([], Error (ErrorString "expect select query for QueryContext"))
      | Some sq =>
          match getArgs args with
          | Error e => ([], Error e)
          | Panic msg => ([], Panic msg)
          | Return values =>
              match SelKey sq with
              | None =>
                  let '(reqs, res) := selectQuery api c sq values in
                  (reqs, obind res (fun rows => Return (SelectQueryRows rows)))
              | Some _ =>
                  let '(reqs, res) := getAttributes api c sq values in
                  (reqs, obind res (fun rows => Return (GetAttributesRows rows)))
              end
          end
      end
  end.

End Query.

End sdbrows.

(** * The specification side: the definitions that the theorems use *)

Open Scope list_scope.

(** ** What a scanning function establishes *)

Module lex_defs.
Import gostr lex.

(** What one call of a scanning function establishes. *)
Definition scanned (toks : list Token) (n : nat) (s s' : Scanner) : Prop :=
  IgnoreWhiteSpace s' = IgnoreWhiteSpace s /\
  String.length (r s') <= n /\
  In (token s') toks.

(** The tokens that are neither white space nor a placeholder. *)
Definition notWSPlaceholder : list Token :=
  [TokenIllegal; TokenEOF; TokenComment; TokenIdent; TokenKeyword; TokenLiteral;
   TokenOperator].

End lex_defs.

(** ** Tokens, lexemes of a tail, invariants of the parser and value sources *)

Module parse_defs.
Import gostr lex parse.

(** The tokens from the current one to the end of the input, [TokenEOF]
    excluded. *)
Fixpoint tokensFuel (fuel : nat) (s : Scanner) : list (Token * string) :=
  match fuel with
  | O => []
  | S fuel' =>
      if bool_decide (token s = TokenEOF) then []
      else (token s, lexeme s) :: tokensFuel fuel' (snd (Scan s))
  end.

Definition tailTokens (s : Scanner) : list (Token * string) :=
  tokensFuel (2 + String.length (r s)) s.

Inductive Tokens : Scanner -> list (Token * string) -> Prop :=
| Tokens_eof s : token s = TokenEOF -> Tokens s []
| Tokens_cons s toks :
    token s <> TokenEOF -> Tokens (snd (Scan s)) toks ->
    Tokens s ((token s, lexeme s) :: toks).

Definition blank (t : Token * string) : bool :=
  (bool_decide (fst t = TokenWhiteSpace) || bool_decide (fst t = TokenComment))%bool.

(** The lexemes of a tail, in the words of the spec as amended: a token
    that is neither white space nor a comment gives its text; white space
    gives one blank, unless nothing was captured yet or a blank was
    captured last; a comment gives nothing. *)
Fixpoint tailLexemes (acc : list string) (toks : list (Token * string))
  : list string :=
  match toks with
  | [] => acc
  | (tok, text) :: toks' =>
      if bool_decide (tok = TokenComment) then tailLexemes acc toks'
      else if bool_decide (tok = TokenWhiteSpace) then
        tailLexemes
          (match last acc with
           | Some l => if negb (String.eqb l " ") then acc ++ [" "] else acc
           | None => acc
           end) toks'
      else tailLexemes (acc ++ [text]) toks'
  end.

(** The invariants of the parser between two calls of [next]. *)
Definition wf (p : parser) : Prop :=
  (ptoken p = TokenPlaceholder -> ptext p = "?") /\
  (ptoken p = TokenEOF -> ptext p = "").

Definition settled (p : parser) : Prop :=
  ptoken p <> TokenWhiteSpace /\ ptoken p <> TokenComment.

(** The bound of a loop of the parser is enough for it to end. *)
Definition fuelOK (fuel : nat) (p : parser) : Prop :=
  (settled p /\ 1 <= fuel) \/ 2 + remaining p <= fuel.

(** The value sources of a statement, in the order of the text: the
    ordinal, and the literal when there is one. *)
Definition colSrc (c : Column) : Z * option string := (ColOrdinal c, ColValue c).

Definition keySrc (k : Key) : Z * option string := (KeyOrdinal k, KeyValue k).

(** [numbered n srcs m]: the placeholders among [srcs] carry the ordinals
    [n], [n+1], ... in this order, and [m] is the next ordinal. *)
Fixpoint numbered (n : Z) (srcs : list (Z * option string)) (m : Z) : Prop :=
  match srcs with
  | [] => m = n
  | (ord, None) :: srcs' => ord = n /\ numbered (n + 1) srcs' m
  | (_, Some _) :: srcs' => numbered n srcs' m
  end.

(** What a function that works on one statement leaves alone. *)
Definition notUpdate (q : Query) :=
  (Select q, Insert q, Delete q, CreateTable q, DropTable q).

Definition notInsert (q : Query) :=
  (Select q, Update q, Delete q, CreateTable q, DropTable q).

Definition notDelete (q : Query) :=
  (Select q, Insert q, Update q, CreateTable q, DropTable q).

Definition notSelect (q : Query) :=
  (Insert q, Update q, Delete q, CreateTable q, DropTable q).

Definition notCreateDrop (q : Query) :=
  (Select q, Insert q, Update q, Delete q).

(** A column that has no value yet. *)
Definition unvalued (c : Column) : Prop := ColValue c = None.

Section Columns.
Context `{Quoting}.

(** The entries of a column list that name the id column. *)
Definition idColumns (cols : list Column) : list Column :=
  filter (fun c => IsID (ColumnName c) = true) cols.

(** The entries of a column list that do not. *)
Definition otherColumns (cols : list Column) : list Column :=
  filter (fun c => IsID (ColumnName c) = false) cols.

End Columns.

End parse_defs.

(** ** The tail of a select statement *)

Module select_defs.
Import gostr lex parse parse_defs.

Definition significant (t : Token * string) : bool := negb (blank t).

Section KeyOf.
Context `{Quoting}.

(** The single-key form, in the words of the spec: the tail is exactly
    [where id = (placeholder|literal)] with nothing following; [n] is the
    ordinal of a placeholder at this place. *)
Definition keyOf (n : Z) (toks : list (Token * string)) : option Key :=
  match List.filter significant toks with
  | [(_, w); (t2, i); (_, e); (t4, v)] =>
      if (String.eqb (ToLower w) "where" && bool_decide (t2 = TokenIdent)
          && String.eqb (Unquote i) "id" && String.eqb e "=")%bool
      then if bool_decide (t4 = TokenLiteral) then Some (mkKey 0 (Some (Unquote v)))
           else if bool_decide (t4 = TokenPlaceholder) then Some (mkKey n None)
           else None
      else None
  | _ => None
  end.

End KeyOf.

(** The statement of a select with its where clause, or with its key. *)
Definition withWhere (sq : SelectQuery) (wc : list string) : SelectQuery :=
  mkSelectQuery (ConsistentRead sq) (ColumnNames sq) (SelTableName sq) wc (SelKey sq).

Definition withKey (sq : SelectQuery) (k : Key) : SelectQuery :=
  mkSelectQuery (ConsistentRead sq) (ColumnNames sq) (SelTableName sq) (WhereClause sq)
    (Some k).

Definition setSelect (sq : SelectQuery) (q : Query) : Query :=
  mkQuery (Some sq) (Insert q) (Update q) (Delete q) (CreateTable q) (DropTable q).

(** The state of the parser at a token of the tail: [seen] are the tokens
    of the tail before it, [rest] the tokens from it on. *)
Record at_token (p0 p : parser) (toks seen rest : list (Token * string)) : Prop := {
  at_toks : toks = seen ++ rest;
  at_lexemes : lexemes p = tailLexemes (lexemes p0) seen;
  at_settled : settled p;
  at_wf : wf p;
  at_tokens : Tokens (lexer p) rest;
  at_query : query p = query p0
}.

End select_defs.

(** ** The states of the parser and the statements it returns *)

Module top_defs.
Import gostr lex parse parse_defs select_defs.

Section Top.
Context `{Quoting}.

(** The state of the parser in the column list and the from clause of a
    select statement: white space is ignored, no lexeme was captured, and
    the where clause and the key of the statement are still empty. *)
Record in_select (p0 p : parser) : Prop := {
  is_wf : wf p;
  is_settled : settled p;
  is_ignore : IgnoreWhiteSpace (lexer p) = true;
  is_lexemes : lexemes p = [];
  is_pi : placeholderIndex p = placeholderIndex p0;
  is_frame : notSelect (query p) = notSelect (query p0);
  is_select : exists sq, Select (query p) = Some sq /\ WhereClause sq = [] /\ SelKey sq = None
}.

(** The parser when [parse] dispatches on the first token. *)
Record at_start (p : parser) : Prop := {
  as_wf : wf p;
  as_ignore : IgnoreWhiteSpace (lexer p) = true;
  as_lexemes : lexemes p = [];
  as_pi : placeholderIndex p = 0%Z;
  as_query : query p = zeroQuery
}.

(** The statements a successful parse can give. *)
Definition parsed (q : Query) : Prop :=
  match q with
  | mkQuery (Some sq) None None None None None =>
      SelKey sq = None \/
      (WhereClause sq = [] /\ exists k, SelKey sq = Some k /\ (exists m, numbered 0 [keySrc k] m))
  | mkQuery None (Some ins) None None None None =>
      exists cols c m,
        idColumns cols = [c] /\ InsColumns ins = otherColumns cols /\
        InsKey ins = mkKey (ColOrdinal c) (ColValue c) /\
        numbered 0 (map colSrc cols) m
  | mkQuery None None (Some upd) None None None =>
      Upsert upd = false /\
      exists m, numbered 0 (map colSrc (UpdColumns upd) ++ [keySrc (UpdKey upd)]) m
  | mkQuery None None None (Some del) None None =>
      exists m, numbered 0 [keySrc (DelKey del)] m
  | mkQuery None None None None (Some _) None => True
  | mkQuery None None None None None (Some _) => True
  | _ => False
  end.

End Top.
End top_defs.

(** ** Calls that return *)

Module total_defs.
Import gostr lex parse.

(** The call returns to its caller: with a value, or with the error of
    [errorf]. *)
Definition returns {A} (r : result A) : Prop :=
  match r with
  | Ok _ _ => True
  | Fail (Errorf _) => True
  | Fail _ => False
  end.

(** [m] returns from every state whose statement satisfies [Q], keeps [Q]
    and does not put input back. *)
Definition keeps (Q : Query -> Prop) {A} (m : M A) : Prop :=
  forall p, Q (query p) ->
    returns (m p) /\
    forall a p', m p = Ok a p' -> Q (query p') /\ remaining p' <= remaining p.

Definition hasSelect (q : Query) : Prop := is_Some (Select q).
Definition hasInsert (q : Query) : Prop := is_Some (Insert q).
Definition hasUpdate (q : Query) : Prop := is_Some (Update q).
Definition hasDelete (q : Query) : Prop := is_Some (Delete q).

End total_defs.

(** ** The executor: outcomes of the branches, the replay of a tail, stores and a codec for examples *)

Module exec_defs.
Import gostr lex parse driver sdb.

Section Defs.
Context `{Quoting} `{Codec}.

(** An error of the SDK that carries the code [code]; an error of another
    kind carries no code. *)
Definition isSDKError (code : string) (err : error) : bool :=
  match err with
  | AWSError c _ => String.eqb code c
  | ErrorString _ | Wrapped _ _ _ | DuplicateKeyError _ => false
  end.

(** The error that a branch of an update surfaces for the answer of the
    store: none when the call completed or when the answer is the failure
    of the precondition on an item that does not exist, and the answer
    wrapped with the name of the item for every other failure. *)
Definition surfaced (response : option error) (msg itemName : string) : option error :=
  match response with
  | Some err =>
      if isSDKError "AttributeDoesNotExist" err then None
      else Some (Wrapped err msg [("itemName", itemName)])
  | None => None
  end.

(** The call completed: its precondition was satisfied. *)
Definition completed (response : option error) : bool :=
  match response with
  | None => true
  | Some _ => false
  end.

(** The existence precondition of a plain update. *)
Definition mustExist : UpdateCondition :=
  mkUpdateCondition (Some true) (Some "sql:id") (Some "string").

(** The precondition of an insert. *)
Definition mustNotExist : UpdateCondition :=
  mkUpdateCondition (Some false) (Some "sql:id") None.

Definition withPutExpected (e : option UpdateCondition) (i : PutAttributesInput) :=
  mkPutAttributesInput (PutDomainName i) (PutItemName i) (PutAttributes i) e.
Definition withDelExpected (e : option UpdateCondition) (i : DeleteAttributesInput) :=
  mkDeleteAttributesInput (DelDomainName i) (DelItemName i) (DelAttributes i) e.

(** The string of an argument of kind string. *)
Definition stringArg (v : Value) : option string :=
  match v with
  | VString s => Some s
  | VNamed _ s => Some s
  | _ => None
  end.

(** The replay of a tail, in the words of the spec: lexeme by lexeme, a
    placeholder takes the next argument, which must be a string, and is
    written as a quoted literal; the lexemes [id] and [`id`] are written
    as [itemName()]; every other lexeme is written as it is. *)
Fixpoint replaySpec (args : list Value) (lexemes : list string)
  : outcome (list string) :=
  match lexemes with
  | [] => Return []
  | l :: rest =>
      if (String.eqb l "id" || String.eqb l "`id`")%bool
      then obind (replaySpec args rest) (fun out => Return ("itemName()" :: out))
      else if String.eqb l "?" then
        match args with
        | [] => Error (ErrorString "not enough args for select query")
        | v :: args' =>
            match stringArg v with
            | Some s =>
                obind (replaySpec args' rest) (fun out => Return (quoteString s :: out))
            | None => Error (ErrorString "all args to a select query must be strings")
            end
        end
      else obind (replaySpec args rest) (fun out => Return (l :: out))
  end.

(** The text before the tail of a select expression. *)
Definition selectHead (c : conn) (q : SelectQuery) : string :=
  "select " ++ Join (selectColumnNames q) ", " ++ " from "
  ++ quoteIdentifier (getDomainName c (SelTableName q)) ++ " ".

(** The attributes of an item that holds what a put request wrote.  The
    store holds no attribute whose value is empty ([newPutDeleteInputs]:
    cannot store an empty string), so the item has none. *)
Definition stored (puts : list ReplaceableAttribute) : list Attribute :=
  map (fun a => mkAttribute (Some (RName a)) (Some (RValue a)))
    (List.filter (fun a => negb (String.eqb (RValue a) "")) puts).




(** The text of the pieces of a replay. *)
Definition pieces (out : list string) : string := fold_right String.append "" out.

End Defs.

(** The ordinals of the placeholders among value sources. *)
Definition ordinalsOf (srcs : list (Z * option string)) : list Z :=
  flat_map (fun src => match snd src with None => [fst src] | Some _ => [] end) srcs.


(** A store that accepts every request and holds nothing. *)
Definition emptyStore : SimpleDBAPI :=
  mkAPI (fun _ => None) (fun _ => None) (fun _ => None) (fun _ => None)
        (fun _ => inr []) (fun _ => inr (mkSelectOutput [] None)).

(** A store that holds no item: every conditional write that expects the
    item fails with [AttributeDoesNotExist]. *)
Definition noItemStore : SimpleDBAPI :=
  mkAPI (fun _ => None) (fun _ => None)
        (fun i => match PutExpected i with
                  | Some _ => Some (AWSError attributeDoesNotExist "no item")
                  | None => None end)
        (fun i => match DelExpected i with
                  | Some _ => Some (AWSError attributeDoesNotExist "no item")
                  | None => None end)
        (fun _ => inr []) (fun _ => inr (mkSelectOutput [] None)).

(** A store in which every item exists already. *)
Definition fullStore : SimpleDBAPI :=
  mkAPI (fun _ => None) (fun _ => None)
        (fun i => match PutExpected i with
                  | Some (mkUpdateCondition (Some false) _ _) =>
                      Some (AWSError conditionalCheckFailed "item exists")
                  | _ => None end)
        (fun _ => None)
        (fun _ => inr []) (fun _ => inr (mkSelectOutput [] None)).

(** A store that is out of service: every write fails. *)
Definition downStore : SimpleDBAPI :=
  mkAPI (fun _ => None) (fun _ => None)
        (fun _ => Some (AWSError "ServiceUnavailable" "out of service"))
        (fun _ => Some (AWSError "ServiceUnavailable" "out of service"))
        (fun _ => inr []) (fun _ => inr (mkSelectOutput [] None)).

(** A codec to run examples with: floats and times that are whole numbers,
    written in decimal, and bytes written as the characters they are. *)
Definition exampleCodec : Codec :=
  {| float64 := Z; float64_zero := 0%Z;
     FormatFloat := FormatInt; ParseFloat := fun s => fst (ParseInt s);
     Time := Z; FormatRFC3339 := FormatInt; ParseRFC3339 := fun s => fst (ParseInt s);
     EncodeToString := string_of_list_byte; DecodeString := list_byte_of_string |}.

Definition noSchema : conn := mkConn "" ∅.

(** *** The library on times in UTC and on base64

    The functions of the Go library that the driver calls, for the
    examples that depend on what the library writes: [time.Time.Format]
    and [time.Parse] with the layout [time.RFC3339], on times in UTC of
    the years 0 to 9999, and [base64.StdEncoding]. *)



















End exec_defs.

(** ** The parser in the middle of a statement *)

Module claim_defs.
Import gostr lex parse.
Section Defs.
Context `{Quoting}.

(** The parser of a select statement when it reaches the tail, after the
    from clause. *)
Definition tailState (text : string) : option parser :=
  match (next ;; newSelect ;; next ;; parseSelectColumnList ;; parseSelectFromClause)
          (newParser text) with
  | Ok _ p => Some p
  | Fail _ => None
  end.

(** The parser of an insert statement when it reaches the value list. *)
Definition valuesState (text : string) : option parser :=
  match (next ;; newInsert ;; next ;; next ;; expect [TokenIdent] ;;
         onInsert (fun p q => mkInsertQuery (Unquote (ptext p)) (InsColumns q) (InsKey q)) ;;
         next ;; expectText "(" ;; next ;; parseInsertColumnList ;;
         expectText ")" ;; next ;; expectText "values" ;; next ;; expectText "(" ;;
         next) (newParser text) with
  | Ok _ p => Some p
  | Fail _ => None
  end.

End Defs.
End claim_defs.

(** ** The token that selects the statement *)

Module shape_defs.
Import gostr lex parse.

(** The text of the token on which [parse] dispatches: the first token of
    the statement that is neither white space nor a comment. *)
Definition dispatchText (text : string) : string :=
  match next (newParser text) with
  | Ok _ p => ptext p
  | Fail _ => ""
  end.

(** The select statement with other columns and another table. *)
Definition withColumns (sq : SelectQuery) (cols : list string) (table : string)
  : SelectQuery :=
  mkSelectQuery (ConsistentRead sq) cols table (WhereClause sq) (SelKey sq).

End shape_defs.

(** ** Cursors: the places of a row, the pages of a select and the rows that a caller reads *)

Module cursor_defs.
Import gostr lex parse driver sdb sdbrows.

(** Every place that the map of a cursor names is a place of a row of
    [n] values. *)
Definition bounded (cm : columnMap) (n : nat) : Prop :=
  forall k idx, colmap cm !! k = Some idx -> idx < n.

(** No attribute of the list is the value or the type tag of a column that
    the map sends to place [i]. *)
Definition untouched (cm : columnMap) (attrs : list Attribute) (i : nat) : Prop :=
  forall attr, In attr attrs ->
    colmap cm !! derefString (AName attr) <> Some i /\
    (HasPrefix (derefString (AName attr)) "sql:" = true ->
     colmap cm !! TrimPrefix (derefString (AName attr)) "sql:" <> Some i).

(** The item has no attribute for the column: neither its value nor its
    type tag. *)
Definition lacks (item : Item) (name : string) : Prop :=
  forall attr, In attr (IAttributes item) ->
    derefString (AName attr) <> name /\
    derefString (AName attr) <> typeColumnName name.

(** The pages that the store serves to a cursor whose request is [input]:
    none when the request has no next token; otherwise the answer to the
    request, and the pages served to the request with the next token of
    the answer.  The last component lists the requests. *)
Inductive pages (api : SimpleDBAPI)
  : SelectInput -> list (list Item) -> list request -> Prop :=
| pages_end input :
    NextToken input = None -> pages api input [] []
| pages_next input tok output ps reqs :
    NextToken input = Some tok ->
    SelectWithContext api input = inr output ->
    pages api (mkSelectInput (SelConsistentRead input) (SelectExpression input)
                 (OutNextToken output)) ps reqs ->
    pages api input (Items output :: ps) (ReqSelect input :: reqs).

Section Drain.
Context `{Codec}.

(** The rows that a caller reads from a cursor, as [database/sql] does:
    [Next] is called on the same destination until it does not return a
    row, [calls] times at most; the result has the requests sent, the rows
    read and how the last call ended. *)
Fixpoint drain (calls fuel : nat) (rows : selectQueryRows.t) (dest : list Value)
  : list request * list (list Value) * option (outcome (list Value)) :=
  match calls with
  | O => ([], [], None)
  | S calls' =>
      let '(reqs, rows', res) := selectQueryRows.Next fuel rows dest in
      match res with
      | Some (Return row) =>
          let '(reqs', out, fin) := drain calls' fuel rows' row in
          (reqs ++ reqs', row :: out, fin)
      | _ => (reqs, [], res)
      end
  end.

(** The row that a cursor over [cols] gives for an item. *)
Definition rowOf `{Quoting} (cols : list string) (item : Item) (row : list Value) : Prop :=
  setValues (setColumns cols) item (replicate (length cols) VNil) = Return row.

End Drain.

(** An item for examples, with the marker and a string in the column a. *)
Definition exampleItem (name value : string) : Item :=
  mkItem (Some name)
    [mkAttribute (Some "sql:id") (Some "string");
     mkAttribute (Some "a") (Some value);
     mkAttribute (Some "sql:a") (Some "string")].

(** A store for examples: it has the attributes of [exampleItem] for every
    item name, and serves a select in three pages, of which the second is
    empty. *)
Definition pagedStore : SimpleDBAPI :=
  mkAPI (fun _ => None) (fun _ => None) (fun _ => None) (fun _ => None)
        (fun i => inr (IAttributes (exampleItem (GetItemName i) "x")))
        (fun i => match NextToken i with
                  | None => inr (mkSelectOutput [exampleItem "k1" "x"] (Some "p2"))
                  | Some tok =>
                      if String.eqb tok "p2" then inr (mkSelectOutput [] (Some "p3"))
                      else inr (mkSelectOutput [exampleItem "k2" "y"; exampleItem "k3" "z"]
                                  None)
                  end).

End cursor_defs.

(** ** The text that the tokens of the scanner spell *)

Module scan_defs.
Import gostr lex.
#[local] Open Scope string_scope.

(** The text has no NUL rune, which the scanner reads as the end of the
    input. *)
Definition noNUL (text : string) : Prop := ContainsRune text eof = false.

(** The text of a token as the scanner returns it: a keyword in lower case,
    any other token as it stands in the input. *)
Definition spelled (tok : Token) (text : string) : string :=
  if bool_decide (tok = TokenKeyword) then ToLower text else text.

(** What a call of [Scan] on the input [input] has taken from it: the
    text of the token, which stands in front of the input that is left. *)
Definition takes (input : string) (s' : Scanner) : Prop :=
  exists text,
    input = text ++ r s' /\
    lexeme s' = spelled (token s') text /\
    text <> "" /\
    noNUL (r s').

(** The texts of a list of tokens, one after the other. *)
Definition spelling (toks : list (Token * string)) : string :=
  fold_right String.append "" (map snd toks).

(** The tokens other than white space. *)
Definition withoutWhiteSpace (toks : list (Token * string)) : list (Token * string) :=
  List.filter (fun t => negb (bool_decide (fst t = TokenWhiteSpace))) toks.

End scan_defs.

(** ** Calls that do not panic and the columns that an update clears *)

Module run_defs.
Import gostr lex parse driver sdb sdbrows.

Section Defs.
Context `{Codec}.

(** The value clears its column: it is nil or the empty string. *)
Definition cleared (v : Value) : bool :=
  match v with
  | VNil => true
  | VString s => String.eqb s ""
  | _ => false
  end.

(** The columns of a statement that their values clear. *)
Definition clearedColumns (columns : list Column) (values : list Value) : list Column :=
  map fst (List.filter (fun cv => cleared (snd cv)) (combine columns values)).

(** The call does not panic. *)
Definition noPanic {A} (o : outcome A) : Prop :=
  match o with
  | Panic _ => False
  | _ => True
  end.

End Defs.
End run_defs.

(** * Theorems *)

(** ** The scanner *)

Module lex_facts.
Import gostr lex lex_defs.
#[local] Open Scope string_scope.

Lemma setToken_r tok text rest s : r (snd (setToken tok text rest s)) = rest.
Proof. unfold setToken. case_bool_decide; reflexivity. Qed.

Lemma setToken_token tok text rest s : token (snd (setToken tok text rest s)) = tok.
Proof. unfold setToken. case_bool_decide; reflexivity. Qed.

Lemma setToken_lexeme tok text rest s : lexeme (snd (setToken tok text rest s)) = text.
Proof. unfold setToken. case_bool_decide; reflexivity. Qed.

Lemma setToken_ignore tok text rest s :
  IgnoreWhiteSpace (snd (setToken tok text rest s)) = IgnoreWhiteSpace s.
Proof. unfold setToken. case_bool_decide; reflexivity. Qed.

Lemma unread_length ch before after n :
  String.length before <= n -> String.length after <= n ->
  String.length (unread ch before after) <= n.
Proof. unfold unread. destruct (Ascii.eqb ch eof); auto. Qed.

Lemma scanWhitespaceLoop_length input : forall buf,
  String.length (snd (scanWhitespaceLoop buf input)) <= String.length input.
Proof.
  induction input as [|ch rest IH]; intros buf; simpl; [lia|].
  destruct (Ascii.eqb ch eof); simpl; [lia|].
  destruct (negb (isWhitespace ch)); simpl; [lia|].
  specialize (IH (buf ++ String ch "")). lia.
Qed.

Lemma scanCommentLoop_length input : forall buf,
  String.length (snd (scanCommentLoop buf input)) <= String.length input.
Proof.
  induction input as [|ch rest IH]; intros buf; simpl; [lia|].
  destruct (Ascii.eqb ch eof); simpl; [lia|].
  destruct (Ascii.eqb ch _); simpl; [lia|].
  specialize (IH (buf ++ String ch "")). lia.
Qed.

Lemma scanIdentifierLoop_length input : forall buf,
  String.length (snd (scanIdentifierLoop buf input)) <= String.length input.
Proof.
  induction input as [|ch rest IH]; intros buf; simpl; [lia|].
  destruct (Ascii.eqb ch eof); simpl; [lia|].
  destruct (negb (isIdent ch)); simpl; [lia|].
  specialize (IH (buf ++ String ch "")). lia.
Qed.

Lemma scanNumberLoop_length input : forall dot buf,
  String.length (snd (scanNumberLoop dot buf input)) <= String.length input.
Proof.
  induction input as [|ch rest IH]; intros dot buf; simpl; [lia|].
  destruct (Ascii.eqb ch eof); simpl; [lia|].
  destruct (isDigit ch || negb dot && Ascii.eqb ch ".")%bool; simpl; [|lia].
  specialize (IH (dot || Ascii.eqb ch ".")%bool (buf ++ String ch "")). lia.
Qed.

Lemma scanDelimitedLoop_length endCh : forall n input buf,
  String.length input <= n ->
  String.length (snd (scanDelimitedLoop endCh buf input)) <= String.length input.
Proof.
  induction n as [|n IH]; intros input buf Hn.
  - destruct input; simpl in *; lia.
  - destruct input as [|ch rest]; simpl in *; [lia|].
    destruct (Ascii.eqb ch eof); simpl; [lia|].
    destruct (Ascii.eqb ch endCh).
    + destruct rest as [|ch2 rest2]; simpl; [lia|].
      destruct (negb (Ascii.eqb ch2 endCh)); simpl.
      * pose proof (unread_length ch2 (String ch2 rest2) rest2 (S (String.length rest2))).
        simpl in *. lia.
      * simpl in Hn. specialize (IH rest2 ((buf ++ String ch "") ++ String ch2 "")). lia.
    + specialize (IH rest (buf ++ String ch "")). lia.
Qed.

Lemma scanQuoteLoop_length endCh : forall n input buf,
  String.length input <= n ->
  String.length (snd (scanQuoteLoop endCh buf input)) <= String.length input.
Proof.
  induction n as [|n IH]; intros input buf Hn.
  - destruct input; simpl in *; lia.
  - destruct input as [|ch rest]; simpl in *; [lia|].
    destruct (Ascii.eqb ch eof); simpl; [lia|].
    destruct (Ascii.eqb ch endCh).
    + destruct rest as [|ch2 rest2]; simpl; [lia|].
      destruct (Ascii.eqb ch2 endCh); simpl.
      * simpl in Hn. specialize (IH rest2 ((buf ++ String ch "") ++ String ch2 "")). lia.
      * pose proof (unread_length ch2 (String ch2 rest2) rest2 (S (String.length rest2))).
        simpl in *. lia.
    + specialize (IH rest (buf ++ String ch "")). lia.
Qed.

Lemma skipWhitespace_length input :
  String.length (snd (skipWhitespace input)) <= pred (String.length input).
Proof.
  induction input as [|ch rest IH]; simpl; [lia|].
  destruct (isWhitespace ch); simpl; lia.
Qed.

Lemma skipWhitespace_empty input :
  fst (skipWhitespace input) = eof \/ input <> "".
Proof. destruct input; [left; reflexivity | right; discriminate]. Qed.

Lemma read_length input ch rest :
  read input = (ch, rest) -> String.length rest <= String.length input.
Proof. destruct input; simpl; intros E; inversion E; subst; simpl; lia. Qed.

Lemma setToken_scanned tok text rest s toks n :
  In tok toks -> String.length rest <= n ->
  scanned toks n s (snd (setToken tok text rest s)).
Proof.
  intros Hin Hn. unfold scanned.
  rewrite setToken_ignore, setToken_r, setToken_token. auto.
Qed.

Lemma setToken_scanned1 tok text rest s n :
  String.length rest <= n -> scanned [tok] n s (snd (setToken tok text rest s)).
Proof. intros. apply setToken_scanned; simpl; auto. Qed.

Lemma scanWhitespace_scanned input s :
  scanned [TokenWhiteSpace] (pred (String.length input)) s (snd (scanWhitespace input s)).
Proof.
  unfold scanWhitespace. destruct input as [|ch rest].
  - unfold scanned; simpl; auto.
  - cbn [read Nat.pred String.length].
    destruct (scanWhitespaceLoop (String ch "") rest) as [buf rest'] eqn:E.
    apply setToken_scanned; [simpl; auto|].
    pose proof (scanWhitespaceLoop_length rest (String ch "")) as Hl.
    rewrite E in Hl. exact Hl.
Qed.

Lemma scanComment_scanned prefix input s :
  scanned [TokenComment] (String.length input) s (snd (scanComment prefix input s)).
Proof.
  unfold scanComment.
  destruct (scanCommentLoop prefix input) as [buf rest] eqn:E.
  apply setToken_scanned; [simpl; auto|].
  pose proof (scanCommentLoop_length input prefix) as Hl. rewrite E in Hl. exact Hl.
Qed.

Lemma scanDelimitedIdentifier_scanned startCh endCh input s :
  scanned [TokenIllegal; TokenIdent] (String.length input) s
    (snd (scanDelimitedIdentifier startCh endCh input s)).
Proof.
  unfold scanDelimitedIdentifier.
  pose proof (scanDelimitedLoop_length endCh _ input (String startCh "") (le_n _)) as Hl.
  destruct (scanDelimitedLoop endCh (String startCh "") input) as [[[u|] buf] rest];
    apply setToken_scanned; simpl in *; auto.
Qed.

Lemma scanQuote_scanned startChs endCh input s :
  scanned [TokenIllegal; TokenLiteral] (String.length input) s
    (snd (scanQuote startChs endCh input s)).
Proof.
  unfold scanQuote.
  pose proof (scanQuoteLoop_length endCh _ input startChs (le_n _)) as Hl.
  destruct (scanQuoteLoop endCh startChs input) as [[[u|] buf] rest];
    apply setToken_scanned; simpl in *; auto.
Qed.

Lemma scanIdentifier_scanned startCh input s :
  scanned [TokenKeyword; TokenIdent] (String.length input) s
    (snd (scanIdentifier startCh input s)).
Proof.
  unfold scanIdentifier.
  pose proof (scanIdentifierLoop_length input (String startCh "")) as Hl.
  destruct (scanIdentifierLoop (String startCh "") input) as [lx rest].
  destruct (isKeyword lx); apply setToken_scanned; simpl in *; auto.
Qed.

Lemma scanNumber_scanned startCh input s :
  scanned [TokenLiteral] (String.length input) s (snd (scanNumber startCh input s)).
Proof.
  unfold scanNumber.
  pose proof (scanNumberLoop_length input (Ascii.eqb startCh ".") (String startCh "")) as Hl.
  destruct (scanNumberLoop _ _ input) as [buf rest].
  apply setToken_scanned; simpl in *; auto.
Qed.

Lemma scanned_weaken toks toks' n n' s s' :
  scanned toks n s s' -> incl toks toks' -> n <= n' -> scanned toks' n' s s'.
Proof. intros (H1 & H2 & H3) Hi Hn. unfold scanned. repeat split; auto. lia. Qed.

(** Close a case of [Scan] from the fact about the scanning function that
    the case calls. *)
Ltac scan_fin Hgen :=
  eapply Hgen;
  [ first [ apply setToken_scanned1
          | eapply scanned_weaken;
            [ first [ apply scanComment_scanned
                    | apply scanDelimitedIdentifier_scanned | apply scanQuote_scanned
                    | apply scanIdentifier_scanned | apply scanNumber_scanned ]
            | apply incl_refl | ] ]
  | simpl; intuition discriminate | simpl; intuition discriminate
  | simpl; intuition discriminate | assumption ].

(** The facts about [Scan] that the parser relies on. *)
Lemma Scan_spec s :
  let s' := snd (Scan s) in
  IgnoreWhiteSpace s' = IgnoreWhiteSpace s /\
  String.length (r s') <= pred (String.length (r s)) /\
  (r s = "" -> token s' = TokenEOF) /\
  (token s' = TokenPlaceholder -> lexeme s' = "?") /\
  (IgnoreWhiteSpace s = true -> token s' <> TokenWhiteSpace) /\
  (token s' = TokenEOF -> lexeme s' = "").
Proof.
  unfold Scan.
  set (first := if IgnoreWhiteSpace s then skipWhitespace (r s) else read (r s)).
  assert (Hfirst : String.length (snd first) <= pred (String.length (r s)) /\
                   (r s = "" -> fst first = eof) /\
                   (IgnoreWhiteSpace s = true -> isWhitespace (fst first) = false)).
  { subst first. destruct (IgnoreWhiteSpace s).
    - split; [apply skipWhitespace_length|]. split.
      + intros ->. reflexivity.
      + intros _. induction (r s) as [|c t IH]; simpl; [reflexivity|].
        destruct (isWhitespace c) eqn:E; simpl; auto.
    - destruct (r s); simpl; repeat split; auto; discriminate. }
  destruct first as [ch rest]. simpl in Hfirst. destruct Hfirst as (Hlen & Hemp & Hws).
  assert (Hgen : forall toks s', scanned toks (String.length rest) s s' ->
             ~ In TokenPlaceholder toks -> ~ In TokenWhiteSpace toks ->
             ~ In TokenEOF toks ->
             ch <> eof ->
             IgnoreWhiteSpace s' = IgnoreWhiteSpace s /\
             String.length (r s') <= pred (String.length (r s)) /\
             (r s = "" -> token s' = TokenEOF) /\
             (token s' = TokenPlaceholder -> lexeme s' = "?") /\
             (IgnoreWhiteSpace s = true -> token s' <> TokenWhiteSpace) /\
             (token s' = TokenEOF -> lexeme s' = "")).
  { intros toks s' (Hi & Hr & Ht) Hp Hw He Hch. repeat split; auto.
    - lia.
    - intros E. elim Hch. auto.
    - intros E. rewrite E in Ht. contradiction.
    - intros _ E. rewrite E in Ht. contradiction.
    - intros E. rewrite E in Ht. contradiction. }
  destruct (Ascii.eqb ch eof) eqn:Eeof.
  { rewrite setToken_ignore, setToken_r, setToken_token, setToken_lexeme.
    repeat split; auto; discriminate. }
  assert (Hch : ch <> eof) by (intros ->; rewrite Ascii.eqb_refl in Eeof; discriminate).
  destruct (isWhitespace ch) eqn:Ews.
  { pose proof (scanWhitespace_scanned (unread ch (r s) rest) s) as (Hi & Hr & Ht).
    unfold unread in *. rewrite Eeof in *.
    simpl in Ht. destruct Ht as [Ht|[]].
    repeat split; auto.
    - intros E. elim Hch; auto.
    - rewrite <- Ht. discriminate.
    - intros E. specialize (Hws E). discriminate Hws.
    - rewrite <- Ht. discriminate. }
  assert (Hun : forall ch2 rest2, String.length rest2 <= String.length rest ->
            String.length (unread ch2 rest rest2) <= String.length rest).
  { intros. apply unread_length; auto. }
  repeat match goal with
  | |- context [read rest] =>
      let ch2 := fresh "ch2" in let rest2 := fresh "rest2" in let E := fresh "E" in
      destruct (read rest) as [ch2 rest2] eqn:E; apply read_length in E
  | |- context [if ?b then _ else _] => destruct b eqn:?
  end;
  try (scan_fin Hgen; auto; try lia; try (apply Hun; lia)).
  (* the placeholder *)
  unfold scanPlaceholder.
  rewrite setToken_ignore, setToken_r, setToken_token, setToken_lexeme.
  split; [reflexivity|]. split; [assumption|].
  split; [intros E'; elim Hch; auto|].
  split; [|split; discriminate].
  intros _.
  match goal with H : Ascii.eqb ch "?" = true |- _ => apply Ascii.eqb_eq in H; subst ch end.
  reflexivity.
Qed.

End lex_facts.

(** ** The function next of the parser *)

Module parse_facts.
Import gostr lex parse parse_defs lex_facts lex_defs.

Lemma scan_fields p :
  query (scan p) = query p /\ placeholderIndex (scan p) = placeholderIndex p /\
  lexemes (scan p) = lexemes p /\
  IgnoreWhiteSpace (lexer (scan p)) = IgnoreWhiteSpace (lexer p) /\
  remaining (scan p) <= pred (remaining p) /\
  (remaining p = 0 -> ptoken (scan p) = TokenEOF) /\
  wf (scan p) /\
  (IgnoreWhiteSpace (lexer p) = true -> ptoken (scan p) <> TokenWhiteSpace).
Proof.
  unfold scan, remaining, wf, ptoken, ptext. simpl.
  destruct (Scan_spec (lexer p)) as (H1 & H2 & H3 & H4 & H5 & H6).
  repeat split; auto.
  intros E. apply H3. destruct (r (lexer p)); [reflexivity|discriminate].
Qed.

Lemma tailLexemes_app toks1 : forall acc toks2,
  tailLexemes acc (toks1 ++ toks2)%list = tailLexemes (tailLexemes acc toks1) toks2.
Proof.
  induction toks1 as [|[tok text] toks1 IH]; intros acc toks2; simpl; [reflexivity|].
  repeat case_bool_decide; apply IH.
Qed.

Lemma fuelOK_scan fuel p :
  2 + remaining p <= S fuel -> fuelOK fuel (scan p).
Proof.
  intros Hf. destruct (scan_fields p) as (_ & _ & _ & _ & Hr & He & _ & _).
  destruct (remaining p) eqn:E.
  - left. split; [|lia]. unfold settled. rewrite (He eq_refl). split; discriminate.
  - right. simpl in Hr. lia.
Qed.

(** The loop of [next] stops, on a token that is neither white space nor a
    comment; the tokens it passes are white space and comments. *)
Lemma nextLoop_spec fuel : forall p toks,
  fuelOK fuel p -> Tokens (lexer p) toks ->
  exists p' skipped rest,
    nextLoop fuel p = Ok (negb (bool_decide (ptoken p' = TokenEOF))) p' /\
    toks = (skipped ++ rest)%list /\ forallb blank skipped = true /\
    Tokens (lexer p') rest /\ settled p' /\
    lexemes p' = tailLexemes (lexemes p) skipped /\
    query p' = query p /\ placeholderIndex p' = placeholderIndex p /\
    remaining p' <= remaining p /\
    IgnoreWhiteSpace (lexer p') = IgnoreWhiteSpace (lexer p) /\
    (wf p -> wf p').
Proof.
  induction fuel as [|fuel IH]; intros p toks Hf Ht.
  - destruct Hf as [[_ Hf]|Hf]; lia.
  - simpl. case_bool_decide as Hc.
    + (* a comment *)
      assert (Hf' : fuelOK fuel (scan p)).
      { apply fuelOK_scan. destruct Hf as [[[_ Hs] _]|Hf]; [contradiction|exact Hf]. }
      inversion Ht as [s He|s toks' Hne Ht']; subst.
      { unfold ptoken in Hc. rewrite Hc in He. discriminate. }
      destruct (IH (scan p) toks' Hf' Ht') as (p' & sk & rest & E & -> & Hb & Hr & Hs & Hl & Hq & Hp & Hrem & Hi & Hw).
      destruct (scan_fields p) as (Q1 & Q2 & Q3 & Q4 & Q5 & _ & Q7 & _).
      exists p', ((token (lexer p), lexeme (lexer p)) :: sk), rest.
      split; [exact E|]. split; [reflexivity|].
      split. { simpl. unfold blank at 1. simpl. unfold ptoken in Hc. rewrite Hc. simpl. exact Hb. }
      split; [exact Hr|]. split; [exact Hs|].
      split. { rewrite Hl, Q3. simpl. unfold ptoken in Hc. rewrite Hc. reflexivity. }
      split; [congruence|]. split; [congruence|].
      split; [lia|]. split; [congruence|]. auto.
    + case_bool_decide as Hw.
      * (* white space *)
        set (p1 := match last (lexemes p) with
                   | Some l => if negb (String.eqb l " ")
                               then setLexemes (lexemes p ++ [" "]) p else p
                   | None => p end).
        assert (Hp1 : lexer p1 = lexer p /\ query p1 = query p /\
                      placeholderIndex p1 = placeholderIndex p /\
                      lexemes p1 = match last (lexemes p) with
                        | Some l => if negb (String.eqb l " ") then lexemes p ++ [" "] else lexemes p
                        | None => lexemes p end).
        { subst p1. destruct (last (lexemes p)) as [l|]; [destruct (negb (String.eqb l " "))|]; auto. }
        destruct Hp1 as (L1 & L2 & L3 & L4).
        assert (Hrem1 : remaining p1 = remaining p) by (unfold remaining; rewrite L1; reflexivity).
        assert (Hf' : fuelOK fuel (scan p1)).
        { apply fuelOK_scan. rewrite Hrem1.
          destruct Hf as [[[Hs _] _]|Hf]; [contradiction|exact Hf]. }
        inversion Ht as [s He|s toks' Hne Ht']; subst.
        { unfold ptoken in Hw. rewrite Hw in He. discriminate. }
        assert (Ht1 : Tokens (lexer (scan p1)) toks').
        { unfold scan. simpl. rewrite L1. exact Ht'. }
        destruct (IH (scan p1) toks' Hf' Ht1) as (p' & sk & rest & E & -> & Hb & Hr & Hs & Hl & Hq & Hp & Hrem & Hi & Hwf).
        destruct (scan_fields p1) as (Q1 & Q2 & Q3 & Q4 & Q5 & _ & Q7 & _).
        exists p', ((token (lexer p), lexeme (lexer p)) :: sk), rest.
        split; [exact E|]. split; [reflexivity|].
        split. { simpl. unfold blank at 1. simpl. unfold ptoken in Hw. rewrite Hw. simpl.
                 exact Hb. }
        split; [exact Hr|]. split; [exact Hs|].
        split. { rewrite Hl, Q3, L4. simpl. unfold ptoken in Hw, Hc.
                 rewrite Hw. simpl. reflexivity. }
        split; [congruence|]. split; [congruence|].
        split; [lia|]. split; [rewrite Hi, Q4, L1; reflexivity|]. auto.
      * exists p, [], toks. repeat split; auto; apply H.
Qed.

Lemma Tokens_total n : forall s, String.length (r s) <= n -> exists toks, Tokens s toks.
Proof.
  induction n as [|n IH]; intros s Hn.
  - destruct (decide (token s = TokenEOF)) as [E|E].
    + exists []. constructor. exact E.
    + destruct (Scan_spec s) as (_ & _ & H3 & _).
      exists [(token s, lexeme s)]. constructor; [exact E|].
      constructor. apply H3. destruct (r s); [reflexivity|simpl in Hn; lia].
  - destruct (decide (token s = TokenEOF)) as [E|E].
    + exists []. constructor. exact E.
    + destruct (Scan_spec s) as (_ & H2 & _).
      destruct (IH (snd (Scan s))) as [toks Ht]; [lia|].
      exists ((token s, lexeme s) :: toks). constructor; assumption.
Qed.

Lemma Tokens_det s toks : Tokens s toks -> forall toks', Tokens s toks' -> toks = toks'.
Proof.
  induction 1 as [s E|s toks Hne Ht IH]; intros toks' Ht'.
  - inversion Ht'; [reflexivity|contradiction].
  - inversion Ht' as [|s' toks'' Hne' Ht'']; subst; [contradiction|].
    f_equal. apply IH. exact Ht''.
Qed.

Lemma tokensFuel_Tokens fuel : forall s,
  2 + String.length (r s) <= fuel \/ (token s = TokenEOF /\ 1 <= fuel) ->
  Tokens s (tokensFuel fuel s).
Proof.
  induction fuel as [|fuel IH]; intros s Hf; [destruct Hf as [Hf|[_ Hf]]; lia|].
  simpl. case_bool_decide as E; [constructor; exact E|].
  constructor; [exact E|]. apply IH.
  destruct Hf as [Hf|[Hf _]]; [|contradiction].
  destruct (Scan_spec s) as (_ & H2 & H3 & _).
  destruct (r s) eqn:Er.
  - right. split; [apply H3; reflexivity|simpl in Hf; lia].
  - left. simpl in *. lia.
Qed.

Lemma tailTokens_Tokens s : Tokens s (tailTokens s).
Proof. apply tokensFuel_Tokens. left. lia. Qed.

Lemma Tokens_noWS s toks :
  Tokens s toks -> IgnoreWhiteSpace s = true -> token s <> TokenWhiteSpace ->
  Forall (fun t => fst t <> TokenWhiteSpace) toks.
Proof.
  induction 1 as [s E|s toks Hne Ht IH]; intros Hi Hw; constructor; [exact Hw|].
  destruct (Scan_spec s) as (H1 & _ & _ & _ & H5 & _).
  apply IH; [congruence|auto].
Qed.

Lemma tailLexemes_comments toks : forall acc,
  forallb blank toks = true -> Forall (fun t => fst t <> TokenWhiteSpace) toks ->
  tailLexemes acc toks = acc.
Proof.
  induction toks as [|[tok text] toks IH]; intros acc Hb Hw; simpl; [reflexivity|].
  simpl in Hb. apply andb_true_iff in Hb as [Hb1 Hb2].
  inversion Hw as [|? ? Hw1 Hw2]; subst. simpl in Hw1.
  unfold blank in Hb1. simpl in Hb1.
  destruct (bool_decide (tok = TokenComment)) eqn:Hc; [apply IH; assumption|].
  destruct (bool_decide (tok = TokenWhiteSpace)) eqn:Hs; [|discriminate].
  apply bool_decide_eq_true in Hs. contradiction.
Qed.

(** [next] always returns. *)
Lemma next_spec p :
  exists p',
    next p = Ok (negb (bool_decide (ptoken p' = TokenEOF))) p' /\
    settled p' /\ wf p' /\
    query p' = query p /\
    placeholderIndex p' =
      (if bool_decide (ptoken p = TokenPlaceholder)
       then placeholderIndex p + 1 else placeholderIndex p)%Z /\
    remaining p' <= pred (remaining p) /\
    IgnoreWhiteSpace (lexer p') = IgnoreWhiteSpace (lexer p) /\
    (IgnoreWhiteSpace (lexer p) = true -> lexemes p' = lexemes p).
Proof.
  unfold next, withFuel.
  set (p1 := if bool_decide (ptoken p = TokenPlaceholder)
             then setPlaceholderIndex (placeholderIndex p + 1) p else p).
  assert (Hp1 : lexer p1 = lexer p /\ query p1 = query p /\ lexemes p1 = lexemes p /\
                placeholderIndex p1 =
                  (if bool_decide (ptoken p = TokenPlaceholder)
                   then placeholderIndex p + 1 else placeholderIndex p)%Z).
  { subst p1. case_bool_decide; auto. }
  destruct Hp1 as (L1 & L2 & L3 & L4).
  destruct (scan_fields p1) as (Q1 & Q2 & Q3 & Q4 & Q5 & Q6 & Q7 & Q8).
  destruct (Tokens_total _ (lexer (scan p1)) (le_n _)) as [toks Ht].
  destruct (nextLoop_spec (2 + remaining (scan p1)) (scan p1) toks) as
    (p' & sk & rest & E & -> & Hb & Hr & Hs & Hl & Hq & Hp & Hrem & Hi & Hw);
    [right; lia|exact Ht|].
  exists p'. split; [exact E|]. split; [exact Hs|]. split; [auto|].
  split; [congruence|]. split; [congruence|].
  split. { unfold remaining in *. rewrite L1 in Q5. lia. }
  split; [congruence|].
  intros Hig. rewrite Hl, Q3, L3. apply tailLexemes_comments; [exact Hb|].
  assert (Hall : Forall (fun t => fst t <> TokenWhiteSpace) (sk ++ rest)).
  { eapply Tokens_noWS; [exact Ht| |].
    - rewrite Q4, L1. exact Hig.
    - apply Q8. rewrite L1. exact Hig. }
  apply Forall_app in Hall. tauto.
Qed.

End parse_facts.

(** ** Inversion of the parser functions: update and the column list of insert *)

Module parse_inv.
Import gostr lex parse parse_defs lex_facts parse_facts lex_defs.

Lemma bind_inv {A B} (m : M A) (k : A -> M B) p b p' :
  bind m k p = Ok b p' -> exists a p1, m p = Ok a p1 /\ k a p1 = Ok b p'.
Proof. unfold bind. destruct (m p) as [a p1|f]; [eauto|discriminate]. Qed.

Lemma ret_inv {A} (a b : A) p p' : ret a p = Ok b p' -> b = a /\ p' = p.
Proof. unfold ret. intros E. inversion E. auto. Qed.

Lemma next_inv p b p' :
  next p = Ok b p' ->
  settled p' /\ wf p' /\ query p' = query p /\
  placeholderIndex p' =
    (if bool_decide (ptoken p = TokenPlaceholder)
     then placeholderIndex p + 1 else placeholderIndex p)%Z /\
  remaining p' <= pred (remaining p) /\
  IgnoreWhiteSpace (lexer p') = IgnoreWhiteSpace (lexer p) /\
  (IgnoreWhiteSpace (lexer p) = true -> lexemes p' = lexemes p).
Proof.
  intros E. destruct (next_spec p) as (p'' & E' & Hs).
  rewrite E in E'. inversion E'; subst. exact Hs.
Qed.

Lemma expect_inv toks p u p' :
  expect toks p = Ok u p' -> p' = p /\ In (ptoken p) toks.
Proof.
  unfold expect. destruct (existsb _ toks) eqn:E; [|discriminate].
  intros E'. inversion E'; subst. split; [reflexivity|].
  apply existsb_exists in E as (tok & Hin & Ht).
  apply bool_decide_eq_true in Ht. subst. exact Hin.
Qed.

Lemma expectText_inv text p u p' :
  expectText text p = Ok u p' -> p' = p /\ EqualFold (ptext p) text = true.
Proof.
  unfold expectText. destruct (EqualFold (ptext p) text); simpl; [|discriminate].
  intros E. inversion E. auto.
Qed.

Lemma expectEOF_inv p u p' :
  expectEOF p = Ok u p' -> p' = p /\ ptoken p = TokenEOF.
Proof.
  unfold expectEOF. destruct (bool_decide (ptoken p = TokenEOF)) eqn:Ht; simpl; [|discriminate].
  apply bool_decide_eq_true in Ht.
  intros E. inversion E; subst. auto.
Qed.

(** A token whose text folds to a text other than the placeholder is not a
    placeholder. *)
Lemma wf_not_placeholder p text :
  wf p -> EqualFold (ptext p) text = true -> EqualFold "?" text = false ->
  ptoken p <> TokenPlaceholder.
Proof. intros [Hw _] E N P. rewrite (Hw P) in E. congruence. Qed.

Lemma wf_not_placeholder_eqb p text :
  wf p -> String.eqb (ptext p) text = true -> String.eqb "?" text = false ->
  ptoken p <> TokenPlaceholder.
Proof. intros [Hw _] E N P. rewrite (Hw P) in E. congruence. Qed.

Lemma wf_not_placeholder_lower p text :
  wf p -> String.eqb (ToLower (ptext p)) text = true -> String.eqb "?" text = false ->
  ptoken p <> TokenPlaceholder.
Proof. intros [Hw _] E N P. rewrite (Hw P) in E. change (ToLower "?") with "?" in E. congruence. Qed.

Lemma onSelect_inv f p u p' :
  onSelect f p = Ok u p' ->
  exists s, Select (query p) = Some s /\
    p' = setQuery (mkQuery (Some (f p s)) (Insert (query p)) (Update (query p))
                     (Delete (query p)) (CreateTable (query p)) (DropTable (query p))) p.
Proof.
  unfold onSelect. destruct (Select (query p)) as [s|]; [|discriminate].
  intros E. inversion E. eauto.
Qed.

Lemma onInsert_inv f p u p' :
  onInsert f p = Ok u p' ->
  exists s, Insert (query p) = Some s /\
    p' = setQuery (mkQuery (Select (query p)) (Some (f p s)) (Update (query p))
                     (Delete (query p)) (CreateTable (query p)) (DropTable (query p))) p.
Proof.
  unfold onInsert. destruct (Insert (query p)) as [s|]; [|discriminate].
  intros E. inversion E. eauto.
Qed.

Lemma onUpdate_inv f p u p' :
  onUpdate f p = Ok u p' ->
  exists s, Update (query p) = Some s /\
    p' = setQuery (mkQuery (Select (query p)) (Insert (query p)) (Some (f p s))
                     (Delete (query p)) (CreateTable (query p)) (DropTable (query p))) p.
Proof.
  unfold onUpdate. destruct (Update (query p)) as [s|]; [|discriminate].
  intros E. inversion E. eauto.
Qed.

Lemma onDelete_inv f p u p' :
  onDelete f p = Ok u p' ->
  exists s, Delete (query p) = Some s /\
    p' = setQuery (mkQuery (Select (query p)) (Insert (query p)) (Update (query p))
                     (Some (f p s)) (CreateTable (query p)) (DropTable (query p))) p.
Proof.
  unfold onDelete. destruct (Delete (query p)) as [s|]; [|discriminate].
  intros E. inversion E. eauto.
Qed.

Ltac psimpl :=
  cbn [lexer query placeholderIndex lexemes setQuery setLexemes setPlaceholderIndex
       setLexer Select Insert Update Delete CreateTable DropTable
       UpdTableName UpdColumns UpdKey Upsert InsTableName InsColumns InsKey
       DelTableName DelKey ConsistentRead ColumnNames SelTableName WhereClause SelKey
       ColumnName ColOrdinal ColValue KeyOrdinal KeyValue fst snd] in *.

(** One step of inversion of a successful run of a parser function. *)
Ltac minv1 :=
  match goal with
  | H : bind _ _ _ = Ok _ _ |- _ =>
      let a := fresh "a" in let p := fresh "p" in let E := fresh "E" in
      apply bind_inv in H as (a & p & E & H)
  | H : ret _ _ = Ok _ _ |- _ => apply ret_inv in H as [? ?]; subst
  | H : Ok _ _ = Ok _ _ |- _ => inversion H; subst; clear H
  | H : expect _ _ = Ok _ _ |- _ => apply expect_inv in H as [? ?]; subst
  | H : expectText _ _ = Ok _ _ |- _ => apply expectText_inv in H as [? ?]; subst
  | H : expectEOF _ = Ok _ _ |- _ => apply expectEOF_inv in H as [? ?]; subst
  | H : next _ = Ok _ _ |- _ =>
      let Hs := fresh "Hsettled" in let Hw := fresh "Hwf" in let Hq := fresh "Hq" in
      let Hp := fresh "Hpi" in let Hr := fresh "Hrem" in let Hi := fresh "Hign" in
      let Hl := fresh "Hlex" in
      apply next_inv in H as (Hs & Hw & Hq & Hp & Hr & Hi & Hl)
  | H : onSelect _ _ = Ok _ _ |- _ =>
      let s := fresh "s" in let E := fresh "Esel" in
      apply onSelect_inv in H as (s & E & ?); subst
  | H : onInsert _ _ = Ok _ _ |- _ =>
      let s := fresh "s" in let E := fresh "Eins" in
      apply onInsert_inv in H as (s & E & ?); subst
  | H : onUpdate _ _ = Ok _ _ |- _ =>
      let s := fresh "s" in let E := fresh "Eupd" in
      apply onUpdate_inv in H as (s & E & ?); subst
  | H : onDelete _ _ = Ok _ _ |- _ =>
      let s := fresh "s" in let E := fresh "Edel" in
      apply onDelete_inv in H as (s & E & ?); subst
  end.

Lemma ptoken_setQuery q p : ptoken (setQuery q p) = ptoken p.
Proof. reflexivity. Qed.
Lemma ptext_setQuery q p : ptext (setQuery q p) = ptext p.
Proof. reflexivity. Qed.
Lemma remaining_setQuery q p : remaining (setQuery q p) = remaining p.
Proof. reflexivity. Qed.
Lemma ptoken_setLexemes l p : ptoken (setLexemes l p) = ptoken p.
Proof. reflexivity. Qed.
Lemma ptext_setLexemes l p : ptext (setLexemes l p) = ptext p.
Proof. reflexivity. Qed.
Lemma remaining_setLexemes l p : remaining (setLexemes l p) = remaining p.
Proof. reflexivity. Qed.
Lemma wf_setQuery q p : wf (setQuery q p) <-> wf p.
Proof. reflexivity. Qed.
Lemma wf_setLexemes l p : wf (setLexemes l p) <-> wf p.
Proof. reflexivity. Qed.

Create Rewrite HintDb pstate.
#[export] Hint Rewrite ptoken_setQuery ptext_setQuery remaining_setQuery
  ptoken_setLexemes ptext_setLexemes remaining_setLexemes : pstate.

Ltac pstate := psimpl; autorewrite with pstate in *.

Ltac minv := cbv beta in *; repeat (minv1; pstate).

(** Rewrite the placeholder tests of the tokens that are known not to be
    placeholders. *)
Ltac notph :=
  repeat match goal with
  | H : context [bool_decide (ptoken ?p = TokenPlaceholder)] |- _ =>
      let N := fresh "N" in
      assert (N : ptoken p <> TokenPlaceholder) by
        (first
           [ match goal with
             | Hin : In (ptoken p) [TokenIdent] |- _ =>
                 destruct Hin as [Hin|[]]; rewrite <- Hin; discriminate
             end
           | match goal with
             | Hw : wf p, E : EqualFold (ptext p) _ = true |- _ =>
                 exact (wf_not_placeholder p _ Hw E eq_refl)
             end
           | match goal with
             | Hw : wf p, E : String.eqb (ptext p) _ = true |- _ =>
                 exact (wf_not_placeholder_eqb p _ Hw E eq_refl)
             end
           | match goal with
             | Hw : wf p, E : String.eqb (ToLower (ptext p)) _ = true |- _ =>
                 exact (wf_not_placeholder_lower p _ Hw E eq_refl)
             end
           | match goal with
             | E : ptoken p = _ |- _ => rewrite E; discriminate
             end ]);
      rewrite (bool_decide_false _ N) in H
  end.

Lemma numbered_app srcs1 : forall n k srcs2 m,
  numbered n srcs1 k -> numbered k srcs2 m -> numbered n (srcs1 ++ srcs2) m.
Proof.
  induction srcs1 as [|[ord [v|]] srcs1 IH]; intros n k srcs2 m H1 H2; simpl in *.
  - subst. exact H2.
  - eauto.
  - destruct H1 as [-> H1]. eauto.
Qed.

Ltac frame_tac :=
  repeat match goal with Hq : query _ = _ |- _ => rewrite Hq; clear Hq end;
  psimpl; try reflexivity.

(** Resolve the statement read through a pointer of [p.query]. *)
Ltac qresolve :=
  repeat match goal with
  | Hq : query ?x = _, E : context [query ?x] |- _ =>
      lazymatch type of E with
      | query x = _ => fail
      | _ => rewrite Hq in E; psimpl
      end
  | E : Some _ = Some _ |- _ => inversion E; subst; clear E; psimpl
  end.

Ltac pi_tac :=
  repeat match goal with
         | Hp : placeholderIndex ?a = placeholderIndex ?b |- _ =>
             rewrite Hp in *; clear Hp
         end.

Section Inv.
Context `{Quoting}.

Lemma valueColumn_numbered col p n :
  ColValue col = None ->
  n = (if bool_decide (ptoken p = TokenPlaceholder)
       then placeholderIndex p + 1 else placeholderIndex p)%Z ->
  numbered (placeholderIndex p) [colSrc (valueColumn col p)] n.
Proof.
  intros Hv ->. unfold valueColumn, colSrc.
  destruct (bool_decide (ptoken p = TokenPlaceholder)) eqn:Ep; simpl.
  - rewrite Hv. simpl. auto.
  - reflexivity.
Qed.

Lemma valueKey_numbered p n :
  n = (if bool_decide (ptoken p = TokenPlaceholder)
       then placeholderIndex p + 1 else placeholderIndex p)%Z ->
  numbered (placeholderIndex p) [keySrc (valueKey p)] n.
Proof.
  intros ->. unfold valueKey, keySrc.
  destruct (bool_decide (ptoken p = TokenPlaceholder)) eqn:Ep; simpl; auto.
Qed.

Lemma parseUpdateColumn_inv p u p' :
  wf p -> parseUpdateColumn p = Ok u p' ->
  wf p' /\ notUpdate (query p') = notUpdate (query p) /\
  exists q col,
    Update (query p) = Some q /\
    Update (query p') =
      Some (mkUpdateQuery (UpdTableName q) (UpdColumns q ++ [col]) (UpdKey q) (Upsert q)) /\
    numbered (placeholderIndex p) [colSrc col] (placeholderIndex p').
Proof.
  intros Hw E. unfold parseUpdateColumn in E. minv.
  match goal with
  | Hpi : placeholderIndex ?pf = (if bool_decide (ptoken ?p4 = _) then _ else _)
    |- wf ?pf /\ _ =>
      pose proof (valueColumn_numbered (mkColumn (Unquote (ptext p)) 0 None) p4 _
                    eq_refl Hpi) as Hn
  end.
  notph.
  split; [assumption|]. split.
  { unfold notUpdate. repeat match goal with Hq : query _ = _ |- _ => rewrite Hq; clear Hq end.
    psimpl. reflexivity. }
  eexists _, _. split; [|split].
  - repeat match goal with Hq : query _ = query _ |- _ => rewrite Hq in *; clear Hq end.
    eassumption.
  - match goal with Hq : query _ = mkQuery _ _ _ _ _ _ |- _ => rewrite Hq end.
    psimpl. reflexivity.
  - repeat match goal with
           | Hp : placeholderIndex ?a = placeholderIndex ?b |- _ =>
               rewrite Hp in *; clear Hp
           end.
    exact Hn.
Qed.

Lemma updateColumnsLoop_inv fuel : forall p u p',
  wf p -> updateColumnsLoop fuel p = Ok u p' ->
  wf p' /\ notUpdate (query p') = notUpdate (query p) /\
  forall q, Update (query p) = Some q ->
    exists cols,
      Update (query p') =
        Some (mkUpdateQuery (UpdTableName q) (UpdColumns q ++ cols) (UpdKey q) (Upsert q)) /\
      numbered (placeholderIndex p) (map colSrc cols) (placeholderIndex p').
Proof.
  induction fuel as [|fuel IH]; intros p u p' Hw E; simpl in E; [discriminate|].
  destruct (String.eqb (ptext p) ",") eqn:Ec.
  - apply bind_inv in E as (b & p1 & E1 & E).
    apply bind_inv in E as (u2 & p2 & E2 & E).
    minv. notph.
    apply parseUpdateColumn_inv in E2 as (W2 & F2 & q2 & col & U1 & U2 & N2); [|assumption].
    apply IH in E as (W3 & F3 & HU); [|assumption].
    split; [assumption|]. split; [congruence|].
    intros q0 Hq0.
    assert (q2 = q0) by congruence. subst q2.
    destruct (HU _ U2) as (cols & U3 & N3). psimpl.
    exists (col :: cols). split.
    + rewrite U3. rewrite <- app_assoc. reflexivity.
    + pi_tac. change (map colSrc (col :: cols)) with ([colSrc col] ++ map colSrc cols).
      eapply numbered_app; eauto.
  - inversion E; subst. split; [assumption|]. split; [reflexivity|].
    intros q0 Hq0. exists []. rewrite app_nil_r. destruct q0. split; [exact Hq0|reflexivity].
Qed.

Lemma parseUpdateColumns_inv p u p' :
  wf p -> parseUpdateColumns p = Ok u p' ->
  wf p' /\ notUpdate (query p') = notUpdate (query p) /\
  forall q, Update (query p) = Some q ->
    exists cols,
      Update (query p') =
        Some (mkUpdateQuery (UpdTableName q) (UpdColumns q ++ cols) (UpdKey q) (Upsert q)) /\
      numbered (placeholderIndex p) (map colSrc cols) (placeholderIndex p').
Proof.
  intros Hw E. unfold parseUpdateColumns in E.
  apply bind_inv in E as (u1 & p1 & E1 & E). unfold withFuel in E.
  apply parseUpdateColumn_inv in E1 as (W1 & F1 & q1 & col & U0 & U1 & N1); [|assumption].
  apply updateColumnsLoop_inv in E as (W2 & F2 & HU); [|assumption].
  split; [assumption|]. split; [congruence|].
  intros q0 Hq0. assert (q1 = q0) by congruence. subst q1.
  destruct (HU _ U1) as (cols & U2 & N2). psimpl.
  exists (col :: cols). split.
  - rewrite U2, <- app_assoc. reflexivity.
  - change (map colSrc (col :: cols)) with ([colSrc col] ++ map colSrc cols).
    eapply numbered_app; eauto.
Qed.

Lemma parseUpdateWhere_inv p u p' :
  wf p -> parseUpdateWhere p = Ok u p' ->
  wf p' /\ notUpdate (query p') = notUpdate (query p) /\
  exists q key,
    Update (query p) = Some q /\
    Update (query p') =
      Some (mkUpdateQuery (UpdTableName q) (UpdColumns q) key (Upsert q)) /\
    numbered (placeholderIndex p) [keySrc key] (placeholderIndex p').
Proof.
  intros Hw E. unfold parseUpdateWhere in E. minv.
  match goal with
  | Hpi : placeholderIndex ?pf = (if bool_decide (ptoken ?p4 = _) then _ else _)
    |- wf ?pf /\ _ => pose proof (valueKey_numbered p4 _ Hpi) as Hn
  end.
  notph.
  split; [assumption|]. split; [unfold notUpdate; frame_tac|].
  eexists _, _. split; [|split].
  - repeat match goal with Hq : query _ = query _ |- _ => rewrite Hq in *; clear Hq end.
    eassumption.
  - match goal with Hq : query _ = mkQuery _ _ _ _ _ _ |- _ => rewrite Hq end.
    psimpl. reflexivity.
  - pi_tac. exact Hn.
Qed.

Lemma parseUpdate_inv p u p' :
  wf p -> String.eqb (ToLower (ptext p)) "update" = true ->
  parseUpdate p = Ok u p' ->
  notUpdate (query p') = notUpdate (query p) /\
  exists q,
    Update (query p') = Some q /\ Upsert q = false /\
    numbered (placeholderIndex p) (map colSrc (UpdColumns q) ++ [keySrc (UpdKey q)])
      (placeholderIndex p').
Proof.
  intros Hw Ek E. unfold parseUpdate in E.
  repeat (apply bind_inv in E as (? & ? & ? & E)).
  unfold newUpdate in *. minv.
  match goal with E : parseUpdateColumns _ = _ |- _ =>
    apply parseUpdateColumns_inv in E as (Wcols & Fcols & HU); [|assumption] end.
  match goal with E : parseUpdateWhere _ = _ |- _ =>
    apply parseUpdateWhere_inv in E as (Wwh & Fwh & q2 & key & Uwh0 & Uwh & Nkey); [|assumption] end.
  notph.
  match goal with Hq : query ?a = query ?b, HU : forall q, Update (query ?a) = _ -> _ |- _ =>
    rewrite Hq in HU end.
  match goal with Hq : query ?a = mkQuery _ _ _ _ _ _ |- _ =>
    rewrite Hq in HU; psimpl end.
  destruct (HU _ eq_refl) as (cols & Ucols & Ncols). psimpl.
  rewrite Uwh0 in Ucols. inversion Ucols; subst q2. psimpl.
  match goal with Hq : query ?x = _, E : Update (query ?x) = Some s |- _ =>
    rewrite Hq in E; psimpl; inversion E; subst s end. psimpl.
  split.
  { rewrite Fwh, Fcols. unfold notUpdate. frame_tac. }
  eexists. split; [exact Uwh|]. psimpl. split; [reflexivity|].
  pi_tac. eapply numbered_app; eauto.
Qed.

(** *** insert *)

Lemma insertExpectIdent_inv columns p cols p' :
  wf p -> insertExpectIdent columns p = Ok cols p' ->
  wf p' /\ query p' = query p /\ placeholderIndex p' = placeholderIndex p /\
  exists col, cols = columns ++ [col] /\ unvalued col.
Proof.
  intros Hw E. unfold insertExpectIdent in E. minv. notph.
  split; [assumption|]. split; [assumption|]. split; [assumption|].
  eexists. split; reflexivity.
Qed.

Lemma insertColumnListLoop_inv fuel : forall columns p cols p',
  wf p -> insertColumnListLoop fuel columns p = Ok cols p' ->
  wf p' /\ query p' = query p /\ placeholderIndex p' = placeholderIndex p /\
  exists more, cols = columns ++ more /\ Forall unvalued more.
Proof.
  induction fuel as [|fuel IH]; intros columns p cols p' Hw E; simpl in E; [discriminate|].
  destruct (String.eqb (ptext p) ",") eqn:Ec.
  - apply bind_inv in E as (b & p1 & E1 & E).
    apply bind_inv in E as (cols2 & p2 & E2 & E).
    minv. notph.
    apply insertExpectIdent_inv in E2 as (W2 & Q2 & P2 & col & -> & Hcol); [|assumption].
    apply IH in E as (W3 & Q3 & P3 & more & -> & Hmore); [|assumption].
    split; [assumption|]. split; [congruence|]. split; [congruence|].
    exists (col :: more). split; [rewrite <- app_assoc; reflexivity|].
    constructor; assumption.
  - inversion E; subst. split; [assumption|]. split; [reflexivity|]. split; [reflexivity|].
    exists []. split; [rewrite app_nil_r; reflexivity|constructor].
Qed.

Lemma parseInsertColumnList_inv p u p' :
  wf p -> parseInsertColumnList p = Ok u p' ->
  wf p' /\ notInsert (query p') = notInsert (query p) /\
  placeholderIndex p' = placeholderIndex p /\
  exists q cols,
    Insert (query p) = Some q /\
    Insert (query p') = Some (mkInsertQuery (InsTableName q) cols (InsKey q)) /\
    Forall unvalued cols.
Proof.
  intros Hw E. unfold parseInsertColumnList in E.
  apply bind_inv in E as (cols1 & p1 & E1 & E).
  apply bind_inv in E as (cols2 & p2 & E2 & E). unfold withFuel in E2.
  apply insertExpectIdent_inv in E1 as (W1 & Q1 & P1 & col & -> & Hcol); [|assumption].
  apply insertColumnListLoop_inv in E2 as (W2 & Q2 & P2 & more & -> & Hmore); [|assumption].
  minv.
  split; [assumption|]. split; [unfold notInsert; psimpl; congruence|].
  split; [congruence|].
  eexists _, _. split; [|split; [reflexivity|]].
  - congruence.
  - simpl. constructor; assumption.
Qed.

Lemma insertValuesLoop_inv todo : forall done p cols p',
  wf p -> Forall unvalued todo ->
  insertValuesLoop done todo p = Ok cols p' ->
  wf p' /\ query p' = query p /\
  exists vals,
    cols = done ++ vals /\
    map ColumnName vals = map ColumnName todo /\
    numbered (placeholderIndex p) (map colSrc vals) (placeholderIndex p').
Proof.
  induction todo as [|col todo IH]; intros done p cols p' Hw Hun E; simpl in E.
  - minv. split; [assumption|]. split; [reflexivity|].
    exists []. rewrite app_nil_r. split; [reflexivity|]. split; reflexivity.
  - inversion Hun as [|? ? Hcol Htodo]; subst.
    apply bind_inv in E as (u1 & p1 & E1 & E).
    assert (H1 : wf p1 /\ query p1 = query p /\ placeholderIndex p1 = placeholderIndex p).
    { destruct done; minv; notph; auto. }
    destruct H1 as (W1 & Q1 & P1). clear E1.
    apply bind_inv in E as (u2 & p2 & E2 & E).
    apply bind_inv in E as (col' & p3 & E3 & E).
    apply bind_inv in E as (b & p4 & E4 & E).
    minv.
    match goal with
    | Hpi : placeholderIndex p4 = _ |- _ =>
        pose proof (valueColumn_numbered col _ _ Hcol Hpi) as Hn
    end.
    apply IH in E as (W5 & Q5 & vals & -> & Hnames & Hnum); [|assumption|assumption].
    split; [assumption|]. split; [congruence|].
    exists (valueColumn col p1 :: vals). split; [rewrite <- app_assoc; reflexivity|].
    split.
    + simpl. f_equal; [|assumption]. unfold valueColumn. destruct (bool_decide _); reflexivity.
    + rewrite <- P1.
      change (map colSrc (valueColumn col p1 :: vals))
        with ([colSrc (valueColumn col p1)] ++ map colSrc vals).
      eapply numbered_app; eauto.
Qed.

(** The outcome of the second loop of [parseInsertValueList], by the
    number of id columns. *)
Lemma stripID_spec cols : forall haveKey key columns,
  stripID cols haveKey key columns =
    match idColumns cols with
    | [] => inr (haveKey, key, columns ++ otherColumns cols)
    | [c] =>
        if haveKey then inl (Errorf "duplicate id column in insert statement")
        else inr (true, mkKey (ColOrdinal c) (ColValue c), columns ++ otherColumns cols)
    | _ :: _ :: _ => inl (Errorf "duplicate id column in insert statement")
    end.
Proof.
  unfold idColumns, otherColumns.
  induction cols as [|col cols IH]; intros haveKey key columns; simpl.
  - rewrite app_nil_r. reflexivity.
  - destruct (IsID (ColumnName col)) eqn:Eid.
    + rewrite filter_cons_True by exact Eid.
      rewrite filter_cons_False by (rewrite Eid; discriminate).
      destruct haveKey.
      * destruct (filter _ cols) as [|c [|c' l]]; reflexivity.
      * rewrite IH. destruct (filter _ cols) as [|c [|c' l]]; reflexivity.
    + rewrite filter_cons_False by (rewrite Eid; discriminate).
      rewrite filter_cons_True by exact Eid.
      rewrite IH. rewrite <- app_assoc. reflexivity.
Qed.

End Inv.

End parse_inv.

(** ** Inversion of the parser functions: insert, delete, create table and drop table *)

Module parse_inv2.
Import gostr lex parse parse_defs lex_facts parse_facts parse_inv lex_defs.

Section Inv.
Context `{Quoting}.

Lemma insertValuesLoop_query todo : forall done p cols p',
  insertValuesLoop done todo p = Ok cols p' -> query p' = query p.
Proof.
  induction todo as [|col todo IH]; intros done p cols p' E; simpl in E.
  - minv. reflexivity.
  - apply bind_inv in E as (u1 & p1 & E1 & E).
    assert (H1 : query p1 = query p) by (destruct done; minv; auto).
    repeat (apply bind_inv in E as (? & ? & ? & E)). minv.
    apply IH in E. congruence.
Qed.

(** The outcome of [parseInsertValueList], once the value list is read. *)
Lemma parseInsertValueList_outcome p q cols p1 :
  Insert (query p) = Some q ->
  insertValuesLoop [] (InsColumns q) p = Ok cols p1 ->
  parseInsertValueList p =
    match idColumns cols with
    | [] => Fail (Errorf "missing id column in insert statement")
    | [c] =>
        Ok tt (setQuery
                 (mkQuery (Select (query p)) 
                    (Some (mkInsertQuery (InsTableName q) (otherColumns cols)
                             (mkKey (ColOrdinal c) (ColValue c))))
                    (Update (query p)) (Delete (query p)) (CreateTable (query p))
                    (DropTable (query p))) p1)
    | _ :: _ :: _ => Fail (Errorf "duplicate id column in insert statement")
    end.
Proof.
  intros Hq E. pose proof (insertValuesLoop_query _ _ _ _ _ E) as Q1.
  unfold parseInsertValueList. rewrite Hq. unfold bind at 1. rewrite E.
  unfold bind at 1. unfold onInsert at 1. rewrite Q1, Hq. psimpl.
  rewrite stripID_spec. simpl.
  destruct (idColumns cols) as [|c [|c' l]]; [| |reflexivity].
  - reflexivity.
  - reflexivity.
Qed.

Lemma parseInsertValueList_inv p u p' :
  wf p -> (forall q, Insert (query p) = Some q -> Forall unvalued (InsColumns q)) ->
  parseInsertValueList p = Ok u p' ->
  wf p' /\ notInsert (query p') = notInsert (query p) /\
  exists q cols c,
    Insert (query p) = Some q /\
    idColumns cols = [c] /\
    Insert (query p') =
      Some (mkInsertQuery (InsTableName q) (otherColumns cols)
              (mkKey (ColOrdinal c) (ColValue c))) /\
    numbered (placeholderIndex p) (map colSrc cols) (placeholderIndex p').
Proof.
  intros Hw Hun E.
  destruct (Insert (query p)) as [q|] eqn:Hq;
    [|unfold parseInsertValueList in E; rewrite Hq in E; discriminate].
  destruct (insertValuesLoop [] (InsColumns q) p) as [cols p1|f] eqn:E1.
  - rewrite (parseInsertValueList_outcome p q cols p1 Hq E1) in E.
    apply insertValuesLoop_inv in E1 as (W1 & Q1 & vals & Hc & Hnames & Hnum);
      [|assumption|auto].
    simpl in Hc. subst vals.
    destruct (idColumns cols) as [|c [|c' l]] eqn:Eid; try discriminate.
    inversion E; subst. psimpl.
    split; [exact W1|]. split; [reflexivity|].
    exists q, cols, c. auto.
  - unfold parseInsertValueList in E. rewrite Hq in E. unfold bind at 1 in E.
    rewrite E1 in E. discriminate.
Qed.

Lemma parseInsert_inv p u p' :
  wf p -> String.eqb (ToLower (ptext p)) "insert" = true ->
  parseInsert p = Ok u p' ->
  notInsert (query p') = notInsert (query p) /\
  exists q cols c,
    Insert (query p') = Some q /\
    idColumns cols = [c] /\
    InsColumns q = otherColumns cols /\
    InsKey q = mkKey (ColOrdinal c) (ColValue c) /\
    numbered (placeholderIndex p) (map colSrc cols) (placeholderIndex p').
Proof.
  intros Hw Ek E. unfold parseInsert in E.
  repeat (apply bind_inv in E as (? & ? & ? & E)).
  unfold newInsert in *. cbv beta in *.
  match goal with E : parseInsertColumnList _ = _ |- _ => rename E into Ecl end.
  match goal with E : parseInsertValueList _ = _ |- _ => rename E into Evl end.
  match goal with E : (if EqualFold _ _ then _ else _) = _ |- _ => rename E into Einto end.
  minv.
  match type of Einto with (if ?c then _ else Ok _ ?pp) = Ok _ ?pq =>
    assert (Hinto : wf pq /\ query pq = query pp /\ placeholderIndex pq = placeholderIndex pp)
  end.
  { destruct (EqualFold _ _) eqn:Ei.
    - minv. notph. auto.
    - minv. auto. }
  clear Einto. destruct Hinto as (Winto & Qinto & Pinto).
  minv. notph.
  apply parseInsertColumnList_inv in Ecl as (Wcl & Fcl & Pcl & q1 & cols1 & Icl0 & Icl & Hun);
    [|assumption].
  minv. notph.
  apply parseInsertValueList_inv in Evl as (Wvl & Fvl & q2 & cols & c & Ivl0 & Eid & Ivl & Hnum).
  2: assumption.
  2: { intros qq Hqq.
       repeat match goal with Hq : query _ = query _ |- _ => rewrite Hq in *; clear Hq end.
       rewrite Icl in Hqq. inversion Hqq; subst. exact Hun. }
  minv. notph.
  split.
  { repeat match goal with Hq : query _ = query _ |- _ => rewrite Hq in *; clear Hq end.
    rewrite Fvl, Fcl. unfold notInsert. frame_tac. }
  exists (mkInsertQuery (InsTableName q2) (otherColumns cols)
            (mkKey (ColOrdinal c) (ColValue c))), cols, c.
  repeat match goal with Hq : query _ = query _ |- _ => rewrite Hq in *; clear Hq end.
  split; [exact Ivl|]. split; [exact Eid|]. split; [reflexivity|]. split; [reflexivity|].
  pi_tac. exact Hnum.
Qed.

(** *** delete, create table, drop table *)

Lemma parseDelete_inv p u p' :
  wf p -> String.eqb (ToLower (ptext p)) "delete" = true ->
  parseDelete p = Ok u p' ->
  notDelete (query p') = notDelete (query p) /\
  exists q,
    Delete (query p') = Some q /\
    numbered (placeholderIndex p) [keySrc (DelKey q)] (placeholderIndex p').
Proof.
  intros Hw Ek E. unfold parseDelete in E.
  repeat (apply bind_inv in E as (? & ? & ? & E)).
  unfold newDelete, parseDeleteWhere in *. cbv beta in *.
  match goal with E : (if String.eqb _ _ then _ else _) = _ |- _ => rename E into Efrom end.
  minv.
  match type of Efrom with (if ?c then _ else Ok _ ?pp) = Ok _ ?pq =>
    assert (Hfrom : wf pq /\ query pq = query pp /\ placeholderIndex pq = placeholderIndex pp)
  end.
  { destruct (String.eqb _ "from") eqn:Ei.
    - minv. notph. auto.
    - minv. auto. }
  clear Efrom. destruct Hfrom as (Wfrom & Qfrom & Pfrom).
  minv.
  match goal with
  | Hpi : placeholderIndex ?pf = (if bool_decide (ptoken ?p4 = _) then _ else _),
    Hpt : In (ptoken ?p4) [TokenPlaceholder; TokenLiteral] |- _ =>
      pose proof (valueKey_numbered p4 _ Hpi) as Hn
  end.
  notph.
  split; [unfold notDelete; frame_tac|].
  eexists. split.
  - match goal with Hq : query _ = mkQuery _ _ _ _ _ _ |- _ => rewrite Hq end.
    psimpl. reflexivity.
  - psimpl. pi_tac. exact Hn.
Qed.

Lemma parseCreateTable_inv p u p' :
  parseCreateTable p = Ok u p' ->
  notCreateDrop (query p') = notCreateDrop (query p).
Proof.
  intros E. unfold parseCreateTable in E.
  repeat (apply bind_inv in E as (? & ? & ? & E)).
  unfold setCreateTable in *. minv. unfold notCreateDrop. frame_tac.
Qed.

Lemma parseDropTable_inv p u p' :
  parseDropTable p = Ok u p' ->
  notCreateDrop (query p') = notCreateDrop (query p).
Proof.
  intros E. unfold parseDropTable in E.
  repeat (apply bind_inv in E as (? & ? & ? & E)).
  unfold setDropTable in *. minv. unfold notCreateDrop. frame_tac.
Qed.

End Inv.
End parse_inv2.

(** ** The where clause of select *)

Module select_facts.
Import gostr lex parse parse_defs lex_facts parse_facts parse_inv parse_inv2 select_defs lex_defs.

Lemma sig_blank sk : forall rest,
  forallb blank sk = true -> List.filter significant (sk ++ rest) = List.filter significant rest.
Proof.
  induction sk as [|a sk IH]; intros rest Hb; simpl in *; [reflexivity|].
  apply andb_true_iff in Hb as [Ha Hb]. unfold significant at 1. rewrite Ha. simpl. auto.
Qed.

Lemma Tokens_head s t x toks :
  Tokens s ((t, x) :: toks) -> t = token s /\ x = lexeme s /\ token s <> TokenEOF /\
  Tokens (snd (Scan s)) toks.
Proof. intros Ht. inversion Ht; subst. auto. Qed.

Lemma Tokens_nil s : Tokens s [] -> token s = TokenEOF.
Proof. intros Ht. inversion Ht; subst. auto. Qed.

Lemma settled_significant p : settled p -> significant (ptoken p, ptext p) = true.
Proof.
  intros [Hw Hc]. unfold significant, blank. simpl.
  rewrite !bool_decide_false by assumption. reflexivity.
Qed.

Lemma tailLexemes_significant acc t x toks :
  significant (t, x) = true ->
  tailLexemes acc ((t, x) :: toks) = tailLexemes (acc ++ [x]) toks.
Proof.
  unfold significant, blank. simpl. intros Hs.
  destruct (bool_decide (t = TokenComment)); [rewrite orb_true_r in Hs; discriminate|].
  destruct (bool_decide (t = TokenWhiteSpace)); [discriminate|]. reflexivity.
Qed.

(** [next], on the tokens that follow the current one. *)
Lemma next_tokens p toks :
  Tokens (lexer p) ((ptoken p, ptext p) :: toks) ->
  exists p' skipped rest,
    next p = Ok (negb (bool_decide (ptoken p' = TokenEOF))) p' /\
    toks = skipped ++ rest /\ forallb blank skipped = true /\
    Tokens (lexer p') rest /\ settled p' /\ wf p' /\
    lexemes p' = tailLexemes (lexemes p) skipped /\
    query p' = query p /\
    placeholderIndex p' =
      (if bool_decide (ptoken p = TokenPlaceholder)
       then placeholderIndex p + 1 else placeholderIndex p)%Z /\
    remaining p' <= pred (remaining p) /\
    (remaining p = 0 -> ptoken p' = TokenEOF) /\
    IgnoreWhiteSpace (lexer p') = IgnoreWhiteSpace (lexer p).
Proof.
  intros Ht. apply Tokens_head in Ht as (_ & _ & Hne & Ht).
  unfold next, withFuel.
  set (p1 := if bool_decide (ptoken p = TokenPlaceholder)
             then setPlaceholderIndex (placeholderIndex p + 1) p else p).
  assert (Hp1 : lexer p1 = lexer p /\ query p1 = query p /\ lexemes p1 = lexemes p /\
                placeholderIndex p1 =
                  (if bool_decide (ptoken p = TokenPlaceholder)
                   then placeholderIndex p + 1 else placeholderIndex p)%Z).
  { subst p1. case_bool_decide; auto. }
  destruct Hp1 as (L1 & L2 & L3 & L4).
  destruct (scan_fields p1) as (Q1 & Q2 & Q3 & Q4 & Q5 & Q6 & Q7 & Q8).
  assert (Ht1 : Tokens (lexer (scan p1)) toks) by (unfold scan; simpl; rewrite L1; exact Ht).
  destruct (nextLoop_spec (2 + remaining (scan p1)) (scan p1) toks) as
    (p' & sk & rest & E & -> & Hb & Hr & Hs & Hl & Hq & Hp & Hrem & Hi & Hw);
    [right; lia|exact Ht1|].
  exists p', sk, rest. split; [exact E|]. split; [reflexivity|]. split; [exact Hb|].
  split; [exact Hr|]. split; [exact Hs|]. split; [auto|].
  split; [congruence|]. split; [congruence|]. split; [congruence|].
  assert (R1 : remaining p1 = remaining p) by (unfold remaining; rewrite L1; reflexivity).
  split; [lia|]. split; [|congruence].
  intros Hz. rewrite <- R1 in Hz. specialize (Q6 Hz).
  inversion Ht1 as [s He|s toks' Hne' Ht']; subst; [|contradiction].
  match goal with Hnil : [] = sk ++ rest |- _ =>
    symmetry in Hnil; apply app_eq_nil in Hnil as [-> ->] end.
  apply Tokens_nil in Hr. exact Hr.
Qed.

(** The loop of [copyRemaining] stops, with the lexemes of the tokens that
    were left. *)
Lemma copyRemainingLoop_spec fuel : forall p toks,
  (ptoken p = TokenEOF /\ 1 <= fuel) \/ 2 + remaining p <= fuel ->
  settled p -> Tokens (lexer p) toks ->
  exists p',
    copyRemainingLoop fuel p = Ok tt p' /\
    lexemes p' = tailLexemes (lexemes p) toks /\
    query p' = query p.
Proof.
  induction fuel as [|fuel IH]; intros p toks Hf Hs Ht;
    [destruct Hf as [[_ Hf]|Hf]; lia|].
  simpl. destruct (bool_decide (ptoken p = TokenEOF)) eqn:Ee; simpl.
  - apply bool_decide_eq_true in Ee.
    inversion Ht as [s He|s toks' Hne Ht']; subst; [|contradiction].
    exists p. auto.
  - apply bool_decide_eq_false in Ee.
    destruct Hf as [[Hf _]|Hf]; [contradiction|].
    inversion Ht as [s He|s toks' Hne Ht']; subst; [contradiction|].
    unfold bind at 1. unfold copyText.
    set (p1 := setLexemes (lexemes p ++ [ptext p]) p).
    assert (Ht1 : Tokens (lexer p1) ((ptoken p1, ptext p1) :: toks')) by exact Ht.
    destruct (next_tokens p1 toks' Ht1) as
      (p2 & sk & rest & E & -> & Hb & Hr & Hs2 & Hw2 & Hl & Hq & Hp & Hrem & Hz & Hi).
    unfold bind. rewrite E.
    assert (Hf2 : (ptoken p2 = TokenEOF /\ 1 <= fuel) \/ 2 + remaining p2 <= fuel).
    { change (remaining p1) with (remaining p) in *.
      destruct (remaining p) eqn:Er.
      - left. split; [auto|lia].
      - right. simpl in Hrem. lia. }
    destruct (IH p2 rest Hf2 Hs2 Hr) as (p' & E' & Hl' & Hq').
    exists p'. split; [exact E'|]. split; [|rewrite Hq', Hq; reflexivity].
    change (token (lexer p), lexeme (lexer p)) with (ptoken p, ptext p).
    rewrite tailLexemes_significant by (apply settled_significant; exact Hs).
    rewrite tailLexemes_app. rewrite Hl', Hl. reflexivity.
Qed.

Section Select.
Context `{Quoting}.

(** The fall-back of [parseSelectWhereClause]: from any step, the lexemes
    captured so far and those of the tokens left make the lexemes of the
    whole tail. *)
Lemma copyRemaining_spec p0 p prefix rest sq :
  lexemes p = tailLexemes (lexemes p0) prefix ->
  settled p -> Tokens (lexer p) rest -> Select (query p) = Some sq ->
  exists p',
    copyRemaining p = Ok tt p' /\
    query p' = setSelect (withWhere sq (tailLexemes (lexemes p0) (prefix ++ rest))) (query p).
Proof.
  intros Hl Hs Ht Hq. unfold copyRemaining, withFuel.
  destruct (copyRemainingLoop_spec (2 + remaining p) p rest) as (p1 & E & Hl1 & Hq1);
    [right; lia|assumption|assumption|].
  unfold bind at 1. rewrite E. unfold bind, onSelect. rewrite Hq1, Hq.
  eexists. split; [reflexivity|]. psimpl. unfold setSelect, withWhere.
  rewrite Hl1, Hl, tailLexemes_app. reflexivity.
Qed.

Lemma keyOf_short n (toks : list (Token * string)) :
  length (List.filter significant toks) < 4 -> keyOf n toks = None.
Proof.
  unfold keyOf. destruct (List.filter significant toks) as [|[? ?] [|[? ?] [|[? ?] [|[? ?] l]]]];
    simpl; intros; try reflexivity; lia.
Qed.

Lemma keyOf_long n (toks : list (Token * string)) :
  4 < length (List.filter significant toks) -> keyOf n toks = None.
Proof.
  unfold keyOf. destruct (List.filter significant toks) as [|[? ?] [|[? ?] [|[? ?] [|[? ?] [|? l]]]]];
    simpl; intros; try reflexivity; lia.
Qed.

Lemma sig_cons t x toks :
  significant (t, x) = true ->
  List.filter significant ((t, x) :: toks) = (t, x) :: List.filter significant toks.
Proof. intros Hs. simpl. rewrite Hs. reflexivity. Qed.

Lemma at_token_rest p0 p toks seen rest :
  at_token p0 p toks seen rest -> ptoken p <> TokenEOF ->
  exists rest', rest = (ptoken p, ptext p) :: rest'.
Proof.
  intros A Hne. pose proof (at_tokens _ _ _ _ _ A) as Ht.
  inversion Ht as [s He|s toks' Hne' Ht']; subst.
  - contradiction.
  - eexists. reflexivity.
Qed.

Lemma at_token_eof p0 p toks seen rest :
  at_token p0 p toks seen rest -> ptoken p = TokenEOF -> rest = [].
Proof.
  intros A He. pose proof (at_tokens _ _ _ _ _ A) as Ht.
  inversion Ht as [s He'|s toks' Hne' Ht']; subst.
  - reflexivity.
  - contradiction.
Qed.

(** [copyText] then [next], from a token of the tail to the next one. *)
Lemma at_token_step p0 p toks seen rest' :
  at_token p0 p toks seen ((ptoken p, ptext p) :: rest') ->
  exists p' sk rest,
    next (setLexemes (lexemes p ++ [ptext p]) p) =
      Ok (negb (bool_decide (ptoken p' = TokenEOF))) p' /\
    forallb blank sk = true /\
    rest' = sk ++ rest /\
    at_token p0 p' toks (seen ++ (ptoken p, ptext p) :: sk) rest /\
    placeholderIndex p' =
      (if bool_decide (ptoken p = TokenPlaceholder)
       then placeholderIndex p + 1 else placeholderIndex p)%Z.
Proof.
  intros [At Al As Aw Ak Aq].
  set (p1 := setLexemes (lexemes p ++ [ptext p]) p).
  assert (Ht1 : Tokens (lexer p1) ((ptoken p1, ptext p1) :: rest')) by exact Ak.
  destruct (next_tokens p1 rest' Ht1) as
    (p2 & sk & rest & E & -> & Hb & Hr & Hs2 & Hw2 & Hl & Hq & Hp & Hrem & Hz & Hi).
  exists p2, sk, rest. split.
  { exact E. }
  split; [exact Hb|]. split; [reflexivity|]. split; [|exact Hp].
  constructor; auto.
  - rewrite At. rewrite <- app_assoc. reflexivity.
  - rewrite Hl. subst p1. psimpl. rewrite Al.
    rewrite tailLexemes_app.
    change ((ptoken p, ptext p) :: sk) with ([(ptoken p, ptext p)] ++ sk).
    rewrite tailLexemes_app. f_equal.
    rewrite tailLexemes_significant by (apply settled_significant; exact As).
    reflexivity.
  - rewrite Hq. exact Aq.
Qed.

Lemma sig_seen (seen : list (Token * string)) t x sk :
  significant (t, x) = true -> forallb blank sk = true ->
  List.filter significant (seen ++ (t, x) :: sk) = List.filter significant seen ++ [(t, x)].
Proof.
  intros Hs Hb. rewrite List.filter_app. f_equal.
  rewrite sig_cons by exact Hs. f_equal.
  rewrite <- (app_nil_r sk). rewrite sig_blank by exact Hb. reflexivity.
Qed.

Lemma sig_rest p0 p toks seen rest :
  at_token p0 p toks seen rest ->
  List.filter significant toks =
    List.filter significant seen ++
    match rest with
    | [] => []
    | a :: rest' => a :: List.filter significant rest'
    end.
Proof.
  intros A. rewrite (at_toks _ _ _ _ _ A), List.filter_app. f_equal.
  destruct rest as [|[t x] rest']; [reflexivity|].
  destruct (Tokens_head _ _ _ _ (at_tokens _ _ _ _ _ A)) as (-> & -> & _).
  apply sig_cons. apply settled_significant. exact (at_settled _ _ _ _ _ A).
Qed.

Lemma keyOf_fail1 n (toks : list (Token * string)) t1 x1 more :
  List.filter significant toks = (t1, x1) :: more ->
  String.eqb (ToLower x1) "where" = false -> keyOf n toks = None.
Proof.
  intros E C. unfold keyOf. rewrite E.
  destruct more as [|[? ?] [|[? ?] [|[? ?] [|? l]]]]; try reflexivity.
  rewrite C. reflexivity.
Qed.

Lemma keyOf_fail2 n (toks : list (Token * string)) a1 t2 x2 more :
  List.filter significant toks = a1 :: (t2, x2) :: more ->
  (bool_decide (t2 = TokenIdent) && String.eqb (Unquote x2) "id")%bool = false ->
  keyOf n toks = None.
Proof.
  intros E C. unfold keyOf. rewrite E. destruct a1 as [t1 x1].
  destruct more as [|[? ?] [|[? ?] [|? l]]]; try reflexivity.
  rewrite <- !andb_assoc. rewrite (andb_assoc (bool_decide _)), C.
  rewrite andb_false_r. reflexivity.
Qed.

Lemma keyOf_fail3 n (toks : list (Token * string)) a1 a2 t3 x3 more :
  List.filter significant toks = a1 :: a2 :: (t3, x3) :: more ->
  String.eqb x3 "=" = false -> keyOf n toks = None.
Proof.
  intros E C. unfold keyOf. rewrite E. destruct a1 as [t1 x1], a2 as [t2 x2].
  destruct more as [|[? ?] [|? l]]; try reflexivity.
  rewrite C, andb_false_r. reflexivity.
Qed.

Lemma keyOf_fail4 n (toks : list (Token * string)) a1 a2 a3 t4 x4 more :
  List.filter significant toks = a1 :: a2 :: a3 :: (t4, x4) :: more ->
  t4 <> TokenLiteral -> t4 <> TokenPlaceholder -> keyOf n toks = None.
Proof.
  intros E C1 C2. unfold keyOf. rewrite E.
  destruct a1 as [t1 x1], a2 as [t2 x2], a3 as [t3 x3].
  destruct more as [|? l]; try reflexivity.
  rewrite (bool_decide_false _ C1), (bool_decide_false _ C2).
  destruct (_ && _)%bool; reflexivity.
Qed.

Lemma keyOf_ok n (toks : list (Token * string)) t1 x1 t2 x2 t3 x3 x4 t4 :
  List.filter significant toks = [(t1, x1); (t2, x2); (t3, x3); (t4, x4)] ->
  String.eqb (ToLower x1) "where" = true -> t2 = TokenIdent ->
  String.eqb (Unquote x2) "id" = true -> String.eqb x3 "=" = true ->
  keyOf n toks =
    (if bool_decide (t4 = TokenLiteral) then Some (mkKey 0 (Some (Unquote x4)))
     else if bool_decide (t4 = TokenPlaceholder) then Some (mkKey n None) else None).
Proof.
  intros E C1 -> C2 C3. unfold keyOf. rewrite E, C1, C2, C3. reflexivity.
Qed.

(** [parseSelectWhereClause] returns, and its result is the single-key
    form when the tail is exactly [where id = (placeholder|literal)], the
    lexemes of the tail otherwise. *)
Theorem parseSelectWhereClause_spec p sq :
  wf p -> settled p -> Select (query p) = Some sq ->
  let toks := tailTokens (setIgnoreWhiteSpace false (lexer p)) in
  exists p',
    parseSelectWhereClause p = Ok tt p' /\
    query p' =
      setSelect
        (match keyOf (placeholderIndex p) toks with
         | Some k => withKey sq k
         | None => withWhere sq (tailLexemes (lexemes p) toks)
         end) (query p).
Proof.
  intros Hw Hs Hq toks.
  set (p0 := setLexer (setIgnoreWhiteSpace false (lexer p)) p).
  assert (A0 : at_token p0 p0 toks [] toks).
  { constructor; auto. apply tailTokens_Tokens. }
  assert (Hq0 : Select (query p0) = Some sq) by exact Hq.
  change (lexemes p) with (lexemes p0). change (query p) with (query p0).
  change (placeholderIndex p) with (placeholderIndex p0).
  unfold parseSelectWhereClause. unfold bind at 1. cbv beta iota. fold p0.
  clearbody p0 toks. clear p Hw Hs Hq.
  (* a fall-back at a token *)
  assert (FB : forall pk seen rest,
            at_token p0 pk toks seen rest -> keyOf (placeholderIndex p0) toks = None ->
            exists p', copyRemaining pk = Ok tt p' /\
              query p' =
                setSelect
                  (match keyOf (placeholderIndex p0) toks with
                   | Some k => withKey sq k
                   | None => withWhere sq (tailLexemes (lexemes p0) toks)
                   end) (query p0)).
  { intros pk seen rest A K. rewrite K.
    destruct (copyRemaining_spec p0 pk seen rest sq) as (p' & E & Hq');
      [apply A|apply A|apply A|rewrite (at_query _ _ _ _ _ A); exact Hq0|].
    exists p'. split; [exact E|]. rewrite Hq', (at_query _ _ _ _ _ A), <- (at_toks _ _ _ _ _ A).
    reflexivity. }
  pose proof (sig_rest _ _ _ _ _ A0) as S0. simpl in S0.
  (* where *)
  destruct (String.eqb (ToLower (ptext p0)) "where") eqn:C1; simpl negb; cbv iota.
  2: { apply (FB _ _ _ A0).
       destruct toks as [|[t x] rest']; [apply keyOf_short; simpl; lia|].
       destruct (Tokens_head _ _ _ _ (at_tokens _ _ _ _ _ A0)) as (-> & -> & _).
       eapply keyOf_fail1; [exact S0|exact C1]. }
  assert (N1 : ptoken p0 <> TokenEOF).
  { intros E. rewrite (proj2 (at_wf _ _ _ _ _ A0) E) in C1. discriminate. }
  destruct (at_token_rest _ _ _ _ _ A0 N1) as [rest1' ->].
  destruct (at_token_step _ _ _ _ _ A0) as (p1 & sk1 & rest1 & E1 & B1 & -> & A1 & P1).
  rewrite bool_decide_false in P1
    by (eapply wf_not_placeholder_lower; [apply A0|exact C1|reflexivity]).
  unfold bind at 1. unfold copyText at 1. cbv beta iota. unfold bind at 1.
  rewrite E1. clear E1. cbv beta iota.
  pose proof (sig_rest _ _ _ _ _ A1) as S1.
  rewrite (sig_seen [] _ _ _ (settled_significant _ (at_settled _ _ _ _ _ A0)) B1) in S1.
  simpl app in S1.
  (* id *)
  destruct (bool_decide (ptoken p1 = TokenIdent) && String.eqb (Unquote (ptext p1)) "id")%bool
    eqn:C2.
  2: { replace (negb (bool_decide (ptoken p1 = TokenIdent))
                || negb (String.eqb (Unquote (ptext p1)) "id"))%bool with true
         by (rewrite <- negb_andb, C2; reflexivity).
       apply (FB _ _ _ A1).
       destruct rest1 as [|[t x] rest']; [apply keyOf_short; rewrite S1; simpl; lia|].
       destruct (Tokens_head _ _ _ _ (at_tokens _ _ _ _ _ A1)) as (-> & -> & _).
       eapply keyOf_fail2; [exact S1|exact C2]. }
  replace (negb (bool_decide (ptoken p1 = TokenIdent))
           || negb (String.eqb (Unquote (ptext p1)) "id"))%bool with false
    by (rewrite <- negb_andb, C2; reflexivity).
  apply andb_true_iff in C2 as [C2t C2x]. apply bool_decide_eq_true in C2t.
  assert (N2 : ptoken p1 <> TokenEOF) by (rewrite C2t; discriminate).
  destruct (at_token_rest _ _ _ _ _ A1 N2) as [rest2' ->].
  destruct (at_token_step _ _ _ _ _ A1) as (p2 & sk2 & rest2 & E2 & B2 & -> & A2 & P2).
  rewrite bool_decide_false in P2 by (rewrite C2t; discriminate).
  unfold bind at 1. unfold copyText at 1. cbv beta iota. unfold bind at 1.
  rewrite E2. clear E2. cbv beta iota.
  pose proof (sig_rest _ _ _ _ _ A2) as S2.
  rewrite (sig_seen _ _ _ _ (settled_significant _ (at_settled _ _ _ _ _ A1)) B2) in S2.
  rewrite (sig_seen [] _ _ _ (settled_significant _ (at_settled _ _ _ _ _ A0)) B1) in S2.
  simpl app in S2.
  (* = *)
  destruct (String.eqb (ptext p2) "=") eqn:C3; simpl negb; cbv iota.
  2: { apply (FB _ _ _ A2).
       destruct rest2 as [|[t x] rest']; [apply keyOf_short; rewrite S2; simpl; lia|].
       destruct (Tokens_head _ _ _ _ (at_tokens _ _ _ _ _ A2)) as (-> & -> & _).
       eapply keyOf_fail3; [exact S2|exact C3]. }
  assert (N3 : ptoken p2 <> TokenEOF).
  { intros E. rewrite (proj2 (at_wf _ _ _ _ _ A2) E) in C3. discriminate. }
  destruct (at_token_rest _ _ _ _ _ A2 N3) as [rest3' ->].
  destruct (at_token_step _ _ _ _ _ A2) as (p3 & sk3 & rest3 & E3 & B3 & -> & A3 & P3).
  rewrite bool_decide_false in P3
    by (eapply wf_not_placeholder_eqb; [apply A2|exact C3|reflexivity]).
  unfold bind at 1. unfold copyText at 1. cbv beta iota. unfold bind at 1.
  rewrite E3. clear E3. cbv beta iota.
  pose proof (sig_rest _ _ _ _ _ A3) as S3.
  rewrite (sig_seen _ _ _ _ (settled_significant _ (at_settled _ _ _ _ _ A2)) B3) in S3.
  rewrite (sig_seen _ _ _ _ (settled_significant _ (at_settled _ _ _ _ _ A1)) B2) in S3.
  rewrite (sig_seen [] _ _ _ (settled_significant _ (at_settled _ _ _ _ _ A0)) B1) in S3.
  simpl app in S3.
  (* the literal or the placeholder *)
  destruct (bool_decide (ptoken p3 = TokenLiteral) || bool_decide (ptoken p3 = TokenPlaceholder))%bool
    eqn:C4.
  2: { apply orb_false_iff in C4 as [C4l C4p].
       apply bool_decide_eq_false in C4l. apply bool_decide_eq_false in C4p.
       apply (FB _ _ _ A3).
       destruct rest3 as [|[t x] rest']; [apply keyOf_short; rewrite S3; simpl; lia|].
       destruct (Tokens_head _ _ _ _ (at_tokens _ _ _ _ _ A3)) as (-> & -> & _).
       eapply keyOf_fail4; [exact S3|exact C4l|exact C4p]. }
  assert (N4 : ptoken p3 <> TokenEOF).
  { intros E. rewrite E in C4. discriminate. }
  destruct (at_token_rest _ _ _ _ _ A3 N4) as [rest4' ->].
  destruct (at_token_step _ _ _ _ _ A3) as (p4 & sk4 & rest4 & E4 & B4 & -> & A4 & P4).
  unfold bind at 1. unfold copyText at 1. cbv beta iota. unfold bind at 1.
  rewrite E4. clear E4. cbv beta iota.
  pose proof (sig_rest _ _ _ _ _ A4) as S4.
  rewrite (sig_seen _ _ _ _ (settled_significant _ (at_settled _ _ _ _ _ A3)) B4) in S4.
  rewrite (sig_seen _ _ _ _ (settled_significant _ (at_settled _ _ _ _ _ A2)) B3) in S4.
  rewrite (sig_seen _ _ _ _ (settled_significant _ (at_settled _ _ _ _ _ A1)) B2) in S4.
  rewrite (sig_seen [] _ _ _ (settled_significant _ (at_settled _ _ _ _ _ A0)) B1) in S4.
  simpl app in S4.
  (* the end of the query *)
  destruct (bool_decide (ptoken p4 = TokenEOF)) eqn:C5; simpl negb; cbv iota.
  2: { apply bool_decide_eq_false in C5. apply (FB _ _ _ A4).
       destruct (at_token_rest _ _ _ _ _ A4 C5) as [rest5' ->].
       apply keyOf_long. rewrite S4. simpl. lia. }
  apply bool_decide_eq_true in C5.
  pose proof (at_token_eof _ _ _ _ _ A4 C5) as R4. subst rest4.
  rewrite (keyOf_ok _ _ _ _ _ _ _ _ _ _ S4 C1 C2t C2x C3).
  unfold onSelect. rewrite (at_query _ _ _ _ _ A4), Hq0.
  eexists. split; [reflexivity|].
  psimpl. unfold setSelect, withKey. f_equal. f_equal.
  rewrite P3, P2, P1.
  destruct (bool_decide (ptoken p3 = TokenLiteral)) eqn:C4l; [reflexivity|].
  simpl in C4. rewrite C4. reflexivity.
Qed.

End Select.
End select_facts.

(** ** The statements that Parse returns *)

Module top_facts.
Import gostr lex parse parse_defs lex_facts parse_facts parse_inv parse_inv2 select_defs select_facts lex_defs top_defs.

Section Top.
Context `{Quoting}.

Lemma selectExpectIdent_inv p0 p u p' :
  in_select p0 p -> selectExpectIdent p = Ok u p' -> in_select p0 p'.
Proof.
  intros [Hw Hs Hi Hl Hp Hf (sq & Hq & Hwc & Hk)] E. unfold selectExpectIdent in E.
  minv. notph. qresolve.
  constructor; auto.
  - congruence.
  - rewrite Hlex by assumption. assumption.
  - congruence.
  - rewrite Hq0. unfold notSelect. psimpl. exact Hf.
  - eexists. rewrite Hq0. psimpl. split; [reflexivity|]. psimpl.
    assert (s = sq) by congruence. subst s. auto.
Qed.

Lemma selectColumnListLoop_inv fuel : forall p0 p u p',
  in_select p0 p -> selectColumnListLoop fuel p = Ok u p' -> in_select p0 p'.
Proof.
  induction fuel as [|fuel IH]; intros p0 p u p' I E; simpl in E; [discriminate|].
  destruct (String.eqb (ptext p) ",") eqn:Ec.
  - apply bind_inv in E as (b & p1 & E1 & E).
    apply bind_inv in E as (u2 & p2 & E2 & E).
    assert (I1 : in_select p0 p1).
    { destruct I as [Hw Hs Hi Hl Hp Hf (sq & Hq & Hwc & Hk)].
      minv. notph. constructor; auto.
      - congruence.
      - rewrite Hlex by assumption. assumption.
      - congruence.
      - rewrite Hq0. exact Hf.
      - exists sq. rewrite Hq0. auto. }
    apply (selectExpectIdent_inv _ _ _ _ I1) in E2.
    exact (IH _ _ _ _ E2 E).
  - inversion E; subst. exact I.
Qed.

Lemma parseSelectColumnList_inv p0 p u p' :
  in_select p0 p -> parseSelectColumnList p = Ok u p' -> in_select p0 p'.
Proof.
  intros I E. unfold parseSelectColumnList in E.
  apply bind_inv in E as (u1 & p1 & E1 & E).
  apply (selectExpectIdent_inv _ _ _ _ I) in E1.
  exact (selectColumnListLoop_inv _ _ _ _ _ E1 E).
Qed.

Lemma parseSelectFromClause_inv p0 p u p' :
  in_select p0 p -> parseSelectFromClause p = Ok u p' -> in_select p0 p'.
Proof.
  intros [Hw Hs Hi Hl Hp Hf (sq & Hq & Hwc & Hk)] E. unfold parseSelectFromClause in E.
  minv. notph. qresolve.
  constructor; auto.
  - congruence.
  - rewrite Hlex, Hlex0 by congruence. assumption.
  - congruence.
  - rewrite Hq0. unfold notSelect. psimpl. exact Hf.
  - eexists. rewrite Hq0. psimpl. split; [reflexivity|]. psimpl.
    assert (s = sq) by congruence. subst s. auto.
Qed.

(** The statement after a successful [parseSelect]: the key and the
    where clause come from the tokens after the from clause. *)
Lemma parseSelect_inv p u p' :
  wf p -> IgnoreWhiteSpace (lexer p) = true -> lexemes p = [] ->
  (String.eqb (ToLower (ptext p)) "select" || String.eqb (ToLower (ptext p)) "consistent")%bool = true ->
  parseSelect p = Ok u p' ->
  notSelect (query p') = notSelect (query p) /\
  exists pw sq,
    in_select p pw /\
    Select (query pw) = Some sq /\
    let toks := tailTokens (setIgnoreWhiteSpace false (lexer pw)) in
    Select (query p') =
      Some (match keyOf (placeholderIndex p) toks with
            | Some k => withKey sq k
            | None => withWhere sq (tailLexemes [] toks)
            end).
Proof.
  intros Hw Hi Hl Hkw E. unfold parseSelect in E.
  apply bind_inv in E as (u1 & p1 & E1 & E).
  apply bind_inv in E as (u2 & p2 & E2 & E).
  apply bind_inv in E as (u3 & p3 & E3 & E).
  apply bind_inv in E as (u4 & p4 & E4 & E).
  apply bind_inv in E as (u5 & p5 & E5 & E).
  assert (I3 : in_select p p3).
  { unfold newSelect in E1. inversion E1; subst; clear E1.
    destruct (String.eqb (ptext _) "consistent") eqn:Ec in E2.
    - pstate. minv. qresolve. notph.
      assert (N1 : ptoken p <> TokenPlaceholder).
      { apply (wf_not_placeholder_eqb p "consistent"); auto. }
      constructor; auto.
      + congruence.
      + rewrite Hlex, Hlex0 by congruence. assumption.
      + congruence.
      + rewrite Hq. reflexivity.
      + eexists. rewrite Hq. psimpl. eauto.
    - inversion E2; subst; clear E2. pstate.
      assert (N1 : ptoken p <> TokenPlaceholder).
      { apply orb_true_iff in Hkw as [Hkw|Hkw].
        - apply (wf_not_placeholder_lower p "select"); auto.
        - apply (wf_not_placeholder_lower p "consistent"); auto. }
      minv. rewrite (bool_decide_false _ N1) in *. pstate.
      constructor; auto.
      + congruence.
      + rewrite Hlex by assumption. assumption.
      + rewrite Hq. reflexivity.
      + eexists. rewrite Hq. psimpl. eauto. }
  apply (parseSelectColumnList_inv _ _ _ _ I3) in E4.
  apply (parseSelectFromClause_inv _ _ _ _ E4) in E5.
  pose proof E5 as [Hw5 Hs5 Hi5 Hl5 Hp5 Hf5 (sq & Hq5 & Hwc5 & Hk5)].
  destruct (parseSelectWhereClause_spec p5 sq Hw5 Hs5 Hq5) as (pf & Ef & Hqf).
  rewrite E in Ef. inversion Ef; subst pf. clear Ef.
  split.
  - rewrite Hqf. unfold setSelect, notSelect. psimpl. exact Hf5.
  - exists p5, sq. split; [assumption|]. split; [assumption|].
    cbv zeta. rewrite Hqf. unfold setSelect. psimpl. rewrite Hp5, Hl5. reflexivity.
Qed.

Lemma parseCreateTable_fields p u p' :
  parseCreateTable p = Ok u p' ->
  DropTable (query p') = DropTable (query p) /\ exists c, CreateTable (query p') = Some c.
Proof.
  intros E. unfold parseCreateTable in E.
  repeat (apply bind_inv in E as (? & ? & ? & E)).
  unfold setCreateTable in *. minv. split; [frame_tac|].
  eexists. frame_tac.
Qed.

Lemma parseDropTable_fields p u p' :
  parseDropTable p = Ok u p' ->
  CreateTable (query p') = CreateTable (query p) /\ exists c, DropTable (query p') = Some c.
Proof.
  intros E. unfold parseDropTable in E.
  repeat (apply bind_inv in E as (? & ? & ? & E)).
  unfold setDropTable in *. minv. split; [frame_tac|].
  eexists. frame_tac.
Qed.

Lemma newParser_next text : exists b p, next (newParser text) = Ok b p /\ at_start p.
Proof.
  destruct (next_spec (newParser text)) as (p & E & Hs & Hw & Hq & Hp & _ & Hi & Hl).
  eexists _, p. split; [exact E|].
  constructor; auto.
Qed.

Lemma keyOf_numbered n toks k :
  keyOf n toks = Some k ->
  exists m, numbered n [keySrc k] m.
Proof.
  unfold keyOf. intros E.
  destruct (List.filter significant toks) as [|[t1 w] [|[t2 i] [|[t3 e] [|[t4 v] [|]]]]];
    try discriminate.
  destruct (_ && _)%bool; [|discriminate].
  destruct (bool_decide (t4 = TokenLiteral)).
  - inversion E; subst. exists n. reflexivity.
  - destruct (bool_decide (t4 = TokenPlaceholder)); [|discriminate].
    inversion E; subst. exists (n + 1)%Z. simpl. auto.
Qed.

Lemma dispatch_parsed p u p' :
  at_start p -> dispatch p = Ok u p' -> parsed (query p').
Proof.
  intros [Hw Hi Hl Hp Hq] E. unfold dispatch in E. cbv zeta in E.
  destruct (_ || _)%bool eqn:Ks in E.
  { apply parseSelect_inv in E as (F & pw & sq & I & Hsq & Hsel); auto.
    destruct I as [_ _ _ _ _ _ (sq' & Hsq' & Hwc & Hk)].
    assert (sq' = sq) by congruence. subst sq'.
    rewrite Hq in F. unfold notSelect, zeroQuery in F. psimpl.
    cbv zeta in Hsel. rewrite Hp in Hsel.
    destruct (query p') as [s i up d c dr]. psimpl.
    inversion F; subst. unfold parsed.
    destruct (keyOf 0 _) as [k|] eqn:Ek.
    - right. unfold withKey. psimpl. split; [assumption|].
      exists k. split; [reflexivity|]. apply (keyOf_numbered _ _ _ Ek).
    - left. unfold withWhere. psimpl. assumption. }
  destruct (String.eqb _ "update") eqn:Ku in E.
  { apply parseUpdate_inv in E as (F & q & Hu & Hups & Hn); auto.
    rewrite Hq in F. unfold notUpdate, zeroQuery in F. rewrite Hp in Hn.
    destruct (query p') as [s i up d c dr]. psimpl.
    inversion F; subst. unfold parsed. eauto. }
  destruct (String.eqb _ "insert") eqn:Ki in E.
  { apply parseInsert_inv in E as (F & q & cols & c & Hu & Hid & Hc & Hk & Hn); auto.
    rewrite Hq in F. unfold notInsert, zeroQuery in F. rewrite Hp in Hn.
    destruct (query p') as [s i up d c' dr]. psimpl.
    inversion F; subst. unfold parsed. eauto 10. }
  destruct (String.eqb _ "delete") eqn:Kd in E.
  { apply parseDelete_inv in E as (F & q & Hu & Hn); auto.
    rewrite Hq in F. unfold notDelete, zeroQuery in F. rewrite Hp in Hn.
    destruct (query p') as [s i up d c' dr]. psimpl.
    inversion F; subst. unfold parsed. eauto. }
  destruct (String.eqb _ "create") eqn:Kc in E.
  { pose proof (parseCreateTable_inv _ _ _ E) as F.
    apply parseCreateTable_fields in E as (Hd & c & Hc).
    rewrite Hq in F, Hd. unfold notCreateDrop, zeroQuery in F, Hd.
    destruct (query p') as [s i up d c' dr]. psimpl.
    inversion F; subst. exact I. }
  destruct (String.eqb _ "drop") eqn:Kdr in E.
  { pose proof (parseDropTable_inv _ _ _ E) as F.
    apply parseDropTable_fields in E as (Hd & c & Hc).
    rewrite Hq in F, Hd. unfold notCreateDrop, zeroQuery in F, Hd.
    destruct (query p') as [s i up d c' dr]. psimpl.
    inversion F; subst. exact I. }
  destruct (bool_decide _); discriminate.
Qed.

(** Every statement that [Parse] returns has one of the six shapes. *)
Lemma Parse_parsed text q : Parse text = inr q -> parsed q.
Proof.
  unfold Parse, parse. intros E.
  destruct (newParser_next text) as (b & p & En & Hs).
  unfold bind in E. rewrite En in E.
  destruct (dispatch p) as [u p'|f] eqn:Ed; [|discriminate].
  inversion E; subst. exact (dispatch_parsed _ _ _ Hs Ed).
Qed.

End Top.
End top_facts.

(** ** Parse returns on every text *)

Module parse_total.
Import gostr lex parse parse_defs lex_facts parse_facts parse_inv parse_inv2 select_defs select_facts top_facts total_defs lex_defs top_defs.

Lemma keeps_bind Q {A B} (m : M A) (k : A -> M B) :
  keeps Q m -> (forall a, keeps Q (k a)) -> keeps Q (bind m k).
Proof.
  intros Hm Hk p HQ. destruct (Hm p HQ) as [Rm Pm]. unfold bind.
  destruct (m p) as [a p1|f] eqn:E.
  - destruct (Pm a p1 eq_refl) as [Q1 L1]. destruct (Hk a p1 Q1) as [Rk Pk].
    split; [exact Rk|]. intros b p' E'. destruct (Pk b p' E') as [Q2 L2].
    split; [exact Q2|lia].
  - split; [exact Rm|]. intros b p' E'. discriminate E'.
Qed.

Lemma returns_bind Q {A B} (m : M A) (k : A -> M B) p :
  keeps Q m -> Q (query p) ->
  (forall a p1, m p = Ok a p1 -> Q (query p1) -> returns (k a p1)) ->
  returns (bind m k p).
Proof.
  intros Hm HQ Hk. destruct (Hm p HQ) as [Rm Pm]. unfold bind.
  destruct (m p) as [a p1|f] eqn:E; [|exact Rm].
  apply Hk; [reflexivity|]. apply (Pm a p1 eq_refl).
Qed.

Lemma keeps_ret Q {A} (a : A) : keeps Q (ret a).
Proof.
  intros p HQ. split; [exact I|]. intros b p' E. inversion E; subst. auto.
Qed.

Lemma keeps_pure Q {A} (f : parser -> A) : keeps Q (fun p => Ok (f p) p).
Proof.
  intros p HQ. split; [exact I|]. intros b p' E. inversion E; subst. auto.
Qed.

Lemma keeps_next Q : keeps Q next.
Proof.
  intros p HQ. destruct (next_spec p) as (p' & E & _ & _ & Hq & _ & Hr & _).
  rewrite E. split; [exact I|]. intros b p'' E'. inversion E'; subst.
  rewrite Hq. split; [exact HQ|lia].
Qed.

Lemma keeps_expect Q toks : keeps Q (expect toks).
Proof.
  intros p HQ. unfold expect. destruct (existsb _ toks); split; try exact I;
    intros b p' E; inversion E; subst; auto.
Qed.

Lemma keeps_expectText Q text : keeps Q (expectText text).
Proof.
  intros p HQ. unfold expectText. destruct (negb _); split; try exact I;
    intros b p' E; inversion E; subst; auto.
Qed.

Lemma keeps_expectEOF Q : keeps Q expectEOF.
Proof.
  intros p HQ. unfold expectEOF. destruct (negb _); split; try exact I;
    intros b p' E; inversion E; subst; auto.
Qed.

Lemma keeps_errorf Q {A} msg : keeps Q (@errorf A msg).
Proof. intros p HQ. split; [exact I|]. intros b p' E. discriminate E. Qed.

Lemma keeps_cond Q {A} (c : parser -> bool) (m1 m2 : M A) :
  keeps Q m1 -> keeps Q m2 -> keeps Q (fun p => if c p then m1 p else m2 p).
Proof. intros H1 H2 p HQ. destruct (c p); auto. Qed.

Lemma keeps_onSelect f : keeps hasSelect (onSelect f).
Proof.
  intros p [s Hs]. unfold onSelect. rewrite Hs. split; [exact I|].
  intros b p' E. inversion E; subst. split; [eexists; reflexivity|reflexivity].
Qed.

Lemma keeps_onInsert f : keeps hasInsert (onInsert f).
Proof.
  intros p [s Hs]. unfold onInsert. rewrite Hs. split; [exact I|].
  intros b p' E. inversion E; subst. split; [eexists; reflexivity|reflexivity].
Qed.

Lemma keeps_onUpdate f : keeps hasUpdate (onUpdate f).
Proof.
  intros p [s Hs]. unfold onUpdate. rewrite Hs. split; [exact I|].
  intros b p' E. inversion E; subst. split; [eexists; reflexivity|reflexivity].
Qed.

Lemma keeps_onDelete f : keeps hasDelete (onDelete f).
Proof.
  intros p [s Hs]. unfold onDelete. rewrite Hs. split; [exact I|].
  intros b p' E. inversion E; subst. split; [eexists; reflexivity|reflexivity].
Qed.

(** Compose the facts of the steps of a parser function. *)
Ltac keeps_step :=
  first
    [ apply keeps_next | apply keeps_expect | apply keeps_expectText
    | apply keeps_expectEOF | apply keeps_ret | apply keeps_errorf
    | apply keeps_onSelect | apply keeps_onInsert | apply keeps_onUpdate
    | apply keeps_onDelete | apply keeps_pure
    | apply keeps_bind; [|intros ?] ].

Ltac keeps_tac := repeat keeps_step.

Ltac failed R := split; [exact R|intros ? ? E0; cbv beta iota in E0; discriminate E0].

Lemma next_eof p b p' :
  remaining p = 0 -> next p = Ok b p' -> ptoken p' = TokenEOF.
Proof.
  unfold next, withFuel. intros Hr.
  set (p1 := if bool_decide (ptoken p = TokenPlaceholder)
             then setPlaceholderIndex (placeholderIndex p + 1) p else p).
  assert (R1 : remaining p1 = 0) by (subst p1; destruct (bool_decide _); exact Hr).
  destruct (scan_fields p1) as (_ & _ & _ & _ & _ & He & _ & _).
  specialize (He R1). cbn [Nat.add nextLoop].
  rewrite He. rewrite !bool_decide_false by discriminate.
  intros E. inversion E; subst. exact He.
Qed.

(** A loop over a list separated by commas ends within the bound that
    [withFuel] gives it: every turn reads a comma and then an identifier. *)
Lemma keeps_commaLoop Q {A} (body : A -> M A) (loop : nat -> A -> M A) :
  (forall fuel a p,
     loop (S fuel) a p =
       if String.eqb (ptext p) ","
       then (next ;; a' <- body a ;; loop fuel a') p else Ok a p) ->
  (forall a, keeps Q (body a)) ->
  (forall a p b p', body a p = Ok b p' -> ptoken p = TokenIdent) ->
  forall fuel a p,
    Q (query p) -> remaining p + 2 <= fuel ->
    returns (loop fuel a p) /\
    forall b p', loop fuel a p = Ok b p' -> Q (query p') /\ remaining p' <= remaining p.
Proof.
  intros Hloop Hbody Hident.
  induction fuel as [|fuel IH]; intros a p HQ Hf; [lia|]. rewrite Hloop.
  destruct (String.eqb (ptext p) ",");
    [|split; [exact I|]; intros b p' E; inversion E; subst; auto].
  unfold bind. destruct (keeps_next Q p HQ) as [Rn Pn].
  destruct (next p) as [b1 p1|f] eqn:En; [|failed Rn].
  destruct (Pn b1 p1 eq_refl) as [Q1 L1].
  destruct (Hbody a p1 Q1) as [Rb Pb].
  destruct (body a p1) as [a2 p2|f] eqn:Eb; [|failed Rb].
  destruct (Pb a2 p2 eq_refl) as [Q2 L2].
  assert (Hpos : remaining p <> 0).
  { intros Hz. pose proof (next_eof _ _ _ Hz En) as He.
    apply Hident in Eb. congruence. }
  pose proof (next_inv _ _ _ En) as (_ & _ & _ & _ & Hr1 & _).
  destruct (IH a2 p2 Q2) as [R3 P3]; [lia|].
  split; [exact R3|]. intros b p' E. destruct (P3 b p' E) as [Q3 L3]. split; [exact Q3|lia].
Qed.

Section Returns.
Context `{Quoting}.

(** *** select *)

Lemma keeps_selectExpectIdent : keeps hasSelect selectExpectIdent.
Proof. unfold selectExpectIdent. keeps_tac. Qed.

Lemma selectExpectIdent_ident p u p' :
  selectExpectIdent p = Ok u p' -> ptoken p = TokenIdent.
Proof.
  unfold selectExpectIdent. intros E. apply bind_inv in E as (a & p1 & E1 & _).
  apply expect_inv in E1 as [_ [Hi|[]]]. auto.
Qed.

Lemma keeps_selectColumnListLoop fuel p :
  hasSelect (query p) -> remaining p + 2 <= fuel ->
  returns (selectColumnListLoop fuel p) /\
  forall a p', selectColumnListLoop fuel p = Ok a p' ->
    hasSelect (query p') /\ remaining p' <= remaining p.
Proof.
  apply (keeps_commaLoop hasSelect (fun _ => selectExpectIdent)
           (fun fuel _ => selectColumnListLoop fuel)
           (fun _ u _ => match u with tt => eq_refl end)
           (fun _ => keeps_selectExpectIdent)
           (fun _ => selectExpectIdent_ident) fuel tt p).
Qed.

Lemma keeps_parseSelectColumnList : keeps hasSelect parseSelectColumnList.
Proof.
  unfold parseSelectColumnList. apply keeps_bind; [apply keeps_selectExpectIdent|].
  intros _ p HQ. unfold withFuel. apply keeps_selectColumnListLoop; [exact HQ|lia].
Qed.

Lemma keeps_parseSelectFromClause : keeps hasSelect parseSelectFromClause.
Proof. unfold parseSelectFromClause. keeps_tac. Qed.

Lemma parseSelectFromClause_settled p u p' :
  parseSelectFromClause p = Ok u p' -> wf p' /\ settled p'.
Proof. unfold parseSelectFromClause. intros E. minv. auto. Qed.

Lemma parseSelectWhereClause_returns p :
  wf p -> settled p -> hasSelect (query p) -> returns (parseSelectWhereClause p).
Proof.
  intros Hw Hs [sq Hq].
  destruct (parseSelectWhereClause_spec p sq Hw Hs Hq) as (p' & E & _).
  rewrite E. exact I.
Qed.

Lemma parseSelect_returns p : returns (parseSelect p).
Proof.
  unfold parseSelect. unfold bind at 1. unfold newSelect at 1.
  set (p1 := setQuery _ p).
  assert (Q1 : hasSelect (query p1)) by (eexists; reflexivity).
  apply (returns_bind hasSelect); [|exact Q1|].
  { apply (keeps_cond hasSelect (fun p => String.eqb (ptext p) "consistent")
             (onSelect (fun _ s =>
                 mkSelectQuery true (ColumnNames s) (SelTableName s) (WhereClause s)
                   (SelKey s)) ;; next ;; expectText "select") (ret tt)); keeps_tac. }
  intros _ p2 _ Q2. apply (returns_bind hasSelect); [apply keeps_next|exact Q2|].
  intros _ p3 _ Q3.
  apply (returns_bind hasSelect); [apply keeps_parseSelectColumnList|exact Q3|].
  intros _ p4 _ Q4.
  apply (returns_bind hasSelect); [apply keeps_parseSelectFromClause|exact Q4|].
  intros u p5 E5 Q5. apply parseSelectFromClause_settled in E5 as [Hw Hs].
  apply parseSelectWhereClause_returns; assumption.
Qed.

(** *** update *)

Lemma keeps_parseUpdateColumn : keeps hasUpdate parseUpdateColumn.
Proof. unfold parseUpdateColumn. keeps_tac. Qed.

Lemma parseUpdateColumn_ident p u p' :
  parseUpdateColumn p = Ok u p' -> ptoken p = TokenIdent.
Proof.
  unfold parseUpdateColumn. intros E. apply bind_inv in E as (a & p1 & E1 & _).
  apply expect_inv in E1 as [_ [Hi|[]]]. auto.
Qed.

Lemma keeps_parseUpdateColumns : keeps hasUpdate parseUpdateColumns.
Proof.
  unfold parseUpdateColumns. apply keeps_bind; [apply keeps_parseUpdateColumn|].
  intros _ p HQ. unfold withFuel.
  apply (keeps_commaLoop hasUpdate (fun _ => parseUpdateColumn)
           (fun fuel _ => updateColumnsLoop fuel)
           (fun _ u _ => match u with tt => eq_refl end)
           (fun _ => keeps_parseUpdateColumn)
           (fun _ => parseUpdateColumn_ident) _ tt p); [exact HQ|lia].
Qed.

Lemma keeps_parseUpdateWhere : keeps hasUpdate parseUpdateWhere.
Proof. unfold parseUpdateWhere. keeps_tac. Qed.

Lemma parseUpdate_returns p : returns (parseUpdate p).
Proof.
  unfold parseUpdate. unfold bind at 1. unfold newUpdate at 1.
  set (p1 := setQuery _ p).
  assert (Q1 : hasUpdate (query p1)) by (eexists; reflexivity).
  refine (proj1 ((_ : keeps hasUpdate _) p1 Q1)).
  repeat first [ apply keeps_parseUpdateColumns | apply keeps_parseUpdateWhere | keeps_step ].
Qed.

(** *** insert *)

Lemma keeps_insertExpectIdent columns : keeps hasInsert (insertExpectIdent columns).
Proof. unfold insertExpectIdent. keeps_tac. Qed.

Lemma insertExpectIdent_ident columns p cols p' :
  insertExpectIdent columns p = Ok cols p' -> ptoken p = TokenIdent.
Proof.
  unfold insertExpectIdent. intros E. apply bind_inv in E as (a & p1 & E1 & _).
  apply expect_inv in E1 as [_ [Hi|[]]]. auto.
Qed.

Lemma keeps_parseInsertColumnList : keeps hasInsert parseInsertColumnList.
Proof.
  unfold parseInsertColumnList. apply keeps_bind; [apply keeps_insertExpectIdent|].
  intros columns. apply keeps_bind; [|intros ?; apply keeps_onInsert].
  intros p HQ. unfold withFuel.
  apply (keeps_commaLoop hasInsert insertExpectIdent insertColumnListLoop
           (fun _ _ _ => eq_refl) keeps_insertExpectIdent
           insertExpectIdent_ident _ columns p); [exact HQ|lia].
Qed.

Lemma keeps_insertValuesLoop todo : forall done,
  keeps hasInsert (insertValuesLoop done todo).
Proof.
  induction todo as [|col todo IH]; intros done; simpl; [apply keeps_ret|].
  apply keeps_bind; [destruct done; keeps_tac|]. intros _.
  repeat first [ apply IH | keeps_step ].
Qed.

Lemma stripID_fails cols : forall haveKey key columns f,
  stripID cols haveKey key columns = inl f -> exists msg, f = Errorf msg.
Proof.
  induction cols as [|c cols IH]; intros haveKey key columns f E; simpl in E;
    [discriminate|].
  destruct (IsID (ColumnName c)); [destruct haveKey|]; eauto.
  inversion E. eauto.
Qed.

Lemma keeps_parseInsertValueList : keeps hasInsert parseInsertValueList.
Proof.
  intros p HQ. unfold parseInsertValueList. destruct HQ as [q Hq]. rewrite Hq.
  revert p Hq. refine (fun p Hq => (_ : keeps hasInsert _) p (ex_intro _ q Hq)).
  apply keeps_bind; [apply keeps_insertValuesLoop|]. intros cols.
  apply keeps_bind; [apply keeps_onInsert|]. intros _.
  intros p2 [q2 Hq2]. rewrite Hq2.
  destruct (stripID _ _ _ _) as [f|[[haveKey key] columns]] eqn:Es.
  - apply stripID_fails in Es as [msg ->]. split; [exact I|]. intros ? ? E0. discriminate E0.
  - refine ((_ : keeps hasInsert _) p2 (ex_intro _ q2 Hq2)).
    apply keeps_bind; [apply keeps_onInsert|]. intros _.
    destruct (negb haveKey); keeps_tac.
Qed.

Lemma parseInsert_returns p : returns (parseInsert p).
Proof.
  unfold parseInsert. unfold bind at 1. unfold newInsert at 1.
  set (p1 := setQuery _ p).
  assert (Q1 : hasInsert (query p1)) by (eexists; reflexivity).
  refine (proj1 ((_ : keeps hasInsert _) p1 Q1)).
  apply keeps_bind; [apply keeps_next|]. intros _.
  apply keeps_bind.
  { apply (keeps_cond hasInsert (fun p => EqualFold (ptext p) "into")
             (next ;; ret tt) (ret tt)); keeps_tac. }
  intros _.
  repeat first [ apply keeps_parseInsertColumnList | apply keeps_parseInsertValueList
               | keeps_step ].
Qed.

(** *** delete *)

Lemma keeps_parseDeleteWhere : keeps hasDelete parseDeleteWhere.
Proof. unfold parseDeleteWhere. keeps_tac. Qed.

Lemma parseDelete_returns p : returns (parseDelete p).
Proof.
  unfold parseDelete. unfold bind at 1. unfold newDelete at 1.
  set (p1 := setQuery _ p).
  assert (Q1 : hasDelete (query p1)) by (eexists; reflexivity).
  refine (proj1 ((_ : keeps hasDelete _) p1 Q1)).
  apply keeps_bind; [apply keeps_next|]. intros _.
  apply keeps_bind.
  { apply (keeps_cond hasDelete (fun p => String.eqb (ToLower (ptext p)) "from")
             (next ;; ret tt) (ret tt)); keeps_tac. }
  intros _.
  repeat first [ apply keeps_parseDeleteWhere | keeps_step ].
Qed.

(** *** create table, drop table *)

Lemma keeps_setCreateTable (f : parser -> CreateTableQuery) :
  keeps (fun _ => True) (fun p => setCreateTable (f p) p).
Proof.
  intros p _. split; [exact I|]. intros a p' E. inversion E; subst. auto.
Qed.

Lemma keeps_setDropTable (f : parser -> DropTableQuery) :
  keeps (fun _ => True) (fun p => setDropTable (f p) p).
Proof.
  intros p _. split; [exact I|]. intros a p' E. inversion E; subst. auto.
Qed.

Lemma parseCreateTable_returns p : returns (parseCreateTable p).
Proof.
  refine (proj1 ((_ : keeps (fun _ => True) parseCreateTable) p I)).
  unfold parseCreateTable.
  apply keeps_bind; [apply (keeps_setCreateTable (fun _ => mkCreateTableQuery ""))|].
  intros _. do 4 (apply keeps_bind; [keeps_step|intros _]).
  apply keeps_bind;
    [apply (keeps_setCreateTable (fun p => mkCreateTableQuery (Unquote (ptext p))))|].
  intros _. keeps_tac.
Qed.

Lemma parseDropTable_returns p : returns (parseDropTable p).
Proof.
  refine (proj1 ((_ : keeps (fun _ => True) parseDropTable) p I)).
  unfold parseDropTable.
  apply keeps_bind; [apply (keeps_setDropTable (fun _ => mkDropTableQuery ""))|].
  intros _. do 4 (apply keeps_bind; [keeps_step|intros _]).
  apply keeps_bind;
    [apply (keeps_setDropTable (fun p => mkDropTableQuery (Unquote (ptext p))))|].
  intros _. keeps_tac.
Qed.

(** *** the entry point *)

Lemma dispatch_returns p : returns (dispatch p).
Proof.
  unfold dispatch. cbv zeta.
  destruct (_ || _)%bool; [apply parseSelect_returns|].
  destruct (String.eqb _ "update"); [apply parseUpdate_returns|].
  destruct (String.eqb _ "insert"); [apply parseInsert_returns|].
  destruct (String.eqb _ "delete"); [apply parseDelete_returns|].
  destruct (String.eqb _ "create"); [apply parseCreateTable_returns|].
  destruct (String.eqb _ "drop"); [apply parseDropTable_returns|].
  destruct (bool_decide _); exact I.
Qed.

(** X1: [Parse] returns for every text: a statement, or the error of a call
    of [errorf].  The bounds of the loops of the model are never reached
    and no statement pointer is used before it is set. *)
Theorem Parse_returns text :
  (exists q, Parse text = inr q) \/ (exists msg, Parse text = inl (Errorf msg)).
Proof.
  unfold Parse, parse, bind.
  destruct (next_spec (newParser text)) as (p & E & _). rewrite E.
  pose proof (dispatch_returns p) as R.
  destruct (dispatch p) as [u p'|[msg| |]]; simpl in R; try contradiction; eauto.
Qed.

End Returns.
End parse_total.

(** ** The executor: delete, insert and update *)

Module exec_facts.
Import gostr lex parse driver sdb parse_inv parse_inv2 top_facts exec_defs parse_defs top_defs.

Section Exec.
Context `{Quoting} `{Codec}.

Ltac shape q :=
  destruct q as [[?|] [?|] [?|] [?|] [?|] [?|]]; simpl in *;
  try contradiction; try discriminate.

Lemma ExecContext_insert api pf c text args q ins :
  Parse text = inr q -> Insert q = Some ins ->
  ExecContext api pf c text args = insertRow api c ins args.
Proof.
  intros E Hi. pose proof (Parse_parsed _ _ E) as P.
  unfold ExecContext. rewrite E. shape q. congruence.
Qed.

Lemma ExecContext_update api pf c text args q upd :
  Parse text = inr q -> Update q = Some upd ->
  ExecContext api pf c text args = updateRow api pf c upd args.
Proof.
  intros E Hi. pose proof (Parse_parsed _ _ E) as P.
  unfold ExecContext. rewrite E. shape q. congruence.
Qed.

Lemma ExecContext_delete api pf c text args q del :
  Parse text = inr q -> Delete q = Some del ->
  ExecContext api pf c text args = deleteRow api c del args.
Proof.
  intros E Hi. pose proof (Parse_parsed _ _ E) as P.
  unfold ExecContext. rewrite E. shape q. congruence.
Qed.

Lemma encodeColumns_puts cols args : forall puts dels p d,
  encodeColumns cols args puts dels = Return (p, d) ->
  exists p' d', p = puts ++ p' /\ d = dels ++ d'.
Proof.
  induction cols as [|col cols IH]; intros puts dels p d E; simpl in E.
  - inversion E; subst. exists [], []. rewrite !app_nil_r. auto.
  - destruct (GetValue col args) as [v| |]; simpl in E; try discriminate.
    destruct (encodeColumn (ColumnName col) v) as [[p1 d1]| |]; simpl in E; try discriminate.
    apply IH in E as (p' & d' & -> & ->).
    exists (p1 ++ p'), (d1 ++ d'). rewrite !app_assoc. auto.
Qed.

Lemma newPutDeleteInputs_inv c t cols key args put del :
  newPutDeleteInputs c t cols key args = Return (put, del) ->
  exists item puts,
    Key_String key args = Return item /\
    put = mkPutAttributesInput (getDomainName c t) item
            (mkReplaceableAttribute "sql:id" true "string" :: puts) None /\
    DelDomainName del = getDomainName c t /\ DelItemName del = item /\
    DelExpected del = None /\
    encodeColumns cols args [mkReplaceableAttribute "sql:id" true "string"] [] =
      Return (mkReplaceableAttribute "sql:id" true "string" :: puts, DelAttributes del).
Proof.
  unfold newPutDeleteInputs. intros E.
  destruct (Key_String key args) as [item| |]; simpl in E; try discriminate.
  destruct (encodeColumns _ _ _ _) as [[p d]| |] eqn:Ec; simpl in E; try discriminate.
  inversion E; subst; clear E.
  destruct (encodeColumns_puts _ _ _ _ _ _ Ec) as (p' & d' & -> & ->).
  exists item, p'. simpl. repeat split; reflexivity.
Qed.

(** The requests and the outcome of [updateRow], once the key and the
    column values are resolved. *)
Lemma updateRow_spec api pf c upd args put0 del0 :
  newPutDeleteInputs c (UpdTableName upd) (UpdColumns upd) (UpdKey upd) args =
    Return (put0, del0) ->
  let expected := if Upsert upd then None else Some mustExist in
  let put := withPutExpected expected put0 in
  let del := withDelExpected expected del0 in
  let ranDel := (0 <? length (DelAttributes del0))%nat in
  let rp := PutAttributesWithContext api put in
  let rd := DeleteAttributesWithContext api del in
  let ep := surfaced rp "cannot put attributes" (PutItemName put0) in
  let ed := if ranDel then surfaced rd "cannot delete attributes" (DelItemName del0)
            else None in
  updateRow api pf c upd args =
    (if pf then ReqPut put :: (if ranDel then [ReqDelete del] else [])
     else (if ranDel then [ReqDelete del] else []) ++ [ReqPut put],
     match ep, ed with
     | None, None =>
         Return (newResult (if (completed rp || (ranDel && completed rd))%bool
                            then 1 else 0))
     | Some e, None => Error e
     | None, Some e => Error e
     | Some e1, Some e2 => Error (if pf then e1 else e2)
     end).
Proof.
  intros E. cbv zeta. unfold updateRow. rewrite E.
  apply newPutDeleteInputs_inv in E as (item & puts & _ & -> & _ & _ & _ & _).
  destruct del0 as [dd di [|da das] de];
  unfold withPutExpected, withDelExpected, mustExist, branch, surfaced, completed;
  cbn [PutAttributes PutItemName PutDomainName DelAttributes DelItemName DelDomainName
       length Nat.ltb Nat.leb];
  destruct (Upsert upd); cbn [negb];
  repeat match goal with
         | |- context [PutAttributesWithContext api ?i] =>
             destruct (PutAttributesWithContext api i) as [[]|]
         | |- context [DeleteAttributesWithContext api ?i] =>
             destruct (DeleteAttributesWithContext api i) as [[]|]
         end;
  unfold hasCode, isSDKError, attributeDoesNotExist; cbv iota;
  repeat match goal with
         | |- context [String.eqb ?a ?b] => destruct (String.eqb a b)
         end;
  destruct pf; reflexivity.
Qed.

(** C10: a delete statement whose key resolves and whose store call
    completes without error sends one delete request for the whole item and
    reports 0 rows affected, whatever the store held; no run of a delete
    statement reports another count. *)
Theorem delete_reports_zero_rows api pf c text args q del item :
  Parse text = inr q -> Delete q = Some del ->
  Key_String (DelKey del) args = Return item ->
  let input := mkDeleteAttributesInput (getDomainName c (DelTableName del)) item [] None in
  DeleteAttributesWithContext api input = None ->
  ExecContext api pf c text args = ([ReqDelete input], Return (newResult 0)) /\
  rowsAffected (newResult 0) = 0%Z /\
  forall api' pf' args' reqs r,
    ExecContext api' pf' c text args' = (reqs, Return r) -> rowsAffected r = 0%Z.
Proof.
  intros E Hd Hk input Hs. split; [|split; [reflexivity|]].
  - rewrite (ExecContext_delete _ _ _ _ _ _ _ E Hd). unfold deleteRow.
    rewrite Hk. fold input. rewrite Hs. reflexivity.
  - intros api' pf' args' reqs r Hr.
    rewrite (ExecContext_delete _ _ _ _ _ _ _ E Hd) in Hr. unfold deleteRow in Hr.
    destruct (Key_String (DelKey del) args'); try (inversion Hr; fail).
    destruct (DeleteAttributesWithContext api' _); inversion Hr. reflexivity.
Qed.

(** C3: an insert statement whose key and column values resolve sends one
    put request, with the precondition that [sql:id] does not exist.  When
    the store accepts the request the call reports exactly one row.  When
    the store answers with the [ConditionalCheckFailed] error of the SDK
    the call returns the duplicate-key error that names the domain and the
    item, and [DuplicateKey] is true of it.  Every other failure of the
    store is returned wrapped with the name of the item, and has no
    [DuplicateKey]. *)
Theorem insert_precondition_and_duplicate_key api pf c text args q ins put0 del0 :
  Parse text = inr q -> Insert q = Some ins ->
  newPutDeleteInputs c (InsTableName ins) (InsColumns ins) (InsKey ins) args =
    Return (put0, del0) ->
  let put := withPutExpected (Some mustNotExist) put0 in
  PutDomainName put0 = getDomainName c (InsTableName ins) /\
  Key_String (InsKey ins) args = Return (PutItemName put0) /\
  fst (ExecContext api pf c text args) = [ReqPut put] /\
  match PutAttributesWithContext api put with
  | None =>
      exists r, snd (ExecContext api pf c text args) = Return r /\ rowsAffected r = 1%Z
  | Some err =>
      exists e,
        snd (ExecContext api pf c text args) = Error e /\
        if isSDKError "ConditionalCheckFailed" err
        then e = DuplicateKeyError
                   ("cannot insert duplicate key table=" ++ fmtQ (PutDomainName put0)
                    ++ " itemName=" ++ fmtQ (PutItemName put0)) /\
             DuplicateKey e = Some true
        else e = Wrapped err "cannot put attributes" [("itemName", PutItemName put0)] /\
             DuplicateKey e = None
  end.
Proof.
  intros E Hi Hn put.
  rewrite (ExecContext_insert _ _ _ _ _ _ _ E Hi). unfold insertRow. rewrite Hn.
  apply newPutDeleteInputs_inv in Hn as (item & puts & Hk & -> & _).
  split; [reflexivity|]. split; [exact Hk|]. split; [reflexivity|].
  subst put. unfold withPutExpected, mustNotExist.
  cbn [fst snd PutDomainName PutItemName PutAttributes].
  destruct (PutAttributesWithContext api _) as [err|].
  - unfold hasCode, isSDKError, conditionalCheckFailed.
    destruct err as [m|code m|cause m fields|m]; cbv iota;
      try (eexists; split; [reflexivity|]; split; reflexivity).
    destruct (String.eqb "ConditionalCheckFailed" code);
      (eexists; split; [reflexivity|]; split; reflexivity).
  - eexists. split; reflexivity.
Qed.

(** C2: the outcome of an update whose key and column values resolve.  An
    answer of the store that is the [AttributeDoesNotExist] error of the SDK
    is not an error of the call, for the put and for the delete.  When no
    branch has another failure the call returns a result, whose row count
    is 1 if the put or the delete completed and 0 if none did; another
    failure of a branch is returned as the error of the call, wrapped with
    the name of the item, and then there is no row count. *)
Theorem update_row_count api pf c upd args put0 del0 :
  newPutDeleteInputs c (UpdTableName upd) (UpdColumns upd) (UpdKey upd) args =
    Return (put0, del0) ->
  let expected := if Upsert upd then None else Some mustExist in
  let ranDel := (0 <? length (DelAttributes del0))%nat in
  let rp := PutAttributesWithContext api (withPutExpected expected put0) in
  let rd := DeleteAttributesWithContext api (withDelExpected expected del0) in
  let ep := surfaced rp "cannot put attributes" (PutItemName put0) in
  let ed := if ranDel then surfaced rd "cannot delete attributes" (DelItemName del0)
            else None in
  match ep, ed with
  | None, None =>
      exists r,
        snd (updateRow api pf c upd args) = Return r /\
        rowsAffected r =
          (if (completed rp || (ranDel && completed rd))%bool then 1 else 0)%Z
  | Some e, None => snd (updateRow api pf c upd args) = Error e
  | None, Some e => snd (updateRow api pf c upd args) = Error e
  | Some e1, Some e2 => snd (updateRow api pf c upd args) = Error (if pf then e1 else e2)
  end.
Proof.
  intros E. cbv zeta. rewrite (updateRow_spec api pf c upd args put0 del0 E).
  cbn [snd].
  destruct (surfaced _ "cannot put attributes" _);
    destruct (if (0 <? length (DelAttributes del0))%nat then _ else _);
    try reflexivity.
  eexists. split; [reflexivity|]. unfold newResult. cbn [rowsAffected].
  destruct (_ || _)%bool; reflexivity.
Qed.

(** The requests of an update carry the existence precondition unless the
    statement has the upsert flag. *)
Lemma updateRow_requests api pf c upd args put0 del0 :
  newPutDeleteInputs c (UpdTableName upd) (UpdColumns upd) (UpdKey upd) args =
    Return (put0, del0) ->
  let expected := if Upsert upd then None else Some mustExist in
  Forall (fun req => match req with
                     | ReqPut i => PutExpected i = expected
                     | ReqDelete i => DelExpected i = expected
                     | _ => False
                     end) (fst (updateRow api pf c upd args)) /\
  In (ReqPut (withPutExpected expected put0)) (fst (updateRow api pf c upd args)).
Proof.
  intros E. cbv zeta. rewrite (updateRow_spec api pf c upd args put0 del0 E).
  cbn [fst]. destruct pf, (0 <? length (DelAttributes del0))%nat; simpl;
    (split; [repeat constructor|auto]).
Qed.

(** C1: the parser has no upsert statement.  The update of the driver's
    own test is refused with a syntax error, as is every text that starts
    with this keyword, and no text parses to an update statement with the
    upsert flag: every update that runs carries the precondition. *)
Theorem upsert_is_a_syntax_error :
  Parse "upsert temp_test_table1 set a = '' where id = ?" =
    inl (Errorf ("unexpected keyword " ++ String dquote ("upsert" ++ String dquote ""))) /\
  (forall rest, Parse ("upsert " ++ rest) = inl (Errorf ("unexpected keyword " ++ String dquote ("upsert" ++ String dquote "")))) /\
  (forall text q upd, Parse text = inr q -> Update q = Some upd -> Upsert upd = false).
Proof.
  split; [|split].
  - vm_compute. reflexivity.
  - intros rest. vm_compute. reflexivity.
  - intros text q upd E Hu. pose proof (Parse_parsed _ _ E) as P.
    shape q. destruct P as [P _]. congruence.
Qed.

(** X2: a nil argument for the key makes [Key.String] panic: the message of
    its last error is built from [vv.Type()], and [vv] is the zero
    [reflect.Value]. *)
Lemma nil_key_panics key args :
  KeyValue key = None -> (0 <= KeyOrdinal key)%Z ->
  nth_error args (Z.to_nat (KeyOrdinal key)) = Some VNil ->
  Key_String key args = Panic "reflect: call of reflect.Value.Type on zero Value".
Proof.
  intros Hv Hn Ha. unfold Key_String. rewrite Hv.
  assert (L : (KeyOrdinal key < Z.of_nat (length args))%Z).
  { assert (Z.to_nat (KeyOrdinal key) < length args)
      by (apply nth_error_Some; rewrite Ha; discriminate).
    lia. }
  replace (KeyOrdinal key <? 0)%Z with false by (symmetry; apply Z.ltb_ge; lia).
  replace (Z.of_nat (length args) <=? KeyOrdinal key)%Z with false
    by (symmetry; apply Z.leb_gt; lia).
  cbn [orb]. unfold index. rewrite Ha.
  replace (KeyOrdinal key <? 0)%Z with false by (symmetry; apply Z.ltb_ge; lia).
  reflexivity.
Qed.

Lemma ExecContext_drop api pf c text args q d :
  Parse text = inr q -> DropTable q = Some d ->
  ExecContext api pf c text args = dropTable api c d.
Proof.
  intros E Hi. pose proof (Parse_parsed _ _ E) as P.
  unfold ExecContext. rewrite E. shape q. congruence.
Qed.

(** X3: [dropTable] resolves the name of the domain twice: the domain it
    deletes is the one that the schema and the synonyms give for the
    domain name of the table. *)
Lemma drop_table_resolves_domain_twice api pf c text args q d :
  Parse text = inr q -> DropTable q = Some d ->
  fst (ExecContext api pf c text args) =
    [ReqDeleteDomain (getDomainName c (getDomainName c (DropTableName d)))].
Proof.
  intros E Hd. rewrite (ExecContext_drop _ _ _ _ _ _ _ E Hd). reflexivity.
Qed.

End Exec.

Lemma nil_key_panics_witness :
  @ExecContext lexquote.quoting exampleCodec emptyStore true noSchema
    "delete from t where id = ?" [VNil] =
    ([], Panic "reflect: call of reflect.Value.Type on zero Value").
Proof.
  assert (P : @Parse lexquote.quoting "delete from t where id = ?" =
              inr (mkQuery None None None (Some (mkDeleteQuery "t" (mkKey 0 None))) None None))
    by (vm_compute; reflexivity).
  rewrite (@ExecContext_delete lexquote.quoting exampleCodec emptyStore true noSchema
             "delete from t where id = ?" [VNil] _ _ P eq_refl).
  unfold deleteRow. cbn [DelKey].
  rewrite (@nil_key_panics exampleCodec (mkKey 0 None) [VNil] eq_refl);
    [reflexivity|simpl; lia|reflexivity].
Defined.

Lemma drop_table_resolves_domain_twice_witness :
  fst (@ExecContext lexquote.quoting exampleCodec emptyStore true (mkConn "app" ∅)
         "drop table t" []) = [ReqDeleteDomain "app.app.t"] /\
  fst (@ExecContext lexquote.quoting exampleCodec emptyStore true (mkConn "app" ∅)
         "create table t" []) = [ReqCreateDomain "app.t"].
Proof.
  split; [|vm_compute; reflexivity].
  assert (P : @Parse lexquote.quoting "drop table t" =
              inr (mkQuery None None None None None (Some (mkDropTableQuery "t"))))
    by (vm_compute; reflexivity).
  rewrite (@drop_table_resolves_domain_twice lexquote.quoting exampleCodec emptyStore true
             (mkConn "app" ∅) "drop table t" [] _ _ P eq_refl).
  vm_compute. reflexivity.
Defined.

Lemma delete_reports_zero_rows_witness :
  exists q del,
    @Parse lexquote.quoting "delete from t where id = ?" = inr q /\
    Delete q = Some del /\
    @Key_String exampleCodec (DelKey del) [VString "k"] = Return "k" /\
    @ExecContext lexquote.quoting exampleCodec emptyStore true noSchema
      "delete from t where id = ?" [VString "k"] =
      ([ReqDelete (mkDeleteAttributesInput "t" "k" [] None)], Return (newResult 0)).
Proof.
  eexists _, _.
  assert (P : @Parse lexquote.quoting "delete from t where id = ?" =
              inr (mkQuery None None None (Some (mkDeleteQuery "t" (mkKey 0 None))) None None))
    by (vm_compute; reflexivity).
  split; [exact P|]. split; [reflexivity|]. split; [reflexivity|].
  apply (@delete_reports_zero_rows lexquote.quoting exampleCodec emptyStore true noSchema
           "delete from t where id = ?" [VString "k"] _ _ "k" P eq_refl eq_refl eq_refl).
Defined.

Lemma insert_precondition_and_duplicate_key_witness :
  (exists e,
     snd (@ExecContext lexquote.quoting exampleCodec fullStore true noSchema
            "insert into t(id, a) values (?, ?)" [VString "k"; VInt64 7]) = Error e /\
     e = DuplicateKeyError
           ("cannot insert duplicate key table=" ++ fmtQ "t" ++ " itemName=" ++ fmtQ "k") /\
     DuplicateKey e = Some true) /\
  (exists r,
     snd (@ExecContext lexquote.quoting exampleCodec emptyStore true noSchema
            "insert into t(id, a) values (?, ?)" [VString "k"; VInt64 7]) = Return r /\
     rowsAffected r = 1%Z) /\
  (exists e,
     snd (@ExecContext lexquote.quoting exampleCodec downStore true noSchema
            "insert into t(id, a) values (?, ?)" [VString "k"; VInt64 7]) = Error e /\
     e = Wrapped (AWSError "ServiceUnavailable" "out of service") "cannot put attributes"
           [("itemName", "k")] /\
     DuplicateKey e = None).
Proof.
  assert (P : @Parse lexquote.quoting "insert into t(id, a) values (?, ?)" =
              inr (mkQuery None (Some (mkInsertQuery "t" [mkColumn "a" 1 None] (mkKey 0 None)))
                     None None None None))
    by (vm_compute; reflexivity).
  assert (N : @newPutDeleteInputs exampleCodec noSchema "t" [mkColumn "a" 1 None] (mkKey 0 None)
                [VString "k"; VInt64 7] =
              Return (mkPutAttributesInput "t" "k"
                        [mkReplaceableAttribute "sql:id" true "string";
                         mkReplaceableAttribute "sql:a" true "int64";
                         mkReplaceableAttribute "a" true "7"] None,
                      mkDeleteAttributesInput "t" "k" [] None))
    by (vm_compute; reflexivity).
  split; [|split].
  - exact (proj2 (proj2 (proj2
      (@insert_precondition_and_duplicate_key lexquote.quoting exampleCodec fullStore true
         noSchema "insert into t(id, a) values (?, ?)" [VString "k"; VInt64 7] _ _ _ _
         P eq_refl N)))).
  - exact (proj2 (proj2 (proj2
      (@insert_precondition_and_duplicate_key lexquote.quoting exampleCodec emptyStore true
         noSchema "insert into t(id, a) values (?, ?)" [VString "k"; VInt64 7] _ _ _ _
         P eq_refl N)))).
  - exact (proj2 (proj2 (proj2
      (@insert_precondition_and_duplicate_key lexquote.quoting exampleCodec downStore true
         noSchema "insert into t(id, a) values (?, ?)" [VString "k"; VInt64 7] _ _ _ _
         P eq_refl N)))).
Defined.

Lemma update_row_count_witness :
  let upd := mkUpdateQuery "t" [mkColumn "a" 0 None; mkColumn "b" 1 None] (mkKey 2 None)
               false in
  let args := [@VString exampleCodec "x"; VString ""; VString "k"] in
  (exists r, snd (@updateRow exampleCodec noItemStore true noSchema upd args) = Return r /\
             rowsAffected r = 0%Z) /\
  (exists r, snd (@updateRow exampleCodec emptyStore true noSchema upd args) = Return r /\
             rowsAffected r = 1%Z) /\
  snd (@updateRow exampleCodec downStore true noSchema upd args) =
    Error (Wrapped (AWSError "ServiceUnavailable" "out of service") "cannot put attributes"
             [("itemName", "k")]).
Proof.
  cbv zeta.
  assert (N : @newPutDeleteInputs exampleCodec noSchema "t"
                [mkColumn "a" 0 None; mkColumn "b" 1 None] (mkKey 2 None)
                [VString "x"; VString ""; VString "k"] =
              Return (mkPutAttributesInput "t" "k"
                        [mkReplaceableAttribute "sql:id" true "string";
                         mkReplaceableAttribute "sql:a" true "string";
                         mkReplaceableAttribute "a" true "x";
                         mkReplaceableAttribute "sql:b" true "string"] None,
                      mkDeleteAttributesInput "t" "k" [mkDeletableAttribute "b"] None))
    by (vm_compute; reflexivity).
  split; [|split].
  - exact (@update_row_count exampleCodec noItemStore true noSchema
             (mkUpdateQuery "t" [mkColumn "a" 0 None; mkColumn "b" 1 None] (mkKey 2 None) false)
             [VString "x"; VString ""; VString "k"] _ _ N).
  - exact (@update_row_count exampleCodec emptyStore true noSchema
             (mkUpdateQuery "t" [mkColumn "a" 0 None; mkColumn "b" 1 None] (mkKey 2 None) false)
             [VString "x"; VString ""; VString "k"] _ _ N).
  - exact (@update_row_count exampleCodec downStore true noSchema
             (mkUpdateQuery "t" [mkColumn "a" 0 None; mkColumn "b" 1 None] (mkKey 2 None) false)
             [VString "x"; VString ""; VString "k"] _ _ N).
Defined.

End exec_facts.

(** ** Binding of arguments and the select expression *)

Module bind_facts.
Import gostr lex parse driver sdb parse_inv parse_inv2 top_facts exec_defs parse_defs top_defs.

Lemma string_app_assoc (a b c : string) : ((a ++ b) ++ c = a ++ (b ++ c))%string.
Proof.
  induction a as [|ch a IH]; [reflexivity|].
  change (String ch ((a ++ b) ++ c) = String ch (a ++ (b ++ c)))%string.
  f_equal. exact IH.
Qed.

Lemma string_app_nil_r (a : string) : (a ++ "")%string = a.
Proof.
  induction a as [|ch a IH]; [reflexivity|].
  change (String ch (a ++ "") = String ch a)%string.
  f_equal. exact IH.
Qed.

Lemma skipn_nth_some {A} (l : list A) : forall i v,
  nth_error l i = Some v -> skipn i l = v :: skipn (S i) l.
Proof.
  induction l as [|a l IH]; intros [|i] v E; simpl in *; try discriminate.
  - inversion E. reflexivity.
  - apply IH. exact E.
Qed.

Lemma skipn_nth_none {A} (l : list A) : forall i,
  nth_error l i = None -> skipn i l = [].
Proof.
  induction l as [|a l IH]; intros [|i] E; simpl in *; try discriminate; auto.
Qed.

Section Bind.
Context `{Quoting} `{Codec}.

(** The loop of [makeSelectExpression] writes what the replay in the words
    of the spec gives, on the arguments from [argIndex] on. *)
Lemma replayLexemes_refines args lexemes : forall sb argIndex,
  replayLexemes args lexemes sb argIndex =
    obind (replaySpec (skipn argIndex args) lexemes)
      (fun out => Return (sb ++ pieces out)%string).
Proof.
  induction lexemes as [|l rest IH]; intros sb i; simpl.
  - rewrite string_app_nil_r. reflexivity.
  - destruct (_ || _)%bool.
    + rewrite IH. destruct (replaySpec _ rest); simpl; try reflexivity.
      rewrite string_app_assoc. reflexivity.
    + destruct (String.eqb l "?").
      * unfold getArg. destruct (nth_error args i) as [v|] eqn:En.
        -- rewrite (skipn_nth_some _ _ _ En).
           destruct v; simpl; try reflexivity;
             rewrite IH; destruct (replaySpec _ rest); simpl; try reflexivity;
             rewrite string_app_assoc; reflexivity.
        -- rewrite (skipn_nth_none _ _ En). reflexivity.
      * rewrite IH. destruct (replaySpec _ rest); simpl; try reflexivity.
        rewrite string_app_assoc. reflexivity.
Qed.

Lemma makeSelectExpression_refines c q args :
  makeSelectExpression c q args =
    obind (replaySpec args (WhereClause q))
      (fun out => Return (selectHead c q ++ pieces out)%string).
Proof.
  unfold makeSelectExpression. cbv zeta. rewrite replayLexemes_refines. reflexivity.
Qed.

(** C8, as amended: the select expression is the head of the statement
    followed by the replay of the tail, lexeme by lexeme: a placeholder is
    replaced by its argument as a quoted literal with the quotes in it
    doubled, or the call fails when the argument is missing or is not a
    string; the lexemes [id] and [`id`], and no other spelling of the id
    column, become [itemName()]; every other lexeme is copied. *)
Theorem select_expression_replays_tail c q args :
  makeSelectExpression c q args =
    obind (replaySpec args (WhereClause q))
      (fun out => Return (selectHead c q ++ pieces out)%string) /\
  quoteString "X'X" = "'X''X'" /\
  (forall v rest s, stringArg v = Some s ->
     replaySpec (v :: rest) ["?"] = Return [quoteString s]) /\
  (forall v rest, stringArg v = None ->
     replaySpec (v :: rest) ["?"] =
       Error (ErrorString "all args to a select query must be strings")) /\
  (forall l args', l <> "id" -> l <> "`id`" -> l <> "?" ->
     replaySpec args' [l] = Return [l]).
Proof.
  split; [apply makeSelectExpression_refines|].
  split; [reflexivity|]. split; [|split].
  - intros v rest s E. simpl. rewrite E. reflexivity.
  - intros v rest E. simpl. rewrite E. reflexivity.
  - intros l args' N1 N2 N3. simpl.
    apply String.eqb_neq in N1, N2, N3. rewrite N1, N2, N3. reflexivity.
Qed.

(** C7: a key, a column or a placeholder of a general select whose ordinal
    is not below the number of arguments resolves to an error, and the
    argument vector is not indexed.  The error of the key is [not enough
    args supplied] and the error of the select is [not enough args for
    select query]; the error of the column is [internal error: ordinal=N,
    value len=M], which is where [Column.GetValue] leaves the message of
    the other two. *)
Theorem missing_argument_is_an_error key col args i :
  KeyValue key = None -> ColValue col = None ->
  (Z.of_nat (length args) <= KeyOrdinal key)%Z ->
  (Z.of_nat (length args) <= ColOrdinal col)%Z ->
  length args <= i ->
  Key_String key args = Error (ErrorString "not enough args supplied") /\
  GetValue col args =
    Error (ErrorString ("internal error: ordinal=" ++ FormatInt (ColOrdinal col)
                        ++ ", value len=" ++ FormatInt (Z.of_nat (length args)))%string) /\
  getArg args i = Error (ErrorString "not enough args for select query").
Proof.
  intros Hk Hc Lk Lc Li. unfold Key_String, GetValue, getArg. rewrite Hk, Hc.
  apply Z.leb_le in Lk, Lc. rewrite Lk, Lc, !orb_true_r.
  apply nth_error_None in Li. rewrite Li. auto.
Qed.

(** The loop of [newPutDeleteInputs] fails at the first column whose
    placeholder has no argument. *)
Lemma encodeColumns_first_short before : forall col after args puts dels,
  Forall (fun v => exists s, v = VString s) args ->
  Forall (fun b => ColValue b <> None \/
                   (0 <= ColOrdinal b < Z.of_nat (length args))%Z) before ->
  ColValue col = None ->
  ~ (0 <= ColOrdinal col < Z.of_nat (length args))%Z ->
  encodeColumns (before ++ col :: after) args puts dels =
    Error (ErrorString ("internal error: ordinal=" ++ FormatInt (ColOrdinal col)
                        ++ ", value len=" ++ FormatInt (Z.of_nat (length args)))%string).
Proof.
  induction before as [|b before IH]; intros col after args puts dels Hs Hb Hv Hn.
  - simpl. unfold GetValue. rewrite Hv.
    replace ((ColOrdinal col <? 0)%Z || (Z.of_nat (length args) <=? ColOrdinal col)%Z)%bool
      with true; [reflexivity|].
    symmetry. apply orb_true_iff.
    destruct (Z.ltb_spec (ColOrdinal col) 0) as [?|?]; [left; reflexivity|right].
    apply Z.leb_le. lia.
  - inversion Hb as [|? ? Hb1 Hb2]; subst.
    assert (G : exists s, GetValue b args = Return (VString s)).
    { unfold GetValue. destruct (ColValue b) as [v|] eqn:Ev; [eauto|].
      destruct Hb1 as [?|R]; [congruence|].
      replace ((ColOrdinal b <? 0)%Z || (Z.of_nat (length args) <=? ColOrdinal b)%Z)%bool
        with false
        by (symmetry; apply orb_false_iff; split; [apply Z.ltb_ge|apply Z.leb_gt]; lia).
      unfold index.
      replace (ColOrdinal b <? 0)%Z with false by (symmetry; apply Z.ltb_ge; lia).
      destruct (nth_error args (Z.to_nat (ColOrdinal b))) as [v|] eqn:En.
      - pose proof (proj1 (List.Forall_forall _ _) Hs v (nth_error_In _ _ En)) as [s ->].
        eauto.
      - apply nth_error_None in En. lia. }
    destruct G as [s G]. cbn [app encodeColumns]. rewrite G. cbn [obind encodeColumn].
    destruct (String.eqb s ""); cbn [obind]; apply IH; assumption.
Qed.

(** X4: a statement that needs more arguments than it is given, all of
    them strings, builds no request.  When the key is a placeholder
    without an argument the error is the error of the key, whatever the
    columns are.  When the key resolves, the error is the error of the
    first column that is a placeholder without an argument, and it names
    the ordinal of this column and the number of arguments. *)
Lemma short_arguments_fail_to_bind c t cols key args :
  Forall (fun v => exists s, v = VString s) args ->
  (KeyValue key = None ->
   ~ (0 <= KeyOrdinal key < Z.of_nat (length args))%Z ->
   newPutDeleteInputs c t cols key args =
     Error (ErrorString "not enough args supplied")) /\
  (forall before col after,
     KeyValue key <> None \/ (0 <= KeyOrdinal key < Z.of_nat (length args))%Z ->
     cols = before ++ col :: after ->
     Forall (fun b => ColValue b <> None \/
                      (0 <= ColOrdinal b < Z.of_nat (length args))%Z) before ->
     ColValue col = None ->
     ~ (0 <= ColOrdinal col < Z.of_nat (length args))%Z ->
     newPutDeleteInputs c t cols key args =
       Error (ErrorString ("internal error: ordinal=" ++ FormatInt (ColOrdinal col)
                           ++ ", value len=" ++ FormatInt (Z.of_nat (length args)))%string)).
Proof.
  intros Hs. split.
  - intros Hv Hn. unfold newPutDeleteInputs, Key_String. rewrite Hv.
    replace ((KeyOrdinal key <? 0)%Z || (Z.of_nat (length args) <=? KeyOrdinal key)%Z)%bool
      with true; [reflexivity|].
    symmetry. apply orb_true_iff.
    destruct (Z.ltb_spec (KeyOrdinal key) 0) as [?|?]; [left; reflexivity|right].
    apply Z.leb_le. lia.
  - intros before col after Hk -> Hb Hv Hn.
    assert (K : exists item, Key_String key args = Return item).
    { unfold Key_String. destruct (KeyValue key) as [v|] eqn:Ev; [eauto|].
      destruct Hk as [?|R]; [congruence|].
      replace ((KeyOrdinal key <? 0)%Z || (Z.of_nat (length args) <=? KeyOrdinal key)%Z)%bool
        with false
        by (symmetry; apply orb_false_iff; split; [apply Z.ltb_ge|apply Z.leb_gt]; lia).
      unfold index.
      replace (KeyOrdinal key <? 0)%Z with false by (symmetry; apply Z.ltb_ge; lia).
      destruct (nth_error args (Z.to_nat (KeyOrdinal key))) as [v|] eqn:En.
      - pose proof (proj1 (List.Forall_forall _ _) Hs v (nth_error_In _ _ En)) as [s ->].
        cbn [obind]. eauto.
      - apply nth_error_None in En. lia. }
    destruct K as [item K]. unfold newPutDeleteInputs. rewrite K. cbn [obind].
    rewrite (encodeColumns_first_short before col after args _ _ Hs Hb Hv Hn).
    reflexivity.
Qed.

End Bind.

Lemma short_arguments_fail_to_bind_witness :
  @newPutDeleteInputs exampleCodec noSchema "t"
    [mkColumn "a" 0 None; mkColumn "b" 1 None] (mkKey 2 None) [VString "x"; VString "y"] =
    Error (ErrorString "not enough args supplied") /\
  @newPutDeleteInputs exampleCodec noSchema "t"
    [mkColumn "a" 0 None; mkColumn "b" 1 None; mkColumn "c" 2 None] (mkKey 0 (Some "k"))
    [VString "x"] =
    Error (ErrorString "internal error: ordinal=1, value len=1").
Proof.
  split.
  - apply (proj1 (@short_arguments_fail_to_bind exampleCodec noSchema "t"
                    [mkColumn "a" 0 None; mkColumn "b" 1 None] (mkKey 2 None)
                    [VString "x"; VString "y"]
                    ltac:(repeat constructor; eexists; reflexivity)));
      [reflexivity|simpl; lia].
  - apply (proj2 (@short_arguments_fail_to_bind exampleCodec noSchema "t"
                    [mkColumn "a" 0 None; mkColumn "b" 1 None; mkColumn "c" 2 None]
                    (mkKey 0 (Some "k")) [VString "x"]
                    ltac:(repeat constructor; eexists; reflexivity))
             [mkColumn "a" 0 None] (mkColumn "b" 1 None) [mkColumn "c" 2 None]).
    + left. discriminate.
    + reflexivity.
    + constructor; [right; simpl; lia|constructor].
    + reflexivity.
    + simpl. lia.
Defined.

Lemma missing_argument_is_an_error_witness :
  @Key_String exampleCodec (mkKey 1 None) [VInt64 5] =
    Error (ErrorString "not enough args supplied") /\
  @GetValue exampleCodec (mkColumn "a" 1 None) [VInt64 5] =
    Error (ErrorString "internal error: ordinal=1, value len=1") /\
  @getArg exampleCodec [VInt64 5] 1 = Error (ErrorString "not enough args for select query").
Proof.
  apply (@missing_argument_is_an_error exampleCodec (mkKey 1 None) (mkColumn "a" 1 None)
           [VInt64 5] 1); [reflexivity|reflexivity|simpl; lia|simpl; lia|simpl; lia].
Defined.

(** The claim as written fails for a column value: the error of an update
    that is given no argument for its column is not of the form
    [not enough args...]. *)
Lemma column_error_is_internal_error :
  @ExecContext lexquote.quoting exampleCodec emptyStore true noSchema
    "update t set a = ? where id = 'k'" [] =
    ([], Error (ErrorString "internal error: ordinal=0, value len=0")) /\
  HasPrefix "internal error: ordinal=0, value len=0" "not enough args" = false.
Proof. split; vm_compute; reflexivity. Qed.

(** The claim as written fails for an id column in brackets (or in upper
    case): it is replayed as it is written. *)
Lemma bracketed_id_is_not_rewritten :
  exists sq,
    @Parse lexquote.quoting "select a from t where a = ? and [id] > ? and ID < 'z'" =
      inr (mkQuery (Some sq) None None None None None) /\
    @makeSelectExpression lexquote.quoting exampleCodec noSchema sq
      [VString "x"; VString "y"] =
      Return "select `sql:id`, `a`, `sql:a` from `t` where a = 'x' and [id] > 'y' and ID < 'z'".
Proof. eexists. split; vm_compute; reflexivity. Qed.

Lemma numbered_ordinals srcs : forall n m,
  numbered n srcs m -> (n <= m)%Z /\ ordinalsOf srcs = seqZ n (m - n).
Proof.
  induction srcs as [|[ord [v|]] srcs IH]; intros n m Hn; simpl in Hn.
  - subst. split; [lia|]. rewrite Z.sub_diag. reflexivity.
  - apply IH in Hn. exact Hn.
  - destruct Hn as [-> Hn]. apply IH in Hn as [L E]. split; [lia|].
    unfold ordinalsOf in *. simpl. rewrite E.
    replace (m - n)%Z with (Z.succ (m - (n + 1)))%Z by lia.
    rewrite (seqZ_cons n) by lia. f_equal. f_equal; lia.
Qed.

(** C6: the placeholders of a statement are numbered from zero in the
    order of the text.  In an insert, an update, a delete and a select by
    key, the value sources taken in text order carry the ordinals 0, 1,
    2, ...; the replay of the tail of a general select gives the k-th
    placeholder the k-th argument; the select of the example takes its
    five arguments in order and fails with three. *)
Theorem placeholder_ordinals_follow_the_text :
  (forall (Q : Quoting) text q, Parse text = inr q -> parsed q) /\
  (forall n srcs m, numbered n srcs m -> ordinalsOf srcs = seqZ n (m - n)) /\
  (forall (Q : Quoting) (C : Codec) c q args,
     makeSelectExpression c q args =
       obind (replaySpec args (WhereClause q))
         (fun out => Return (selectHead c q ++ pieces out)%string)) /\
  exists sq,
    @Parse lexquote.quoting "select a,b,c from t where a=? and b=? and c in (?,?,?)" =
      inr (mkQuery (Some sq) None None None None None) /\
    @makeSelectExpression lexquote.quoting exampleCodec noSchema sq
      [VString "0"; VString "1"; VString "2"; VString "3"; VString "4"] =
      Return ("select `sql:id`, `a`, `sql:a`, `b`, `sql:b`, `c`, `sql:c` from `t` "
              ++ "where a='0' and b='1' and c in ('2','3','4')")%string /\
    @makeSelectExpression lexquote.quoting exampleCodec noSchema sq
      [VString "0"; VString "1"; VString "2"] =
      Error (ErrorString "not enough args for select query").
Proof.
  split; [intros Q text q; apply Parse_parsed|].
  split; [intros n srcs m Hn; apply (numbered_ordinals _ _ _ Hn)|].
  split; [intros Q C c q args; apply makeSelectExpression_refines|].
  eexists. split; [|split]; vm_compute; reflexivity.
Qed.

End bind_facts.

(** ** The parser: the id column of insert and the tail of select *)

Module parse_claims.
Import gostr lex parse driver sdb parse_defs parse_facts parse_inv parse_inv2 select_defs select_facts top_facts exec_defs claim_defs lex_defs top_defs.

Section Claims.
Context `{Quoting}.

Lemma otherColumns_not_id cols :
  Forall (fun col => IsID (ColumnName col) = false) (otherColumns cols).
Proof.
  unfold otherColumns. induction cols as [|c cols IH]; [constructor|].
  rewrite filter_cons. destruct (decide (IsID (ColumnName c) = false)); auto.
Qed.

(** C5: once the value list of an insert is read, the outcome is decided
    by the entries of the column list that name the id column: none is
    the error [missing id column in insert statement], more than one the
    error [duplicate id column in insert statement], and exactly one is
    taken out as the key, the other entries being the columns of the
    statement; every insert statement that [Parse] returns is of this
    form, and no column of it is the id column. *)
Theorem insert_id_column_becomes_key p q cols p1 :
  Insert (query p) = Some q ->
  insertValuesLoop [] (InsColumns q) p = Ok cols p1 ->
  parseInsertValueList p =
    match idColumns cols with
    | [] => Fail (Errorf "missing id column in insert statement")
    | [c] =>
        Ok tt (setQuery
                 (mkQuery (Select (query p))
                    (Some (mkInsertQuery (InsTableName q) (otherColumns cols)
                             (mkKey (ColOrdinal c) (ColValue c))))
                    (Update (query p)) (Delete (query p)) (CreateTable (query p))
                    (DropTable (query p))) p1)
    | _ :: _ :: _ => Fail (Errorf "duplicate id column in insert statement")
    end /\
  Forall (fun col => IsID (ColumnName col) = false) (otherColumns cols) /\
  forall text q' ins,
    Parse text = inr q' -> Insert q' = Some ins ->
    Forall (fun col => IsID (ColumnName col) = false) (InsColumns ins) /\
    exists cols' c,
      idColumns cols' = [c] /\ InsColumns ins = otherColumns cols' /\
      InsKey ins = mkKey (ColOrdinal c) (ColValue c).
Proof.
  intros Hq E. split; [exact (parseInsertValueList_outcome p q cols p1 Hq E)|].
  split; [apply otherColumns_not_id|].
  intros text q' ins Hp Hi. pose proof (Parse_parsed _ _ Hp) as P.
  destruct q' as [[?|] [?|] [?|] [?|] [?|] [?|]]; simpl in *;
    try contradiction; try discriminate.
  inversion Hi; subst. destruct P as (cols' & c & m & Hid & Hc & Hk & _).
  split; [rewrite Hc; apply otherColumns_not_id|eauto].
Qed.

(** C4, as amended: the tail of a select statement is read token by token,
    white space and comments included.  When its tokens other than white
    space and comments are exactly [where id = (placeholder|literal)], the
    statement gets the key and no lexeme.  Otherwise it gets no key and
    the lexemes of the whole tail: the text of every token that is neither
    white space nor a comment (the scanner gives a keyword in lower case),
    one blank for white space, unless the blank would be first or follow a
    blank, and nothing for a comment.  A statement that [Parse] returns
    never has both a key and lexemes. *)
Theorem select_tail_is_key_or_lexemes p sq :
  wf p -> settled p -> Select (query p) = Some sq ->
  let toks := tailTokens (setIgnoreWhiteSpace false (lexer p)) in
  (exists p',
     parseSelectWhereClause p = Ok tt p' /\
     query p' =
       setSelect
         (match keyOf (placeholderIndex p) toks with
          | Some k => withKey sq k
          | None => withWhere sq (tailLexemes (lexemes p) toks)
          end) (query p)) /\
  forall text q sq',
    Parse text = inr q -> Select q = Some sq' ->
    SelKey sq' = None \/ WhereClause sq' = [].
Proof.
  intros Hw Hs Hq toks. split; [exact (parseSelectWhereClause_spec p sq Hw Hs Hq)|].
  intros text q sq' Hp Hsel. pose proof (Parse_parsed _ _ Hp) as P.
  destruct q as [[?|] [?|] [?|] [?|] [?|] [?|]]; simpl in *;
    try contradiction; try discriminate.
  inversion Hsel; subst. destruct P as [P|[P _]]; auto.
Qed.

End Claims.

Lemma insert_id_column_becomes_key_witness :
  exists p q cols p1,
    @valuesState lexquote.quoting "insert into t(id, a, b) values(?, ?, ?)" = Some p /\
    Insert (query p) = Some q /\
    @insertValuesLoop lexquote.quoting [] (InsColumns q) p = Ok cols p1 /\
    @idColumns lexquote.quoting cols = [mkColumn "id" 0 None] /\
    option_map query
      (match @parseInsertValueList lexquote.quoting p with
       | Ok _ p' => Some p' | Fail _ => None end) =
      Some (mkQuery None
              (Some (mkInsertQuery "t" [mkColumn "a" 1 None; mkColumn "b" 2 None]
                       (mkKey 0 None))) None None None None).
Proof.
  pose (p := ltac:(let t := eval vm_compute in
                     (default (newParser "")
                        (@valuesState lexquote.quoting
                           "insert into t(id, a, b) values(?, ?, ?)")) in exact t)).
  pose (q := mkInsertQuery "t" [mkColumn "id" 0 None; mkColumn "a" 0 None; mkColumn "b" 0 None]
               (mkKey 0 None)).
  pose (cols := ltac:(let t := eval vm_compute in
                     (match @insertValuesLoop lexquote.quoting [] (InsColumns q) p with
                      | Ok c _ => c | Fail _ => [] end) in exact t)).
  pose (p1 := ltac:(let t := eval vm_compute in
                     (match @insertValuesLoop lexquote.quoting [] (InsColumns q) p with
                      | Ok _ p' => p' | Fail _ => p end) in exact t)).
  assert (Hq : Insert (query p) = Some q) by reflexivity.
  assert (E : @insertValuesLoop lexquote.quoting [] (InsColumns q) p = Ok cols p1)
    by (vm_compute; reflexivity).
  exists p, q, cols, p1.
  split; [vm_compute; reflexivity|]. split; [exact Hq|]. split; [exact E|].
  split; [vm_compute; reflexivity|].
  rewrite (proj1 (@insert_id_column_becomes_key lexquote.quoting p q cols p1 Hq E)).
  vm_compute. reflexivity.
Defined.

Lemma select_tail_is_key_or_lexemes_witness :
  exists p sq p',
    @tailState lexquote.quoting "select a from t WHERE  a > ? -- all
 order by a" = Some p /\
    Select (query p) = Some sq /\
    @parseSelectWhereClause lexquote.quoting p = Ok tt p' /\
    Select (query p') =
      Some (mkSelectQuery false ["a"] "t"
              ["where"; " "; "a"; " "; ">"; " "; "?"; " "; "order"; " "; "by"; " "; "a"]
              None).
Proof.
  pose (p := ltac:(let t := eval vm_compute in
                     (default (newParser "")
                        (@tailState lexquote.quoting "select a from t WHERE  a > ? -- all
 order by a")) in exact t)).
  pose (sq := mkSelectQuery false ["a"] "t" [] None).
  assert (Hw : wf p) by (split; intros E; vm_compute in E; discriminate E).
  assert (Hs : settled p) by (split; intros E; vm_compute in E; discriminate E).
  destruct (proj1 (@select_tail_is_key_or_lexemes lexquote.quoting p sq Hw Hs eq_refl))
    as (p' & E & Hq).
  exists p, sq, p'.
  split; [vm_compute; reflexivity|]. split; [reflexivity|]. split; [exact E|].
  rewrite Hq. vm_compute. reflexivity.
Defined.

(** The claim as written fails: the lexemes of a tail are not its text.
    The keyword is in lower case and two blanks have become one. *)
Lemma tail_is_not_kept_verbatim :
  exists sq,
    @Parse lexquote.quoting "select a from t WHERE a  >  ?" =
      inr (mkQuery (Some sq) None None None None None) /\
    WhereClause sq = ["where"; " "; "a"; " "; ">"; " "; "?"] /\
    SelKey sq = None /\
    fold_right String.append "" (WhereClause sq) <> "WHERE a  >  ?".
Proof.
  eexists. split; [vm_compute; reflexivity|].
  split; [reflexivity|]. split; [reflexivity|].
  vm_compute. discriminate.
Qed.

End parse_claims.

(** ** The codec and the result cursor *)

Module codec_facts.
Import gostr lex parse driver sdb exec_defs parse_defs.







Section Codec.
Context `{Quoting} `{Codec}.

Lemma assign_ok (values : list Value) i v :
  i < length values -> assign values i v = Return (<[i:=v]> values).
Proof.
  intros L. unfold assign. apply Nat.ltb_lt in L. rewrite L. reflexivity.
Qed.











Lemma stored_empty a puts :
  RValue a = "" -> stored (a :: puts) = stored puts.
Proof. intros E. unfold stored. cbn [List.filter]. rewrite E. reflexivity. Qed.






(** The map that [setColumns] builds sends a name to a place of the
    column list where the name stands. *)
Lemma setColumnsLoop_colmap cols : forall i cm k idx,
  colmap (setColumnsLoop i cols cm) !! k = Some idx ->
  colmap cm !! k = Some idx \/ (i <= idx /\ cols !! (idx - i) = Some k).
Proof.
  induction cols as [|col cols IH]; intros i cm k idx E; simpl in E; [auto|].
  apply IH in E as [E|[L E]].
  - destruct (IsID col); cbn [colmap] in E; [auto|].
    apply lookup_insert_Some in E as [[-> ->]|[_ E]]; [|auto].
    right. split; [lia|]. rewrite Nat.sub_diag. reflexivity.
  - right. split; [lia|]. replace (idx - i) with (S (idx - S i)) by lia. exact E.
Qed.

Lemma setColumnsLoop_itemNameIndex cols : forall i cm,
  itemNameIndex (setColumnsLoop i cols cm) = itemNameIndex cm \/
  (i <= itemNameIndex (setColumnsLoop i cols cm) < i + length cols).
Proof.
  induction cols as [|col cols IH]; intros i cm; simpl; [auto|].
  destruct (IH (S i) (if IsID col then mkColumnMap (columns cm) (colmap cm) i
                      else mkColumnMap (columns cm) (<[col:=i]> (colmap cm))
                             (itemNameIndex cm))) as [E|E].
  - rewrite E. destruct (IsID col); cbn [itemNameIndex]; [right; lia|auto].
  - right. lia.
Qed.

Lemma setColumns_colmap cols k idx :
  colmap (setColumns cols) !! k = Some idx -> cols !! idx = Some k.
Proof.
  intros E. apply setColumnsLoop_colmap in E as [E|[_ E]].
  - cbn [colmap] in E. rewrite lookup_empty in E. discriminate E.
  - rewrite Nat.sub_0_r in E. exact E.
Qed.


End Codec.





End codec_facts.

(** ** The columns of the statements that Parse returns *)

Module parse_shape.
Import gostr lex parse parse_defs lex_facts parse_facts parse_inv parse_inv2
  select_defs select_facts top_facts total_defs parse_total shape_defs lex_defs top_defs.

Section Shape.
Context `{Quoting}.

Lemma selectExpectIdent_columns p u p' :
  selectExpectIdent p = Ok u p' ->
  exists sq, Select (query p) = Some sq /\
    Select (query p') =
      Some (withColumns sq (ColumnNames sq ++ [Unquote (ptext p)]) (SelTableName sq)).
Proof.
  intros E. unfold selectExpectIdent in E. minv.
  eexists. split; [eassumption|].
  match goal with Hq : query _ = _ |- _ => rewrite Hq end. reflexivity.
Qed.

Lemma selectColumnListLoop_columns fuel : forall p u p' sq,
  selectColumnListLoop fuel p = Ok u p' ->
  Select (query p) = Some sq ->
  exists more,
    Select (query p') = Some (withColumns sq (ColumnNames sq ++ more) (SelTableName sq)).
Proof.
  induction fuel as [|fuel IH]; intros p u p' sq E Hq; simpl in E; [discriminate|].
  destruct (String.eqb (ptext p) ",") eqn:Ec.
  - apply bind_inv in E as (b & p1 & E1 & E).
    apply bind_inv in E as (u2 & p2 & E2 & E).
    apply next_inv in E1 as (_ & _ & Hq1 & _).
    apply selectExpectIdent_columns in E2 as (sq1 & Hs1 & Hs2).
    rewrite Hq1, Hq in Hs1. injection Hs1 as <-.
    destruct (IH _ _ _ _ E Hs2) as (more & Hm).
    exists (Unquote (ptext p1) :: more). rewrite Hm.
    unfold withColumns. cbn [ConsistentRead ColumnNames SelTableName WhereClause SelKey].
    rewrite <- app_assoc. reflexivity.
  - inversion E; subst. exists []. rewrite app_nil_r, Hq. destruct sq. reflexivity.
Qed.

Lemma parseSelectFromClause_columns p u p' :
  parseSelectFromClause p = Ok u p' ->
  exists sq table, Select (query p) = Some sq /\
    Select (query p') = Some (withColumns sq (ColumnNames sq) table).
Proof.
  intros E. unfold parseSelectFromClause in E. minv.
  eexists _, _. split.
  - repeat match goal with Hq : query _ = query _ |- _ => rewrite Hq in *; clear Hq end.
    eassumption.
  - match goal with Hq : query _ = mkQuery _ _ _ _ _ _ |- _ => rewrite Hq end. reflexivity.
Qed.

(** The select statement that [parseSelect] leaves: its columns are those
    of a column list, which has one column at least, and it asks for a
    consistent read when the statement opens with the text [consistent],
    in lower case. *)
Lemma parseSelect_columns p u p' :
  parseSelect p = Ok u p' ->
  exists sq, Select (query p') = Some sq /\
    ColumnNames sq <> [] /\
    ConsistentRead sq = String.eqb (ptext p) "consistent".
Proof.
  intros E. unfold parseSelect in E.
  apply bind_inv in E as (u1 & p1 & E1 & E).
  apply bind_inv in E as (u2 & p2 & E2 & E).
  apply bind_inv in E as (u3 & p3 & E3 & E).
  apply bind_inv in E as (u4 & p4 & E4 & E).
  apply bind_inv in E as (u5 & p5 & E5 & E).
  unfold newSelect in E1. inversion E1; subst u1 p1; clear E1.
  assert (S2 : Select (query p2) =
               Some (mkSelectQuery (String.eqb (ptext p) "consistent") [] "" [] None)).
  { change (ptext (setQuery _ p)) with (ptext p) in E2.
    destruct (String.eqb (ptext p) "consistent").
    - minv. match goal with Hq : query _ = _ |- _ => rewrite Hq end.
      psimpl. qresolve. reflexivity.
    - inversion E2; subst. reflexivity. }
  apply next_inv in E3 as (_ & _ & Hq3 & _).
  unfold parseSelectColumnList in E4.
  apply bind_inv in E4 as (u41 & p41 & E41 & E4). unfold withFuel in E4.
  apply selectExpectIdent_columns in E41 as (sq3 & Hs3 & Hs41).
  rewrite Hq3, S2 in Hs3. injection Hs3 as <-.
  destruct (selectColumnListLoop_columns _ _ _ _ _ E4 Hs41) as (more & Hs4).
  pose proof (parseSelectFromClause_settled _ _ _ E5) as [Hw5 Hs5].
  apply parseSelectFromClause_columns in E5 as (sq4 & table & Hs4' & Hq5).
  rewrite Hs4 in Hs4'. injection Hs4' as <-.
  destruct (parseSelectWhereClause_spec p5 _ Hw5 Hs5 Hq5) as (pf & Ef & Hqf).
  cbv beta in E. rewrite Ef in E. injection E as <- <-.
  rewrite Hqf. unfold setSelect. cbn [Select].
  eexists. split; [reflexivity|].
  destruct (keyOf _ _); unfold withKey, withWhere, withColumns;
    cbn [ConsistentRead ColumnNames SelTableName WhereClause SelKey];
    (split; [|reflexivity]); intros N; discriminate N.
Qed.

(** The update statement that [parseUpdate] leaves sets one column at
    least. *)
Lemma parseUpdate_columns p u p' :
  wf p -> parseUpdate p = Ok u p' ->
  exists q, Update (query p') = Some q /\ UpdColumns q <> [].
Proof.
  intros Hw E. unfold parseUpdate in E.
  repeat (apply bind_inv in E as (? & ? & ? & E)).
  unfold newUpdate in *. minv.
  match goal with E : parseUpdateColumns _ = _ |- _ =>
    unfold parseUpdateColumns in E; apply bind_inv in E as (uc & pc & Ec & E');
    unfold withFuel in E';
    apply parseUpdateColumn_inv in Ec as (W1 & F1 & q1 & col & U0 & U1 & N1); [|assumption];
    apply updateColumnsLoop_inv in E' as (W2 & F2 & HU); [|assumption] end.
  destruct (HU _ U1) as (cols & U2 & _).
  match goal with E : parseUpdateWhere _ = _ |- _ =>
    apply parseUpdateWhere_inv in E as (Wwh & Fwh & q2 & key & Uwh0 & Uwh & Nkey);
      [|assumption] end.
  rewrite U2 in Uwh0. injection Uwh0 as <-.
  eexists. split; [exact Uwh|]. psimpl.
  intros N. apply app_eq_nil in N as [N _]. apply app_eq_nil in N as [_ N]. discriminate N.
Qed.

(** The run of [parse] behind a statement that [Parse] returns. *)
Lemma Parse_run text q :
  Parse text = inr q ->
  exists b p u p',
    next (newParser text) = Ok b p /\ at_start p /\
    dispatch p = Ok u p' /\ q = query p'.
Proof.
  unfold Parse, parse. intros E.
  destruct (newParser_next text) as (b & p & En & Hs).
  unfold bind in E. rewrite En in E.
  destruct (dispatch p) as [u p'|f] eqn:Ed; [|discriminate].
  inversion E; subst. eauto 10.
Qed.

(** The columns of the statements that [Parse] returns. *)
Lemma Parse_columns text q :
  Parse text = inr q ->
  (forall sq, Select q = Some sq ->
     ColumnNames sq <> [] /\
     ConsistentRead sq = String.eqb (dispatchText text) "consistent") /\
  (forall upd, Update q = Some upd -> UpdColumns upd <> []).
Proof.
  intros E. pose proof (Parse_parsed _ _ E) as Hp.
  apply Parse_run in E as (b & p & u & p' & En & Hs & Ed & ->).
  unfold dispatchText. rewrite En.
  pose proof Hs as [Hw Hi Hl Hpi Hq].
  unfold dispatch in Ed. cbv zeta in Ed.
  destruct (_ || _)%bool eqn:Ks in Ed.
  { apply parseSelect_columns in Ed as (sq & Hsq & Hc & Hr).
    split.
    - intros sq' Hsq'. rewrite Hsq in Hsq'. injection Hsq' as <-. auto.
    - intros upd Hu. destruct (query p') as [s i up d c dr]. cbn [Select Update] in *.
      subst s up. simpl in Hp. destruct i, d, c, dr; contradiction. }
  assert (Hnone : forall q0, parsed q0 -> Update q0 <> None \/ Insert q0 <> None \/
                    Delete q0 <> None \/ CreateTable q0 <> None \/ DropTable q0 <> None ->
                    Select q0 = None).
  { intros [s i up d c dr] P N. cbn [Select Insert Update Delete CreateTable DropTable] in *.
    destruct s as [s|]; [|reflexivity]. simpl in P.
    destruct i, up, d, c, dr; try contradiction; intuition congruence. }
  destruct (String.eqb _ "update") eqn:Ku in Ed.
  { apply parseUpdate_columns in Ed as (q & Hu & Hc); [|assumption].
    split.
    - intros sq Hsq. rewrite Hnone in Hsq; [discriminate|exact Hp|].
      left. rewrite Hu. discriminate.
    - intros upd Hu'. rewrite Hu in Hu'. injection Hu' as <-. exact Hc. }
  assert (Hrest : Update (query p') = None -> Select (query p') = None ->
            (forall sq, Select (query p') = Some sq ->
               ColumnNames sq <> [] /\
               ConsistentRead sq = String.eqb (ptext p) "consistent") /\
            (forall upd, Update (query p') = Some upd -> UpdColumns upd <> [])).
  { intros -> ->. split; intros ? N; discriminate N. }
  destruct (String.eqb _ "insert") eqn:Ki in Ed.
  { apply parseInsert_inv in Ed as (F & q & cols & c & Hu & _); auto.
    rewrite Hq in F. unfold notInsert, zeroQuery in F.
    destruct (query p') as [s i up d c' dr]. psimpl. inversion F; subst.
    apply Hrest; reflexivity. }
  destruct (String.eqb _ "delete") eqn:Kd in Ed.
  { apply parseDelete_inv in Ed as (F & q & Hu & _); auto.
    rewrite Hq in F. unfold notDelete, zeroQuery in F.
    destruct (query p') as [s i up d c' dr]. psimpl. inversion F; subst.
    apply Hrest; reflexivity. }
  destruct (String.eqb _ "create") eqn:Kc in Ed.
  { pose proof (parseCreateTable_inv _ _ _ Ed) as F.
    rewrite Hq in F. unfold notCreateDrop, zeroQuery in F.
    destruct (query p') as [s i up d c' dr]. psimpl. inversion F; subst.
    apply Hrest; reflexivity. }
  destruct (String.eqb _ "drop") eqn:Kdr in Ed.
  { pose proof (parseDropTable_inv _ _ _ Ed) as F.
    rewrite Hq in F. unfold notCreateDrop, zeroQuery in F.
    destruct (query p') as [s i up d c' dr]. psimpl. inversion F; subst.
    apply Hrest; reflexivity. }
  destruct (bool_decide _); discriminate.
Qed.

(** X5: every select statement that [Parse] returns has one column at
    least, and asks for a consistent read exactly when the token on which
    [parse] dispatches is the text [consistent], in lower case: in another
    case the word is read as [select]; every update statement that
    [Parse] returns sets one column at least. *)
Theorem parsed_statements_have_columns text q :
  Parse text = inr q ->
  (forall sq, Select q = Some sq ->
     ColumnNames sq <> [] /\
     ConsistentRead sq = String.eqb (dispatchText text) "consistent") /\
  (forall upd, Update q = Some upd -> UpdColumns upd <> []).
Proof. apply Parse_columns. Qed.

End Shape.

Lemma parsed_statements_have_columns_witness :
  exists sq,
    @Parse lexquote.quoting "Consistent a, b from t where a > ?" =
      inr (mkQuery (Some sq) None None None None None) /\
    ColumnNames sq = ["a"; "b"] /\
    ColumnNames sq <> [] /\
    ConsistentRead sq = String.eqb (@dispatchText "Consistent a, b from t where a > ?")
                          "consistent" /\
    ConsistentRead sq = false.
Proof.
  pose (sq := mkSelectQuery false ["a"; "b"] "t"
                ["where"; " "; "a"; " "; ">"; " "; "?"] None).
  assert (P : @Parse lexquote.quoting "Consistent a, b from t where a > ?" =
              inr (mkQuery (Some sq) None None None None None))
    by (vm_compute; reflexivity).
  exists sq. split; [exact P|]. split; [reflexivity|].
  destruct (proj1 (@parsed_statements_have_columns lexquote.quoting _ _ P) sq eq_refl)
    as [Hc Hr].
  split; [exact Hc|]. split; [exact Hr|]. reflexivity.
Defined.

End parse_shape.

(** ** The cursors of rows.go and QueryContext *)

Module cursor_facts.
Import gostr lex parse driver sdb sdbrows exec_defs codec_facts shape_defs parse_shape cursor_defs.

Section Cursor.
Context `{Quoting} `{Codec}.

Lemma HasPrefix_split p : forall name,
  HasPrefix name p = true -> name = (p ++ drop (String.length p) name)%string.
Proof.
  induction p as [|c p IH]; intros name E; [reflexivity|].
  destruct name as [|d name]; simpl in E; [discriminate|].
  apply andb_true_iff in E as [E1 E2]. apply Ascii.eqb_eq in E1. subst d.
  change (String c name = String c (p ++ drop (String.length p) name)%string).
  f_equal. apply IH, E2.
Qed.

Lemma TrimPrefix_tagged name col :
  HasPrefix name "sql:" = true -> TrimPrefix name "sql:" = col ->
  name = typeColumnName col.
Proof.
  intros E <-. unfold TrimPrefix. rewrite E. apply (HasPrefix_split "sql:"), E.
Qed.

(** The first loop of [setValues] stays within the row and leaves alone
    the places that no type tag of the item names. *)
Lemma collectTypes_frame cm n attrs : forall ct values,
  bounded cm n -> length values = n ->
  exists ct' values',
    collectTypes cm attrs ct values = Return (ct', values') /\
    length values' = n /\
    forall i, untouched cm attrs i -> values' !! i = values !! i.
Proof.
  induction attrs as [|attr attrs IH]; intros ct values Hb Hl; simpl.
  { eauto. }
  assert (Hrest : forall i, untouched cm (attr :: attrs) i -> untouched cm attrs i).
  { intros i Hu a Ha. apply Hu. right. exact Ha. }
  destruct (HasPrefix (derefString (AName attr)) "sql:") eqn:Ep.
  - destruct (colmap cm !! TrimPrefix (derefString (AName attr)) "sql:")
      as [index|] eqn:Ei.
    + destruct (zeroValue (derefString (AValue attr))) as [z|].
      * rewrite assign_ok by (rewrite Hl; eapply Hb, Ei). cbn [obind].
        destruct (IH (<[derefString (AName attr):=derefString (AValue attr)]> ct)
                    (<[index:=z]> values) Hb) as (ct' & values' & E & L & F).
        { rewrite length_insert. exact Hl. }
        exists ct', values'. split; [exact E|]. split; [exact L|].
        intros i Hu. rewrite (F i (Hrest i Hu)).
        apply list_lookup_insert_ne. intros ->.
        destruct (Hu attr (or_introl eq_refl)) as [_ Hn]. apply (Hn Ep). exact Ei.
      * destruct (IH (<[derefString (AName attr):=derefString (AValue attr)]> ct)
                    values Hb Hl) as (ct' & values' & E & L & F).
        exists ct', values'. split; [exact E|]. split; [exact L|]. auto.
    + destruct (IH (<[derefString (AName attr):=derefString (AValue attr)]> ct)
                  values Hb Hl) as (ct' & values' & E & L & F).
      exists ct', values'. split; [exact E|]. split; [exact L|]. auto.
  - destruct (IH ct values Hb Hl) as (ct' & values' & E & L & F).
    exists ct', values'. split; [exact E|]. split; [exact L|]. auto.
Qed.

(** So does the second loop, for the places that no attribute names. *)
Lemma decodeValues_frame cm n ct attrs : forall values,
  bounded cm n -> length values = n ->
  exists values',
    decodeValues cm ct attrs values = Return values' /\
    length values' = n /\
    forall i, untouched cm attrs i -> values' !! i = values !! i.
Proof.
  induction attrs as [|attr attrs IH]; intros values Hb Hl; simpl.
  { eauto. }
  assert (Hrest : forall i, untouched cm (attr :: attrs) i -> untouched cm attrs i).
  { intros i Hu a Ha. apply Hu. right. exact Ha. }
  destruct (colmap cm !! derefString (AName attr)) as [index|] eqn:Ei.
  - match goal with |- context [decodeValue ?t ?v] => destruct (decodeValue t v) as [v'|] end.
    + rewrite assign_ok by (rewrite Hl; eapply Hb, Ei). cbn [obind].
      destruct (IH (<[index:=v']> values) Hb) as (values' & E & L & F).
      { rewrite length_insert. exact Hl. }
      exists values'. split; [exact E|]. split; [exact L|].
      intros i Hu. rewrite (F i (Hrest i Hu)).
      apply list_lookup_insert_ne. intros ->.
      destruct (Hu attr (or_introl eq_refl)) as [Hn _]. apply Hn. exact Ei.
    + destruct (IH values Hb Hl) as (values' & E & L & F).
      exists values'. split; [exact E|]. split; [exact L|]. auto.
  - destruct (IH values Hb Hl) as (values' & E & L & F).
    exists values'. split; [exact E|]. split; [exact L|]. auto.
Qed.

(** [setValues] on a row that has a place for every column. *)
Lemma setValues_frame cm n item values :
  bounded cm n -> itemNameIndex cm < n -> length values = n ->
  exists row,
    setValues cm item values = Return row /\
    length row = n /\
    forall i, i < n -> untouched cm (IAttributes item) i ->
      row !! i = Some (if Nat.eqb i (itemNameIndex cm)
                       then VString (derefString (IName item)) else VNil).
Proof.
  intros Hb Hi Hl. unfold setValues.
  set (values0 := map (fun _ => VNil) values).
  assert (L0 : length values0 = n) by (subst values0; rewrite length_map; exact Hl).
  rewrite assign_ok by (rewrite L0; exact Hi). cbn [obind].
  set (values1 := <[itemNameIndex cm:=VString (derefString (IName item))]> values0).
  assert (L1 : length values1 = n) by (subst values1; rewrite length_insert; exact L0).
  destruct (collectTypes_frame cm n (IAttributes item) ∅ values1 Hb L1)
    as (ct & values2 & E2 & L2 & F2).
  rewrite E2. cbn [obind].
  destruct (decodeValues_frame cm n ct (IAttributes item) values2 Hb L2)
    as (row & E3 & L3 & F3).
  exists row. split; [exact E3|]. split; [exact L3|].
  intros i Li Hu. rewrite (F3 i Hu), (F2 i Hu). subst values1.
  destruct (Nat.eqb_spec i (itemNameIndex cm)) as [->|Hne].
  - apply list_lookup_insert_eq. rewrite L0. exact Hi.
  - rewrite list_lookup_insert_ne by auto. subst values0.
    rewrite list_lookup_fmap.
    destruct (values !! i) eqn:Ev; [reflexivity|].
    apply lookup_ge_None in Ev. lia.
Qed.

(** The columns of a cursor. *)
Lemma setColumns_bounded cols : bounded (setColumns cols) (length cols).
Proof.
  intros k idx E. apply setColumns_colmap in E. apply lookup_lt_Some in E. exact E.
Qed.

Lemma setColumns_itemNameIndex_lt cols :
  cols <> [] -> itemNameIndex (setColumns cols) < length cols.
Proof.
  intros Hne. unfold setColumns.
  destruct (setColumnsLoop_itemNameIndex cols 0 (mkColumnMap cols ∅ 0)) as [E|E].
  - rewrite E. cbn [itemNameIndex]. destruct cols; [contradiction|simpl; lia].
  - lia.
Qed.

Lemma setColumnsLoop_notID cols : forall i cm k idx,
  colmap (setColumnsLoop i cols cm) !! k = Some idx ->
  colmap cm !! k = Some idx \/ IsID k = false.
Proof.
  induction cols as [|col cols IH]; intros i cm k idx E; simpl in E; [auto|].
  apply IH in E as [E|E]; [|auto].
  destruct (IsID col) eqn:Eid; cbn [colmap] in E; [auto|].
  apply lookup_insert_Some in E as [[-> ->]|[_ E]]; auto.
Qed.

Lemma setColumns_notID cols k idx :
  colmap (setColumns cols) !! k = Some idx -> IsID k = false.
Proof.
  intros E. apply setColumnsLoop_notID in E as [E|E]; [|exact E].
  cbn [colmap] in E. rewrite lookup_empty in E. discriminate E.
Qed.

Lemma setColumnsLoop_noID cols : forall i cm,
  (forall c, In c cols -> IsID c = false) ->
  itemNameIndex (setColumnsLoop i cols cm) = itemNameIndex cm.
Proof.
  induction cols as [|col cols IH]; intros i cm Hn; simpl; [reflexivity|].
  rewrite IH by (intros c Hc; apply Hn; right; exact Hc).
  rewrite (Hn col (or_introl eq_refl)). reflexivity.
Qed.

Lemma setColumnsLoop_lastID cols : forall i cm j c,
  cols !! j = Some c -> IsID c = true ->
  (forall j' c', j < j' -> cols !! j' = Some c' -> IsID c' = false) ->
  itemNameIndex (setColumnsLoop i cols cm) = i + j.
Proof.
  induction cols as [|col cols IH]; intros i cm j c Ej Eid Hlast; [discriminate Ej|].
  simpl. destruct j as [|j].
  - injection Ej as ->. rewrite Eid.
    rewrite setColumnsLoop_noID.
    + cbn [itemNameIndex]. lia.
    + intros c' Hc'. apply list_elem_of_In, list_elem_of_lookup in Hc' as [j' Hj'].
      apply (Hlast (S j') c'); [lia|exact Hj'].
  - rewrite (IH (S i) _ j c Ej Eid).
    + lia.
    + intros j' c' Lj Ej'. apply (Hlast (S j') c'); [lia|exact Ej'].
Qed.

(** A column of the cursor for which the item has no attribute is not
    written by the two loops; neither is a column that is the id column. *)
Lemma lacks_untouched cols item i c :
  cols !! i = Some c ->
  IsID c = true \/ lacks item c ->
  untouched (setColumns cols) (IAttributes item) i.
Proof.
  intros Ec Hc attr Ha. split.
  - intros E. pose proof (setColumns_notID _ _ _ E) as Hid.
    apply setColumns_colmap in E. rewrite Ec in E. injection E as E.
    destruct Hc as [Hc|Hc]; [congruence|].
    destruct (Hc attr Ha) as [Hn _]. congruence.
  - intros Ep E. pose proof (setColumns_notID _ _ _ E) as Hid.
    apply setColumns_colmap in E. rewrite Ec in E. injection E as E.
    destruct Hc as [Hc|Hc]; [congruence|].
    destruct (Hc attr Ha) as [_ Hn]. apply Hn.
    apply TrimPrefix_tagged; [exact Ep|symmetry; exact E].
Qed.

(** X6: a row that has one place for each column of a cursor, and at
    least one, is filled by [setValues] without a panic, and keeps its
    length, whatever the item holds; on a row without a place the
    assignment of the item name is out of range. *)
Theorem setValues_fills_a_row_of_the_cursor cols item values :
  length values = length cols ->
  (cols <> [] ->
   exists row, setValues (setColumns cols) item values = Return row /\
               length row = length cols) /\
  (cols = [] ->
   setValues (setColumns cols) item values =
     Panic "runtime error: index out of range [0] with length 0").
Proof.
  intros Hl. split.
  - intros Hne.
    destruct (setValues_frame (setColumns cols) (length cols) item values)
      as (row & E & L & _); eauto using setColumns_bounded, setColumns_itemNameIndex_lt.
  - intros ->. destruct values; [reflexivity|discriminate Hl].
Qed.

(** The place of the item name: the place of the last id column, or the
    first place when no column is the id column. *)
Lemma setColumnsLoop_index_cases cols : forall i cm,
  (itemNameIndex (setColumnsLoop i cols cm) = itemNameIndex cm /\
   forall c, In c cols -> IsID c = false) \/
  (exists j c,
     itemNameIndex (setColumnsLoop i cols cm) = i + j /\
     cols !! j = Some c /\ IsID c = true /\
     forall j' c', j < j' -> cols !! j' = Some c' -> IsID c' = false).
Proof.
  induction cols as [|col cols IH]; intros i cm; simpl.
  { left. split; [reflexivity|]. intros c []. }
  match goal with |- context [setColumnsLoop (S i) cols ?cm'] =>
    destruct (IH (S i) cm') as [[E Hn]|(j & c & E & Ej & Eid & Hlast)] end.
  - destruct (IsID col) eqn:Eid.
    + right. exists 0, col. rewrite E. cbn [itemNameIndex].
      split; [lia|]. split; [reflexivity|]. split; [exact Eid|].
      intros [|j'] c' Lj Ej'; [lia|]. apply Hn.
      apply list_elem_of_In, list_elem_of_lookup. exists j'. exact Ej'.
    + left. rewrite E. cbn [itemNameIndex]. split; [reflexivity|].
      intros c [<-|Hc]; auto.
  - right. exists (S j), c. rewrite E. split; [lia|]. split; [exact Ej|].
    split; [exact Eid|].
    intros [|j'] c' Lj Ej'; [lia|]. apply (Hlast j' c'); [lia|exact Ej'].
Qed.

Lemma itemNameIndex_cases cols :
  (itemNameIndex (setColumns cols) = 0 /\ forall c, In c cols -> IsID c = false) \/
  (exists c,
     cols !! itemNameIndex (setColumns cols) = Some c /\ IsID c = true /\
     forall j' c', itemNameIndex (setColumns cols) < j' -> cols !! j' = Some c' ->
       IsID c' = false).
Proof.
  unfold setColumns.
  destruct (setColumnsLoop_index_cases cols 0 (mkColumnMap cols ∅ 0))
    as [[E Hn]|(j & c & E & Ej & Eid & Hlast)].
  - left. rewrite E. auto.
  - right. exists c. rewrite E. simpl. auto.
Qed.

(** X7: the id columns of a cursor.  Whatever attributes the item has, the
    last id column of the column list reads the item name, and an id
    column that is followed by another id column reads nil. *)
Theorem id_column_reads_the_item_name cols item values i c :
  length values = length cols ->
  cols !! i = Some c -> IsID c = true ->
  exists row,
    setValues (setColumns cols) item values = Return row /\
    ((forall j c', i < j -> cols !! j = Some c' -> IsID c' = false) ->
     row !! i = Some (VString (derefString (IName item)))) /\
    ((exists j c', i < j /\ cols !! j = Some c' /\ IsID c' = true) ->
     row !! i = Some VNil).
Proof.
  intros Hl Ec Eid.
  assert (Hne : cols <> []) by (intros ->; discriminate Ec).
  destruct (setValues_frame (setColumns cols) (length cols) item values)
    as (row & E & L & F); eauto using setColumns_bounded, setColumns_itemNameIndex_lt.
  exists row. split; [exact E|].
  assert (Hrow : row !! i = Some (if Nat.eqb i (itemNameIndex (setColumns cols))
                                  then VString (derefString (IName item)) else VNil)).
  { apply F; [apply lookup_lt_Some in Ec; exact Ec|].
    eapply lacks_untouched; eauto. }
  rewrite Hrow.
  destruct (itemNameIndex_cases cols) as [[_ Hn]|(c0 & E0 & Eid0 & Hlast0)].
  { rewrite Hn in Eid; [discriminate|].
    apply list_elem_of_In, list_elem_of_lookup. eauto. }
  split.
  - intros Hlast.
    destruct (Nat.eqb_spec i (itemNameIndex (setColumns cols))) as [_|Hne']; [reflexivity|].
    destruct (Nat.lt_total i (itemNameIndex (setColumns cols))) as [Lt|[Eq|Gt]].
    + rewrite (Hlast _ _ Lt E0) in Eid0. discriminate.
    + contradiction.
    + rewrite (Hlast0 _ _ Gt Ec) in Eid. discriminate.
  - intros (j & c' & Lj & Ej & Eidj).
    destruct (Nat.eqb_spec i (itemNameIndex (setColumns cols))) as [Eq|_]; [|reflexivity].
    rewrite <- Eq in Hlast0. rewrite (Hlast0 _ _ Lj Ej) in Eidj. discriminate.
Qed.

(** X8: a column for which the item has neither a value nor a type tag.
    When the list has an id column, or the column is not the first of the
    list, the column reads nil; the first column of a list without id
    column reads the item name, which [setValues] stores at the place
    [itemNameIndex], zero for such a list. *)
Theorem column_without_attribute cols item values i c :
  length values = length cols ->
  cols !! i = Some c -> IsID c = false -> lacks item c ->
  exists row,
    setValues (setColumns cols) item values = Return row /\
    ((exists c', In c' cols /\ IsID c' = true) \/ i <> 0 ->
     row !! i = Some VNil) /\
    ((forall c', In c' cols -> IsID c' = false) -> i = 0 ->
     row !! i = Some (VString (derefString (IName item)))).
Proof.
  intros Hl Ec Eid Hlacks.
  assert (Hne : cols <> []) by (intros ->; discriminate Ec).
  destruct (setValues_frame (setColumns cols) (length cols) item values)
    as (row & E & L & F); eauto using setColumns_bounded, setColumns_itemNameIndex_lt.
  exists row. split; [exact E|].
  assert (Hrow : row !! i = Some (if Nat.eqb i (itemNameIndex (setColumns cols))
                                  then VString (derefString (IName item)) else VNil)).
  { apply F; [apply lookup_lt_Some in Ec; exact Ec|].
    eapply lacks_untouched; eauto. }
  rewrite Hrow.
  destruct (itemNameIndex_cases cols) as [[E0 Hn]|(c0 & E0 & Eid0 & _)].
  - rewrite E0. split.
    + intros [(c' & Hin & Eid')|Hi].
      * rewrite (Hn c' Hin) in Eid'. discriminate.
      * destruct (Nat.eqb_spec i 0); [contradiction|reflexivity].
    + intros _ ->. reflexivity.
  - assert (Hi : i <> itemNameIndex (setColumns cols)).
    { intros Eq. rewrite <- Eq, Ec in E0. injection E0 as <-. congruence. }
    destruct (Nat.eqb_spec i (itemNameIndex (setColumns cols))) as [Eq|_]; [contradiction|].
    split; [reflexivity|].
    intros Hn _. rewrite Hn in Eid0; [discriminate|].
    apply list_elem_of_In, list_elem_of_lookup. eauto.
Qed.

(** *** The arguments of a call *)

Lemma maxOrdinal_acc args : forall m,
  let r := fold_left (fun max arg => if (max <? Ordinal arg)%Z then Ordinal arg else max)
             args m in
  (m <= r)%Z /\ (forall a, In a args -> (Ordinal a <= r)%Z) /\
  (r = m \/ exists a, In a args /\ Ordinal a = r).
Proof.
  induction args as [|arg args IH]; intros m; simpl.
  { split; [lia|]. split; [intros a []|auto]. }
  destruct (IH (if (m <? Ordinal arg)%Z then Ordinal arg else m)) as (L & U & C).
  destruct (Z.ltb_spec m (Ordinal arg)) as [Lt|Ge].
  - split; [lia|]. split.
    + intros a [<-|Ha]; [exact L|auto].
    + right. destruct C as [C|(a & Ha & Ea)]; [exists arg|exists a]; auto.
  - split; [exact L|]. split.
    + intros a [<-|Ha]; [lia|auto].
    + destruct C as [C|(a & Ha & Ea)]; [auto|right; exists a; auto].
Qed.

Lemma fillArgs_spec args : forall values,
  (forall a, In a args -> (1 <= Ordinal a <= Z.of_nat (length values))%Z) ->
  NoDup (map Ordinal args) ->
  exists values',
    fillArgs args values = Return values' /\
    length values' = length values /\
    (forall a, In a args -> values' !! Z.to_nat (Ordinal a - 1) = Some (ArgValue a)) /\
    (forall i, (forall a, In a args -> Ordinal a <> (Z.of_nat i + 1)%Z) ->
       values' !! i = values !! i).
Proof.
  induction args as [|arg args IH]; intros values Hr Hd; simpl.
  { exists values. split; [reflexivity|]. split; [reflexivity|]. split; [intros a []|auto]. }
  apply NoDup_cons in Hd as [Hnin Hd].
  pose proof (Hr arg (or_introl eq_refl)) as Harg.
  unfold assignAt.
  destruct (Z.ltb_spec (Ordinal arg - 1) 0) as [?|_]; [lia|].
  destruct (Z.leb_spec (Z.of_nat (length values)) (Ordinal arg - 1)) as [?|_]; [lia|].
  cbn [orb obind].
  destruct (IH (<[Z.to_nat (Ordinal arg - 1):=ArgValue arg]> values))
    as (values' & E & L & Hin & Hout).
  { intros a Ha. rewrite length_insert. apply Hr. right. exact Ha. }
  { exact Hd. }
  exists values'. split; [exact E|]. rewrite length_insert in L. split; [exact L|]. split.
  - intros a [<-|Ha]; [|auto].
    rewrite Hout.
    + apply list_lookup_insert_eq. lia.
    + intros a Ha Ea. apply Hnin. apply list_elem_of_In.
      apply in_map_iff. exists a. split; [|exact Ha]. lia.
  - intros i Hi. rewrite Hout by (intros a Ha; apply Hi; right; exact Ha).
    apply list_lookup_insert_ne.
    specialize (Hi arg (or_introl eq_refl)). lia.
Qed.

Lemma fillArgs_panics args : forall values,
  (forall a, In a args -> (Ordinal a <= Z.of_nat (length values))%Z) ->
  (exists a, In a args /\ (Ordinal a <= 0)%Z) ->
  exists a,
    In a args /\ (Ordinal a <= 0)%Z /\
    fillArgs args values =
      Panic ("runtime error: index out of range [" ++ FormatInt (Ordinal a - 1) ++ "]").
Proof.
  induction args as [|arg args IH]; intros values Hm (a & Ha & La); [destruct Ha|].
  simpl. unfold assignAt.
  destruct (Z.ltb_spec (Ordinal arg - 1) 0) as [Lt|Ge].
  - exists arg. split; [left; reflexivity|]. split; [lia|].
    cbn [orb obind]. unfold indexOutOfRange.
    rewrite (proj2 (Z.ltb_lt _ _) Lt). reflexivity.
  - pose proof (Hm arg (or_introl eq_refl)) as Harg.
    destruct (Z.leb_spec (Z.of_nat (length values)) (Ordinal arg - 1)) as [?|_]; [lia|].
    cbn [orb obind].
    destruct (IH (<[Z.to_nat (Ordinal arg - 1):=ArgValue arg]> values))
      as (b & Hb & Lb & E).
    { intros x Hx. rewrite length_insert. apply Hm. right. exact Hx. }
    { destruct Ha as [<-|Ha]; [lia|eauto]. }
    exists b. split; [right; exact Hb|]. split; [exact Lb|exact E].
Qed.

(** The places of the arguments that [getArgs] returns. *)
Lemma getArgs_positional args :
  ((forall a, In a args -> (1 <= Ordinal a)%Z) -> NoDup (map Ordinal args) ->
   exists values,
     getArgs args = Return values /\
     Z.of_nat (length values) = maxOrdinal args /\
     (forall a, In a args -> values !! Z.to_nat (Ordinal a - 1) = Some (ArgValue a)) /\
     (forall i, i < length values ->
        (forall a, In a args -> Ordinal a <> (Z.of_nat i + 1)%Z) ->
        values !! i = Some VNil)) /\
  (map Ordinal args = seqZ 1 (Z.of_nat (length args)) ->
   getArgs args = Return (map ArgValue args)) /\
  ((exists a, In a args /\ (Ordinal a <= 0)%Z) ->
   exists a,
     In a args /\ (Ordinal a <= 0)%Z /\
     getArgs args =
       Panic ("runtime error: index out of range [" ++ FormatInt (Ordinal a - 1) ++ "]")).
Proof.
  assert (HA : (forall a, In a args -> (1 <= Ordinal a)%Z) -> NoDup (map Ordinal args) ->
   exists values,
     getArgs args = Return values /\
     Z.of_nat (length values) = maxOrdinal args /\
     (forall a, In a args -> values !! Z.to_nat (Ordinal a - 1) = Some (ArgValue a)) /\
     (forall i, i < length values ->
        (forall a, In a args -> Ordinal a <> (Z.of_nat i + 1)%Z) ->
        values !! i = Some VNil)).
  { intros Hpos Hd. unfold getArgs.
    destruct (maxOrdinal_acc args 0) as (L & U & _). fold (maxOrdinal args) in L, U.
    destruct (fillArgs_spec args (replicate (Z.to_nat (maxOrdinal args)) VNil))
      as (values & E & Hl & Hin & Hout).
    { intros a Ha. rewrite length_replicate. specialize (U a Ha). specialize (Hpos a Ha). lia. }
    { exact Hd. }
    rewrite length_replicate in Hl.
    exists values. split; [exact E|]. split; [lia|]. split; [exact Hin|].
    intros i Li Hi. rewrite (Hout i Hi). apply lookup_replicate_2. lia. }
  split; [exact HA|]. split.
  - intros Hseq.
    assert (Hord : forall i a, args !! i = Some a -> Ordinal a = (1 + Z.of_nat i)%Z).
    { intros i a Ea.
      assert (E : map Ordinal args !! i = Some (Ordinal a))
        by (change (map Ordinal args) with (Ordinal <$> args); rewrite list_lookup_fmap, Ea;
            reflexivity).
      rewrite Hseq in E. apply lookup_seqZ in E as [E _]. exact E. }
    destruct HA as (values & E & Hl & Hin & _).
    { intros a Ha. apply list_elem_of_In, list_elem_of_lookup in Ha as [i Ei].
      rewrite (Hord i a Ei). lia. }
    { rewrite Hseq. apply NoDup_seqZ. }
    rewrite E. f_equal.
    assert (Hmax : maxOrdinal args = Z.of_nat (length args)).
    { destruct (maxOrdinal_acc args 0) as (L & U & C).
      fold (maxOrdinal args) in L, U, C.
      destruct args as [|a0 args'] eqn:Eargs; [reflexivity|]. rewrite <- Eargs in *.
      assert (Hlast : exists a, args !! (length args - 1) = Some a).
      { apply lookup_lt_is_Some. rewrite Eargs. simpl. lia. }
      destruct Hlast as [al El].
      pose proof (Hord _ _ El) as Ol.
      assert (Hal : In al args) by (apply list_elem_of_In, list_elem_of_lookup; eauto).
      specialize (U al Hal).
      assert (0 < length args) by (rewrite Eargs; simpl; lia).
      destruct C as [C|(a & Ha & Ea)]; [lia|].
      apply list_elem_of_In, list_elem_of_lookup in Ha as [i Ei].
      pose proof (Hord _ _ Ei) as Oi. apply lookup_lt_Some in Ei. lia. }
    apply list_eq. intros i.
    change (map ArgValue args) with (ArgValue <$> args). rewrite list_lookup_fmap.
    destruct (args !! i) as [a|] eqn:Ea; simpl.
    + assert (Ha : In a args) by (apply list_elem_of_In, list_elem_of_lookup; eauto).
      rewrite <- (Hin a Ha). f_equal. rewrite (Hord i a Ea). lia.
    + apply lookup_ge_None. apply lookup_ge_None in Ea. lia.
  - intros Hbad. unfold getArgs. apply fillArgs_panics; [|exact Hbad].
    intros a Ha. rewrite length_replicate.
    destruct (maxOrdinal_acc args 0) as (L & U & _). fold (maxOrdinal args) in L, U.
    specialize (U a Ha). lia.
Qed.


(** *** Select by key *)

Lemma setColumnsLoop_columns cols : forall i cm,
  columns (setColumnsLoop i cols cm) = columns cm.
Proof.
  induction cols as [|col cols IH]; intros i cm; simpl; [reflexivity|].
  rewrite IH. destruct (IsID col); reflexivity.
Qed.

Lemma setValues_length_only cm item (v1 v2 : list Value) :
  length v1 = length v2 -> setValues cm item v1 = setValues cm item v2.
Proof.
  intros L. unfold setValues.
  replace (map (fun _ => VNil) v1) with (map (fun _ : Value => VNil) v2); [reflexivity|].
  revert v1 L. induction v2 as [|x v2 IH]; intros [|y v1] L; try discriminate L; simpl;
    [reflexivity|]. f_equal. apply IH. simpl in L. lia.
Qed.

(** X10: a select by key.  [QueryContext] sends one request, for the
    attributes and the type tags of the columns and for the marker of the
    item, and wraps the error of the store.  The cursor has the columns of
    the statement and reads one row at most: when the store has attributes
    for the item the first [Next] fills the row from them and every later
    [Next] returns [io.EOF]; when it has none, the first [Next] does. *)
Theorem select_by_key_reads_at_most_one_row api c text nargs q sq key args itemName :
  Parse text = inr q -> Select q = Some sq -> SelKey sq = Some key ->
  getArgs nargs = Return args ->
  Key_String key args = Return itemName ->
  let getAttributesInput :=
    mkGetAttributesInput (ConsistentRead sq) (getDomainName c (SelTableName sq)) itemName
      (flat_map (fun col => [col; typeColumnName col]) (ColumnNames sq) ++ ["sql:id"]) in
  fst (QueryContext api c text nargs) = [ReqGet getAttributesInput] /\
  match GetAttributesWithContext api getAttributesInput with
  | inl err =>
      snd (QueryContext api c text nargs) =
        Error (Wrapped err "cannot get item"
                 [("itemName", itemName); ("table", SelTableName sq);
                  ("domain", getDomainName c (SelTableName sq))])
  | inr attributes =>
      exists rows,
        snd (QueryContext api c text nargs) = Return (GetAttributesRows rows) /\
        getAttributesRows.Columns rows = ColumnNames sq /\
        forall dest, length dest = length (ColumnNames sq) ->
          match attributes with
          | [] => getAttributesRows.Next rows dest = (rows, Error EOF)
          | _ :: _ =>
              exists row,
                getAttributesRows.Next rows dest =
                  (getAttributesRows.Close rows, Return row) /\
                setValues (setColumns (ColumnNames sq))
                  (mkItem (Some itemName) attributes) dest = Return row /\
                length row = length dest /\
                forall dest',
                  getAttributesRows.Next (getAttributesRows.Close rows) dest' =
                    (getAttributesRows.Close rows, Error EOF)
          end
  end.
Proof.
  intros P Hs Hk Ha Hi. cbv zeta.
  pose proof (proj1 (proj1 (Parse_columns _ _ P) sq Hs)) as Hne.
  unfold QueryContext. rewrite P, Hs, Ha, Hk.
  unfold getAttributes. rewrite Hk, Hi. cbv zeta. cbn [fst snd].
  split; [reflexivity|]. unfold typeColumnName.
  match goal with |- match ?a with _ => _ end => destruct a as [err|attributes] end.
  { reflexivity. }
  cbn [obind]. eexists. split; [reflexivity|]. split.
  { transitivity (columns (setColumns (ColumnNames sq))).
    - destruct attributes; reflexivity.
    - unfold setColumns. apply setColumnsLoop_columns. }
  intros dest Hl. destruct attributes as [|attr attributes].
  { reflexivity. }
  cbn [length Nat.ltb Nat.leb].
  destruct (setValues_frame (setColumns (ColumnNames sq)) (length (ColumnNames sq))
              (mkItem (Some itemName) (attr :: attributes)) dest)
    as (row & E & L & _); eauto using setColumns_bounded, setColumns_itemNameIndex_lt.
  exists row. unfold getAttributesRows.Next, getAttributesRows.Close.
  cbn [getAttributesRows.item getAttributesRows.cm getAttributesRows.newGetAttributeRows].
  rewrite E. split; [reflexivity|]. split; [reflexivity|]. split; [lia|].
  intros dest'. reflexivity.
Qed.

(** *** The pages of a select *)

Lemma nextLoop_mono fuel : forall rows reqs rows' r,
  selectQueryRows.nextLoop fuel rows = (reqs, rows', Some r) ->
  selectQueryRows.nextLoop (S fuel) rows = (reqs, rows', Some r).
Proof.
  induction fuel as [|fuel IH]; intros rows reqs rows' r E; [discriminate E|].
  remember (S fuel) as n. rewrite Heqn in E at 1. simpl in E. simpl.
  destruct (selectQueryRows.items rows); [|exact E].
  destruct (NextToken (selectQueryRows.input rows)); [|exact E].
  destruct (selectQueryRows.selectNext rows) as [[reqs1 rows1] [e|]]; [exact E|].
  destruct (selectQueryRows.nextLoop fuel rows1) as [[reqs2 rows2] [res|]] eqn:E2;
    [|discriminate E].
  subst n. rewrite (IH _ _ _ _ E2). exact E.
Qed.

Lemma Next_mono fuel rows dest reqs rows' r :
  selectQueryRows.Next fuel rows dest = (reqs, rows', Some r) ->
  selectQueryRows.Next (S fuel) rows dest = (reqs, rows', Some r).
Proof.
  unfold selectQueryRows.Next.
  destruct (selectQueryRows.nextLoop fuel rows) as [[reqs1 rows1] [res|]] eqn:E;
    [|discriminate].
  rewrite (nextLoop_mono _ _ _ _ _ E). auto.
Qed.

(** One turn of the loop of [Next] on a cursor without item whose request
    has a next token. *)
Lemma Next_page fuel cm api input tok output dest :
  NextToken input = Some tok ->
  SelectWithContext api input = inr output ->
  selectQueryRows.Next (S fuel) (selectQueryRows.mk cm api input []) dest =
    (let '(reqs, rows', res) :=
       selectQueryRows.Next fuel
         (selectQueryRows.mk cm api
            (mkSelectInput (SelConsistentRead input) (SelectExpression input)
               (OutNextToken output)) (Items output)) dest in
     (ReqSelect input :: reqs, rows', res)).
Proof.
  intros Et Es. unfold selectQueryRows.Next. simpl.
  rewrite Et. unfold selectQueryRows.selectNext. simpl. rewrite Es.
  destruct (selectQueryRows.nextLoop fuel _) as [[reqs rows'] [[e|]|]]; try reflexivity.
  destruct (selectQueryRows.items rows'); reflexivity.
Qed.

Lemma drain_pages api cols input ps reqs :
  pages api input ps reqs -> cols <> [] ->
  forall its dest calls fuel,
    length dest = length cols ->
    length (its ++ concat ps) < calls -> length ps < fuel ->
    exists out,
      drain calls fuel (selectQueryRows.mk (setColumns cols) api input its) dest =
        (reqs, out, Some (Error EOF)) /\
      Forall2 (rowOf cols) (its ++ concat ps) out.
Proof.
  intros Hp Hne.
  assert (Hrow : forall item dest, length dest = length cols ->
            exists row, setValues (setColumns cols) item dest = Return row /\
                        length row = length cols /\ rowOf cols item row).
  { intros item dest Hl.
    destruct (setValues_frame (setColumns cols) (length cols) item dest)
      as (row & E & L & _); eauto using setColumns_bounded, setColumns_itemNameIndex_lt.
    exists row. split; [exact E|]. split; [exact L|].
    unfold rowOf. rewrite <- E. apply setValues_length_only.
    rewrite length_replicate. lia. }
  assert (Hitems : forall input ps reqs,
            (forall dest calls fuel, length dest = length cols ->
               length (concat ps) < calls -> length ps < fuel ->
               exists out,
                 drain calls fuel (selectQueryRows.mk (setColumns cols) api input []) dest =
                   (reqs, out, Some (Error EOF)) /\
                 Forall2 (rowOf cols) (concat ps) out) ->
            forall its dest calls fuel, length dest = length cols ->
               length (its ++ concat ps) < calls -> length ps < fuel ->
               exists out,
                 drain calls fuel (selectQueryRows.mk (setColumns cols) api input its) dest =
                   (reqs, out, Some (Error EOF)) /\
                 Forall2 (rowOf cols) (its ++ concat ps) out).
  { clear input ps reqs Hp. intros input ps reqs Hnil its.
    induction its as [|it its IH]; intros dest calls fuel Hl Hc Hf.
    { apply Hnil; assumption. }
    destruct calls as [|calls]; [simpl in Hc; lia|].
    destruct fuel as [|fuel]; [lia|].
    destruct (Hrow it dest Hl) as (row & E & L & R).
    destruct (IH row calls (S fuel) L) as (out & D & F); [simpl in Hc; lia|lia|].
    exists (row :: out). split.
    - cbn [drain selectQueryRows.Next selectQueryRows.nextLoop selectQueryRows.items
           selectQueryRows.cm selectQueryRows.simpledb selectQueryRows.input].
      rewrite E, D. reflexivity.
    - constructor; assumption. }
  induction Hp as [input Et|input tok output ps reqs Et Es Hp IH].
  - apply Hitems. intros dest calls fuel Hl Hc Hf.
    destruct calls as [|calls]; [simpl in Hc; lia|].
    destruct fuel as [|fuel]; [lia|].
    exists []. split; [|constructor].
    unfold drain, selectQueryRows.Next. simpl. rewrite Et. reflexivity.
  - apply Hitems. intros dest calls fuel Hl Hc Hf.
    destruct calls as [|calls]; [simpl in Hc; lia|].
    destruct fuel as [|fuel]; [lia|].
    simpl in Hf.
    destruct (IH (Items output) dest (S calls) fuel Hl) as (out0 & D0 & _);
      [exact Hc|lia|].
    destruct (IH (Items output) dest (S calls) (S fuel) Hl) as (out & D & F);
      [exact Hc|lia|].
    exists out. split; [|exact F].
    cbn [drain] in D0, D |- *.
    rewrite (Next_page fuel _ _ _ _ _ dest Et Es).
    destruct (selectQueryRows.Next fuel _ dest) as [[reqs1 rows1] [res|]] eqn:EN.
    2:{ discriminate D0. }
    rewrite (Next_mono _ _ _ _ _ _ EN) in D.
    destruct res as [row|e|msg].
    + destruct (drain calls (S fuel) rows1 row) as [[reqs2 out2] fin].
      injection D as <- <- <-. reflexivity.
    + injection D as <- <- <-. reflexivity.
    + injection D as <- <- <-. reflexivity.
Qed.

(** X11: a select that is not by key.  [QueryContext] sends the select
    expression without next token and returns the error of the store as it
    is.  When the store answers, and serves the pages [ps] to the requests
    that carry the next token of the page before, the caller of [Next]
    reads one row for every item of the first page and of [ps], in the
    order of the store, and then [io.EOF]; the cursor sends one request for
    each page of [ps], in order, and none after a page without next
    token. *)
Theorem select_reads_every_page api c text nargs q sq args expr output ps reqs :
  Parse text = inr q -> Select q = Some sq -> SelKey sq = None ->
  getArgs nargs = Return args ->
  makeSelectExpression c sq args = Return expr ->
  let selectInput := mkSelectInput (ConsistentRead sq) expr None in
  SelectWithContext api selectInput = inr output ->
  pages api (mkSelectInput (ConsistentRead sq) expr (OutNextToken output)) ps reqs ->
  exists rows,
    QueryContext api c text nargs = ([ReqSelect selectInput], Return (SelectQueryRows rows)) /\
    selectQueryRows.Columns rows = ColumnNames sq /\
    forall dest calls fuel,
      length dest = length (ColumnNames sq) ->
      length (Items output ++ concat ps) < calls -> length ps < fuel ->
      exists out,
        drain calls fuel rows dest = (reqs, out, Some (Error EOF)) /\
        Forall2 (rowOf (ColumnNames sq)) (Items output ++ concat ps) out.
Proof.
  intros P Hs Hk Ha He. cbv zeta. intros Es Hp.
  pose proof (proj1 (proj1 (Parse_columns _ _ P) sq Hs)) as Hne.
  unfold QueryContext. rewrite P, Hs, Ha, Hk.
  unfold selectQuery. rewrite He. cbv zeta.
  unfold selectQueryRows.selectNext, selectQueryRows.newRows.
  cbn [selectQueryRows.simpledb selectQueryRows.input selectQueryRows.cm].
  rewrite Es. cbn [obind SelConsistentRead SelectExpression].
  eexists. split; [reflexivity|]. split.
  { unfold selectQueryRows.Columns. cbn [selectQueryRows.cm].
    unfold setColumns. rewrite setColumnsLoop_columns. reflexivity. }
  intros dest calls fuel Hl Hc Hf.
  apply (drain_pages api (ColumnNames sq) _ ps reqs Hp Hne); assumption.
Qed.

(** A select whose store fails at the first request: the error is returned
    as it is, and no cursor. *)
Lemma select_first_request_fails api c text nargs q sq args expr err :
  Parse text = inr q -> Select q = Some sq -> SelKey sq = None ->
  getArgs nargs = Return args ->
  makeSelectExpression c sq args = Return expr ->
  SelectWithContext api (mkSelectInput (ConsistentRead sq) expr None) = inl err ->
  QueryContext api c text nargs =
    ([ReqSelect (mkSelectInput (ConsistentRead sq) expr None)], Error err).
Proof.
  intros P Hs Hk Ha He Es.
  unfold QueryContext. rewrite P, Hs, Ha, Hk.
  unfold selectQuery. rewrite He. cbv zeta.
  unfold selectQueryRows.selectNext, selectQueryRows.newRows.
  cbn [selectQueryRows.simpledb selectQueryRows.input selectQueryRows.cm].
  rewrite Es. reflexivity.
Qed.

End Cursor.

Lemma setValues_fills_a_row_of_the_cursor_witness :
  (exists row,
     @setValues exampleCodec (@setColumns lexquote.quoting ["a"; "id"])
       (exampleItem "k" "x") [VNil; VNil] = Return row /\ length row = 2) /\
  @setValues exampleCodec (@setColumns lexquote.quoting []) (exampleItem "k" "x") [] =
    Panic "runtime error: index out of range [0] with length 0".
Proof.
  split.
  - apply (proj1 (@setValues_fills_a_row_of_the_cursor lexquote.quoting exampleCodec
                    ["a"; "id"] (exampleItem "k" "x") [VNil; VNil] eq_refl)).
    discriminate.
  - apply (proj2 (@setValues_fills_a_row_of_the_cursor lexquote.quoting exampleCodec
                    [] (exampleItem "k" "x") [] eq_refl)).
    reflexivity.
Defined.

Lemma id_column_reads_the_item_name_witness :
  exists row,
    @setValues exampleCodec (@setColumns lexquote.quoting ["id"; "a"; "ID"])
      (exampleItem "k" "x") [VNil; VNil; VNil] = Return row /\
    row !! 0 = Some (@VNil exampleCodec) /\
    row !! 2 = Some (@VString exampleCodec "k").
Proof.
  destruct (@id_column_reads_the_item_name lexquote.quoting exampleCodec
              ["id"; "a"; "ID"] (exampleItem "k" "x") [VNil; VNil; VNil] 0 "id"
              eq_refl eq_refl eq_refl) as (row & E & _ & H0).
  destruct (@id_column_reads_the_item_name lexquote.quoting exampleCodec
              ["id"; "a"; "ID"] (exampleItem "k" "x") [VNil; VNil; VNil] 2 "ID"
              eq_refl eq_refl eq_refl) as (row' & E' & H2 & _).
  rewrite E in E'. injection E' as <-.
  exists row. split; [exact E|]. split.
  - apply H0. exists 2, "ID". split; [lia|]. split; reflexivity.
  - apply H2. intros j c' Lj Ej. destruct j as [|[|[|j]]]; try lia. discriminate Ej.
Defined.

Lemma column_without_attribute_witness :
  exists row,
    @setValues exampleCodec (@setColumns lexquote.quoting ["b"; "a"])
      (exampleItem "k" "x") [VNil; VNil] = Return row /\
    row !! 0 = Some (@VString exampleCodec "k").
Proof.
  destruct (@column_without_attribute lexquote.quoting exampleCodec
              ["b"; "a"] (exampleItem "k" "x") [VNil; VNil] 0 "b"
              eq_refl eq_refl eq_refl) as (row & E & _ & H0).
  { intros attr [<-|[<-|[<-|[]]]]; split; discriminate. }
  exists row. split; [exact E|]. apply H0; [|reflexivity].
  intros c' [<-|[<-|[]]]; reflexivity.
Defined.


Lemma select_by_key_reads_at_most_one_row_witness :
  exists rows row,
    @QueryContext lexquote.quoting exampleCodec pagedStore noSchema
      "consistent select id, a from t where id = ?" [mkNamedValue "" 1 (VString "k")] =
      ([ReqGet (mkGetAttributesInput true "t" "k" ["id"; "sql:id"; "a"; "sql:a"; "sql:id"])],
       Return (GetAttributesRows rows)) /\
    @getAttributesRows.Next exampleCodec rows [VNil; VNil] =
      (getAttributesRows.Close rows, Return row) /\
    row = [VString "k"; VString "x"] /\
    @getAttributesRows.Next exampleCodec (getAttributesRows.Close rows) row =
      (getAttributesRows.Close rows, Error EOF).
Proof.
  pose (sq := mkSelectQuery true ["id"; "a"] "t" [] (Some (mkKey 0 None))).
  assert (P : @Parse lexquote.quoting "consistent select id, a from t where id = ?" =
              inr (mkQuery (Some sq) None None None None None))
    by (vm_compute; reflexivity).
  destruct (@select_by_key_reads_at_most_one_row lexquote.quoting exampleCodec pagedStore
              noSchema _ [mkNamedValue "" 1 (VString "k")] _ sq (mkKey 0 None)
              [VString "k"] "k" P eq_refl eq_refl eq_refl eq_refl) as (Hreq & Hrows).
  cbv zeta in Hreq, Hrows.
  change (GetAttributesWithContext pagedStore _)
    with (@inr error _ (IAttributes (exampleItem "k" "x"))) in Hrows.
  cbn iota in Hrows. destruct Hrows as (rows & Hq & _ & Hnext).
  destruct (Hnext [VNil; VNil] eq_refl) as (row & N1 & Hv & _ & N2).
  exists rows, row. split.
  - rewrite (surjective_pairing (QueryContext _ _ _ _)), Hreq, Hq. reflexivity.
  - split; [exact N1|]. split; [|apply N2].
    vm_compute in Hv. injection Hv as <-. reflexivity.
Defined.

Lemma select_reads_every_page_witness :
  exists rows reqs out,
    @QueryContext lexquote.quoting exampleCodec pagedStore noSchema
      "select a from t where a > ?" [mkNamedValue "" 1 (VString "m")] =
      ([ReqSelect (mkSelectInput false
                     "select `sql:id`, `a`, `sql:a` from `t` where a > 'm'" None)],
       Return (SelectQueryRows rows)) /\
    @drain exampleCodec 4 3 rows [VNil] = (reqs, out, Some (Error EOF)) /\
    map (fun r => match r with ReqSelect i => NextToken i | _ => None end) reqs =
      [Some "p2"; Some "p3"] /\
    out = [[VString "x"]; [VString "y"]; [VString "z"]].
Proof.
  pose (sq := mkSelectQuery false ["a"] "t"
                ["where"; " "; "a"; " "; ">"; " "; "?"] None).
  pose (expr := "select `sql:id`, `a`, `sql:a` from `t` where a > 'm'").
  pose (reqs := [ReqSelect (mkSelectInput false expr (Some "p2"));
                 ReqSelect (mkSelectInput false expr (Some "p3"))]).
  pose (rows0 := selectQueryRows.mk (@setColumns lexquote.quoting ["a"]) pagedStore
                   (mkSelectInput false expr (Some "p2")) [exampleItem "k1" "x"]).
  assert (P : @Parse lexquote.quoting "select a from t where a > ?" =
              inr (mkQuery (Some sq) None None None None None))
    by (vm_compute; reflexivity).
  assert (Ha : @getArgs exampleCodec [mkNamedValue "" 1 (VString "m")] =
               Return [VString "m"]) by (vm_compute; reflexivity).
  assert (He : @makeSelectExpression lexquote.quoting exampleCodec noSchema sq
                 [VString "m"] = Return expr) by (vm_compute; reflexivity).
  assert (Hp : pages pagedStore (mkSelectInput false expr (Some "p2"))
                 [[]; [exampleItem "k2" "y"; exampleItem "k3" "z"]] reqs).
  { apply (pages_next pagedStore _ "p2" (mkSelectOutput [] (Some "p3")));
      [reflexivity|reflexivity|].
    apply (pages_next pagedStore _ "p3"
             (mkSelectOutput [exampleItem "k2" "y"; exampleItem "k3" "z"] None));
      [reflexivity|reflexivity|].
    apply pages_end. reflexivity. }
  destruct (@select_reads_every_page lexquote.quoting exampleCodec pagedStore noSchema
              "select a from t where a > ?" [mkNamedValue "" 1 (VString "m")]
              (mkQuery (Some sq) None None None None None) sq [VString "m"] expr
              (mkSelectOutput [exampleItem "k1" "x"] (Some "p2"))
              [[]; [exampleItem "k2" "y"; exampleItem "k3" "z"]] reqs
              P eq_refl eq_refl Ha He eq_refl Hp) as (rows & Hq & _ & Hd).
  destruct (Hd [VNil] 4 3 eq_refl) as (out & D & _); [simpl; lia|simpl; lia|].
  assert (Q : @QueryContext lexquote.quoting exampleCodec pagedStore noSchema
                "select a from t where a > ?" [mkNamedValue "" 1 (VString "m")] =
              ([ReqSelect (mkSelectInput false expr None)],
               Return (SelectQueryRows rows0))).
  { unfold QueryContext. rewrite P. cbn [Select]. rewrite Ha. cbn [SelKey sq].
    unfold selectQuery. rewrite He. reflexivity. }
  rewrite Q in Hq. injection Hq as <-.
  exists rows0, reqs, out. split; [exact Q|]. split; [exact D|]. split; [reflexivity|].
  vm_compute in D. injection D as <-. reflexivity.
Defined.

End cursor_facts.

(** ** The scanner: what the tokens spell, white space, and quoted text *)

Module scan_facts.
Import gostr lex driver sdb lex_defs lex_facts bind_facts scan_defs.
#[local] Open Scope string_scope.

Lemma noNUL_cons ch rest :
  noNUL (String ch rest) <-> Ascii.eqb ch eof = false /\ noNUL rest.
Proof.
  unfold noNUL. cbn [ContainsRune]. rewrite orb_false_iff, (Ascii.eqb_sym eof ch). reflexivity.
Qed.

Lemma noNUL_app a : forall b, noNUL (a ++ b) <-> noNUL a /\ noNUL b.
Proof.
  induction a as [|ch a IH]; intros b.
  - change ("" ++ b) with b. unfold noNUL at 2. simpl. tauto.
  - change (String ch a ++ b) with (String ch (a ++ b)).
    rewrite !noNUL_cons, IH. tauto.
Qed.

Lemma app_cons ch a b : String ch a ++ b = String ch (a ++ b).
Proof. reflexivity. Qed.

Lemma app_one buf ch c : (buf ++ String ch "") ++ c = buf ++ String ch c.
Proof. rewrite string_app_assoc. reflexivity. Qed.

Lemma app_not_empty a b : a <> "" -> a ++ b <> "".
Proof. destruct a; [contradiction|discriminate]. Qed.

(** The loops of the scanning functions, on an input without NUL: the
    buffer grows by the runes that are taken from the input. *)
Lemma scanWhitespaceLoop_takes input : forall buf,
  noNUL input ->
  exists c rest', scanWhitespaceLoop buf input = (buf ++ c, rest') /\
                  input = c ++ rest' /\ noNUL rest'.
Proof.
  induction input as [|ch rest IH]; intros buf Hn; cbn [scanWhitespaceLoop].
  { exists "", "". rewrite string_app_nil_r. auto. }
  apply noNUL_cons in Hn as [Hch Hn]. rewrite Hch.
  destruct (isWhitespace ch); cbn [negb].
  - destruct (IH (buf ++ String ch "") Hn) as (c & rest' & E & Hi & Hr).
    exists (String ch c), rest'. rewrite E, app_one.
    split; [reflexivity|]. split; [|exact Hr].
    rewrite app_cons. f_equal. exact Hi.
  - exists "", (String ch rest). rewrite string_app_nil_r. split; [reflexivity|].
    split; [reflexivity|]. apply noNUL_cons. auto.
Qed.

Lemma scanIdentifierLoop_takes input : forall buf,
  noNUL input ->
  exists c rest', scanIdentifierLoop buf input = (buf ++ c, rest') /\
                  input = c ++ rest' /\ noNUL rest'.
Proof.
  induction input as [|ch rest IH]; intros buf Hn; cbn [scanIdentifierLoop].
  { exists "", "". rewrite string_app_nil_r. auto. }
  apply noNUL_cons in Hn as [Hch Hn]. rewrite Hch.
  destruct (isIdent ch); cbn [negb].
  - destruct (IH (buf ++ String ch "") Hn) as (c & rest' & E & Hi & Hr).
    exists (String ch c), rest'. rewrite E, app_one.
    split; [reflexivity|]. split; [|exact Hr].
    rewrite app_cons. f_equal. exact Hi.
  - exists "", (String ch rest). rewrite string_app_nil_r. split; [reflexivity|].
    split; [reflexivity|]. apply noNUL_cons. auto.
Qed.

Lemma scanNumberLoop_takes input : forall dot buf,
  noNUL input ->
  exists c rest', scanNumberLoop dot buf input = (buf ++ c, rest') /\
                  input = c ++ rest' /\ noNUL rest'.
Proof.
  induction input as [|ch rest IH]; intros dot buf Hn; cbn [scanNumberLoop].
  { exists "", "". rewrite string_app_nil_r. auto. }
  apply noNUL_cons in Hn as [Hch Hn]. rewrite Hch.
  destruct (isDigit ch || negb dot && Ascii.eqb ch ".")%bool.
  - destruct (IH (dot || Ascii.eqb ch ".")%bool (buf ++ String ch "") Hn)
      as (c & rest' & E & Hi & Hr).
    exists (String ch c), rest'. rewrite E, app_one.
    split; [reflexivity|]. split; [|exact Hr].
    rewrite app_cons. f_equal. exact Hi.
  - exists "", (String ch rest). rewrite string_app_nil_r. split; [reflexivity|].
    split; [reflexivity|]. apply noNUL_cons. auto.
Qed.

Lemma scanCommentLoop_takes input : forall buf,
  noNUL input ->
  exists c rest', scanCommentLoop buf input = (buf ++ c, rest') /\
                  input = c ++ rest' /\ noNUL rest'.
Proof.
  induction input as [|ch rest IH]; intros buf Hn; cbn [scanCommentLoop].
  { exists "", "". rewrite string_app_nil_r. auto. }
  apply noNUL_cons in Hn as [Hch Hn]. rewrite Hch.
  destruct (Ascii.eqb ch (ascii_of_N 10)).
  - exists (String ch ""), rest. split; [reflexivity|]. split; [reflexivity|exact Hn].
  - destruct (IH (buf ++ String ch "") Hn) as (c & rest' & E & Hi & Hr).
    exists (String ch c), rest'. rewrite E, app_one.
    split; [reflexivity|]. split; [|exact Hr].
    rewrite app_cons. f_equal. exact Hi.
Qed.

Lemma unread_noNUL ch rest rest2 :
  noNUL rest -> read rest = (ch, rest2) -> unread ch rest rest2 = rest.
Proof.
  intros Hn E. unfold unread. destruct rest as [|c rest']; simpl in E.
  - injection E as <- <-. reflexivity.
  - injection E as <- <-. apply noNUL_cons in Hn as [Hch _]. rewrite Hch. reflexivity.
Qed.

Lemma scanDelimitedLoop_takes endCh : forall n input buf,
  String.length input <= n -> noNUL input ->
  exists o c rest', scanDelimitedLoop endCh buf input = (o, buf ++ c, rest') /\
                    input = c ++ rest' /\ noNUL rest'.
Proof.
  induction n as [|n IH]; intros input buf Hl Hn.
  { destruct input; [|simpl in Hl; lia].
    exists None, "", "". cbn [scanDelimitedLoop]. rewrite string_app_nil_r. auto. }
  destruct input as [|ch rest].
  { exists None, "", "". cbn [scanDelimitedLoop]. rewrite string_app_nil_r. auto. }
  simpl in Hl. apply noNUL_cons in Hn as [Hch Hn]. cbn [scanDelimitedLoop]. rewrite Hch.
  cbv zeta. destruct (Ascii.eqb ch endCh).
  - destruct rest as [|ch2 rest2].
    + exists (Some tt), (String ch ""), "".
      split; [reflexivity|]. split; [reflexivity|exact Hn].
    + apply noNUL_cons in Hn as [Hch2 Hn2].
      destruct (Ascii.eqb ch2 endCh); cbn [negb].
      * destruct (IH rest2 ((buf ++ String ch "") ++ String ch2 "")) as (o & c & rest' & E & Hi & Hr);
          [simpl in Hl; lia|exact Hn2|].
        exists o, (String ch (String ch2 c)), rest'. rewrite E, !app_one.
        split; [reflexivity|]. split; [|exact Hr].
        rewrite !app_cons. do 2 f_equal. exact Hi.
      * unfold unread. rewrite Hch2. exists (Some tt), (String ch ""), (String ch2 rest2).
        split; [reflexivity|]. split; [reflexivity|]. apply noNUL_cons. auto.
  - destruct (IH rest (buf ++ String ch "")) as (o & c & rest' & E & Hi & Hr); [lia|exact Hn|].
    exists o, (String ch c), rest'. rewrite E, app_one.
    split; [reflexivity|]. split; [|exact Hr].
    rewrite app_cons. f_equal. exact Hi.
Qed.

Lemma scanQuoteLoop_takes endCh : forall n input buf,
  String.length input <= n -> noNUL input ->
  exists o c rest', scanQuoteLoop endCh buf input = (o, buf ++ c, rest') /\
                    input = c ++ rest' /\ noNUL rest'.
Proof.
  induction n as [|n IH]; intros input buf Hl Hn.
  { destruct input; [|simpl in Hl; lia].
    exists None, "", "". cbn [scanQuoteLoop]. rewrite string_app_nil_r. auto. }
  destruct input as [|ch rest].
  { exists None, "", "". cbn [scanQuoteLoop]. rewrite string_app_nil_r. auto. }
  simpl in Hl. apply noNUL_cons in Hn as [Hch Hn]. cbn [scanQuoteLoop]. rewrite Hch.
  cbv zeta. destruct (Ascii.eqb ch endCh).
  - destruct rest as [|ch2 rest2].
    + exists (Some tt), (String ch ""), "".
      split; [reflexivity|]. split; [reflexivity|exact Hn].
    + apply noNUL_cons in Hn as [Hch2 Hn2].
      destruct (Ascii.eqb ch2 endCh).
      * destruct (IH rest2 ((buf ++ String ch "") ++ String ch2 "")) as (o & c & rest' & E & Hi & Hr);
          [simpl in Hl; lia|exact Hn2|].
        exists o, (String ch (String ch2 c)), rest'. rewrite E, !app_one.
        split; [reflexivity|]. split; [|exact Hr].
        rewrite !app_cons. do 2 f_equal. exact Hi.
      * unfold unread. rewrite Hch2. exists (Some tt), (String ch ""), (String ch2 rest2).
        split; [reflexivity|]. split; [reflexivity|]. apply noNUL_cons. auto.
  - destruct (IH rest (buf ++ String ch "")) as (o & c & rest' & E & Hi & Hr); [lia|exact Hn|].
    exists o, (String ch c), rest'. rewrite E, app_one.
    split; [reflexivity|]. split; [|exact Hr].
    rewrite app_cons. f_equal. exact Hi.
Qed.

(** What [setToken] leaves for a token that is not a keyword, and for a
    keyword. *)
Lemma setToken_takes tok text rest s input :
  tok <> TokenKeyword -> input = text ++ rest -> text <> "" -> noNUL rest ->
  takes input (snd (setToken tok text rest s)).
Proof.
  intros Hk Hi Ht Hn. exists text.
  rewrite setToken_r, setToken_lexeme, setToken_token. unfold spelled.
  rewrite bool_decide_false by exact Hk. auto.
Qed.

Lemma setToken_takes_keyword text rest s input :
  input = text ++ rest -> text <> "" -> noNUL rest ->
  takes input (snd (setToken TokenKeyword (ToLower text) rest s)).
Proof.
  intros Hi Ht Hn. exists text.
  rewrite setToken_r, setToken_lexeme, setToken_token. unfold spelled.
  rewrite bool_decide_true by reflexivity. auto.
Qed.

Lemma scanWhitespace_takes ch rest s :
  noNUL rest -> takes (String ch rest) (snd (scanWhitespace (String ch rest) s)).
Proof.
  intros Hn. unfold scanWhitespace. cbn [read].
  destruct (scanWhitespaceLoop_takes rest (String ch "") Hn) as (c & rest' & E & Hi & Hr).
  rewrite E. apply setToken_takes; [discriminate| |discriminate|exact Hr].
  subst rest. reflexivity.
Qed.

Lemma scanComment_takes prefix rest s :
  prefix <> "" -> noNUL rest -> takes (prefix ++ rest) (snd (scanComment prefix rest s)).
Proof.
  intros Hp Hn. unfold scanComment.
  destruct (scanCommentLoop_takes rest prefix Hn) as (c & rest' & E & Hi & Hr).
  rewrite E. apply setToken_takes; [discriminate| |apply app_not_empty, Hp|exact Hr].
  rewrite string_app_assoc. f_equal. exact Hi.
Qed.

Lemma scanDelimitedIdentifier_takes startCh endCh rest s :
  noNUL rest ->
  takes (String startCh rest) (snd (scanDelimitedIdentifier startCh endCh rest s)).
Proof.
  intros Hn. unfold scanDelimitedIdentifier.
  destruct (scanDelimitedLoop_takes endCh _ rest (String startCh "") (le_n _) Hn)
    as (o & c & rest' & E & Hi & Hr).
  rewrite E. destruct o; (apply setToken_takes;
    [discriminate| |discriminate|exact Hr]); subst rest; reflexivity.
Qed.

Lemma scanQuote_takes startChs endCh rest s :
  startChs <> "" -> noNUL rest ->
  takes (startChs ++ rest) (snd (scanQuote startChs endCh rest s)).
Proof.
  intros Hp Hn. unfold scanQuote.
  destruct (scanQuoteLoop_takes endCh _ rest startChs (le_n _) Hn)
    as (o & c & rest' & E & Hi & Hr).
  rewrite E. destruct o; (apply setToken_takes;
    [discriminate| |apply app_not_empty, Hp|exact Hr]);
    rewrite string_app_assoc; f_equal; exact Hi.
Qed.

Lemma scanIdentifier_takes ch rest s :
  noNUL rest -> takes (String ch rest) (snd (scanIdentifier ch rest s)).
Proof.
  intros Hn. unfold scanIdentifier.
  destruct (scanIdentifierLoop_takes rest (String ch "") Hn) as (c & rest' & E & Hi & Hr).
  rewrite E. destruct (isKeyword _).
  - apply setToken_takes_keyword; [|discriminate|exact Hr].
    subst rest. reflexivity.
  - apply setToken_takes; [discriminate| |discriminate|exact Hr].
    subst rest. reflexivity.
Qed.

Lemma scanNumber_takes ch rest s :
  noNUL rest -> takes (String ch rest) (snd (scanNumber ch rest s)).
Proof.
  intros Hn. unfold scanNumber.
  destruct (scanNumberLoop_takes rest (Ascii.eqb ch ".") (String ch "") Hn)
    as (c & rest' & E & Hi & Hr).
  rewrite E. apply setToken_takes; [discriminate| |discriminate|exact Hr].
  subst rest. reflexivity.
Qed.

Ltac char_eq :=
  repeat match goal with
  | H : Ascii.eqb _ _ = true |- _ => apply Ascii.eqb_eq in H; subst
  end.

(** One call of [Scan] on an input without NUL that is not at its end, when
    white space is not ignored. *)
Lemma Scan_takes s :
  IgnoreWhiteSpace s = false -> noNUL (r s) -> r s <> "" ->
  takes (r s) (snd (Scan s)).
Proof.
  intros Hi Hn Hne. unfold Scan. rewrite Hi.
  destruct (r s) as [|ch rest]; [contradiction|]. clear Hne. cbn [read].
  apply noNUL_cons in Hn as [Hch Hn]. rewrite Hch.
  unfold unread at 1. rewrite Hch.
  destruct (isWhitespace ch); [apply scanWhitespace_takes, Hn|].
  assert (Hop : forall rest', rest' = rest ->
            takes (String ch rest) (snd (setToken TokenOperator (runeToString ch) rest' s))).
  { intros rest' ->. apply setToken_takes; [discriminate|reflexivity|discriminate|exact Hn]. }
  assert (Hread : forall ch2 rest2, read rest = (ch2, rest2) ->
            unread ch2 rest rest2 = rest /\
            (Ascii.eqb ch2 eof = false -> rest = String ch2 rest2 /\ noNUL rest2)).
  { intros ch2 rest2 E. split; [apply unread_noNUL; assumption|].
    intros Hc. destruct rest as [|c rest']; simpl in E; injection E as <- <-.
    - discriminate Hc.
    - apply noNUL_cons in Hn as [_ Hn']. auto. }
  destruct (Ascii.eqb ch "-") eqn:E1.
  { destruct (read rest) as [ch2 rest2] eqn:Er. destruct (Hread _ _ eq_refl) as [Hu Hr].
    destruct (Ascii.eqb ch2 "-") eqn:E2.
    - char_eq. destruct Hr as [-> Hn2]; [reflexivity|].
      apply (scanComment_takes "--" rest2 s); [discriminate|exact Hn2].
    - apply Hop, Hu. }
  destruct (Ascii.eqb ch "[") eqn:E2; [char_eq; apply scanDelimitedIdentifier_takes, Hn|].
  destruct (Ascii.eqb ch backquote) eqn:E3;
    [char_eq; apply scanDelimitedIdentifier_takes, Hn|].
  destruct (Ascii.eqb ch dquote) eqn:E4;
    [char_eq; apply scanDelimitedIdentifier_takes, Hn|].
  destruct (Ascii.eqb ch squote) eqn:E5.
  { apply (scanQuote_takes (String ch "") squote rest s); [discriminate|exact Hn]. }
  destruct (Ascii.eqb ch "{") eqn:E6; [char_eq; apply scanDelimitedIdentifier_takes, Hn|].
  destruct (ContainsRune "NnXx" ch) eqn:E7.
  { destruct (read rest) as [ch2 rest2] eqn:Er. destruct (Hread _ _ eq_refl) as [Hu Hr].
    destruct (Ascii.eqb ch2 squote) eqn:E8.
    - char_eq. destruct Hr as [-> Hn2]; [reflexivity|].
      apply (scanQuote_takes (String ch (String squote "")) squote rest2 s);
        [discriminate|exact Hn2].
    - rewrite Hu. apply scanIdentifier_takes, Hn. }
  destruct (isStartIdent ch); [apply scanIdentifier_takes, Hn|].
  destruct (isDigit ch); [apply scanNumber_takes, Hn|].
  destruct (Ascii.eqb ch ".") eqn:E8.
  { destruct (read rest) as [ch2 rest2] eqn:Er. destruct (Hread _ _ eq_refl) as [Hu Hr].
    cbv zeta. rewrite Hu.
    destruct (isDigit ch2); [apply scanNumber_takes, Hn|apply Hop; reflexivity]. }
  destruct (Ascii.eqb ch "<") eqn:E9.
  { destruct (read rest) as [ch2 rest2] eqn:Er. destruct (Hread _ _ eq_refl) as [Hu Hr].
    destruct (Ascii.eqb ch2 ">") eqn:E10.
    - char_eq. destruct Hr as [-> Hn2]; [reflexivity|].
      apply setToken_takes; [discriminate|reflexivity|discriminate|exact Hn2].
    - apply Hop, Hu. }
  destruct (Ascii.eqb ch "?") eqn:E10.
  { unfold scanPlaceholder.
    apply setToken_takes; [discriminate|reflexivity|discriminate|exact Hn]. }
  destruct (ContainsRune operators ch); [apply Hop; reflexivity|].
  apply setToken_takes; [discriminate|reflexivity|discriminate|exact Hn].
Qed.

(** *** The tokens of a text spell the text *)

Lemma length_app a : forall b, String.length (a ++ b) = String.length a + String.length b.
Proof.
  induction a as [|ch a IH]; intros b; [reflexivity|].
  rewrite app_cons. simpl. rewrite IH. reflexivity.
Qed.

Lemma ToLowerRune_idem ch : ToLowerRune (ToLowerRune ch) = ToLowerRune ch.
Proof. destruct ch as [[] [] [] [] [] [] [] []]; vm_compute; reflexivity. Qed.

Lemma ToLower_idem text : ToLower (ToLower text) = ToLower text.
Proof.
  induction text as [|ch text IH]; [reflexivity|].
  simpl. rewrite ToLowerRune_idem, IH. reflexivity.
Qed.

Lemma ToLower_app a : forall b, ToLower (a ++ b) = ToLower a ++ ToLower b.
Proof.
  induction a as [|ch a IH]; intros b; [reflexivity|].
  rewrite app_cons. cbn [ToLower]. rewrite IH. reflexivity.
Qed.

Lemma ToLower_spelled tok text : ToLower (spelled tok text) = ToLower text.
Proof. unfold spelled. destruct (bool_decide _); [apply ToLower_idem|reflexivity]. Qed.

Lemma scanAll_takes fuel : forall s,
  IgnoreWhiteSpace s = false -> noNUL (r s) -> String.length (r s) < fuel ->
  exists texts,
    r s = fold_right String.append "" texts /\
    Forall2 (fun tok text => snd tok = spelled (fst tok) text) (scanAll fuel s) texts /\
    last (scanAll fuel s) = Some (TokenEOF, "").
Proof.
  induction fuel as [|fuel IH]; intros s Hi Hn Hl; [lia|].
  cbn [scanAll]. cbv zeta.
  destruct (Scan_spec s) as (Hi' & Hlen & Heof & _ & _ & Hlex).
  destruct (r s) as [|ch rest] eqn:Er.
  { rewrite bool_decide_true by (apply Heof; reflexivity).
    exists [""]. split; [reflexivity|]. split; [|reflexivity].
    constructor; [reflexivity|constructor]. }
  destruct (Scan_takes s Hi) as (text & Et & El & Hne & Hn').
  { rewrite Er. exact Hn. }
  { rewrite Er. discriminate. }
  rewrite Er in Et.
  case_bool_decide as Ht.
  { rewrite Ht in El. rewrite (Hlex Ht) in El. unfold spelled in El.
    rewrite bool_decide_false in El by discriminate. congruence. }
  destruct (IH (snd (Scan s))) as (texts & Es & Hf & Hlast).
  { rewrite Hi'. exact Hi. }
  { exact Hn'. }
  { simpl in Hl, Hlen. lia. }
  exists (text :: texts). split.
  - cbn [fold_right]. rewrite <- Es. exact Et.
  - split; [constructor; [exact El|exact Hf]|].
    destruct (scanAll fuel (snd (Scan s))) eqn:Ea; [discriminate Hlast|].
    exact Hlast.
Qed.

Lemma spelling_lower toks texts :
  Forall2 (fun tok text => snd tok = spelled (fst tok) text) toks texts ->
  ToLower (spelling toks) = ToLower (fold_right String.append "" texts).
Proof.
  unfold spelling.
  induction 1 as [|tok text toks texts Et Hf IH]; [reflexivity|].
  cbn [map fold_right]. rewrite !ToLower_app, IH, Et, ToLower_spelled. reflexivity.
Qed.

(** X12: the tokens that the scanner finds in a text without NUL, when
    white space is not ignored, spell the text: the text is cut into
    pieces, one for each token, the lexeme of a token is its piece, in
    lower case for a keyword, the last token is [TokenEOF] with the empty
    piece, and the lexemes taken together are the text up to the case of
    letters.  No rune of the input is dropped, also around a token that is
    not recognised. *)
Theorem tokens_spell_the_text sql :
  noNUL sql ->
  exists texts,
    sql = fold_right String.append "" texts /\
    Forall2 (fun tok text => snd tok = spelled (fst tok) text) (tokensOf false sql) texts /\
    last (tokensOf false sql) = Some (TokenEOF, "") /\
    ToLower (spelling (tokensOf false sql)) = ToLower sql.
Proof.
  intros Hn. unfold tokensOf.
  destruct (scanAll_takes (S (String.length sql)) (setIgnoreWhiteSpace false (New sql)))
    as (texts & Es & Hf & Hlast); [reflexivity|exact Hn|simpl; lia|].
  cbn [r setIgnoreWhiteSpace New] in Es.
  exists texts. split; [exact Es|]. split; [exact Hf|]. split; [exact Hlast|].
  rewrite (spelling_lower _ _ Hf), <- Es. reflexivity.
Qed.

(** *** What a call of Scan reports *)

Ltac scan_cases :=
  repeat match goal with
  | |- context [let '(_, _) := ?x in _] => destruct x as [? ?] eqn:?
  | |- context [match ?x with (_, _) => _ end] => destruct x as [? ?] eqn:?
  | |- context [match ?x with Some _ => _ | None => _ end] => destruct x
  | |- context [if ?b then _ else _] => destruct b
  end.

(** Every call of [Scan] ends in a call of [setToken]. *)
Lemma Scan_setToken s : exists tok text rest, Scan s = setToken tok text rest s.
Proof.
  unfold Scan, scanWhitespace, scanComment, scanDelimitedIdentifier, scanQuote,
    scanIdentifier, scanNumber, scanPlaceholder.
  scan_cases; eauto.
Qed.

(** X13: what a call of [Scan] reports.  The call returns true unless the
    token is [TokenEOF] or [TokenIllegal]; for an illegal token it records
    the error [unrecognised input near] with the text of the token, and it
    leaves the recorded error alone otherwise.  At the end of the input the
    token is [TokenEOF]; on any other input the call takes one rune at
    least, so that a loop of calls of [Scan] ends. *)
Theorem Scan_reports s :
  let s' := snd (Scan s) in
  fst (Scan s) =
    (negb (bool_decide (token s' = TokenEOF)) &&
     negb (bool_decide (token s' = TokenIllegal)))%bool /\
  err s' = (if bool_decide (token s' = TokenIllegal)
            then Some ("unrecognised input near " ++ fmtQ (lexeme s'))
            else err s) /\
  (r s = "" -> token s' = TokenEOF /\ lexeme s' = "" /\ r s' = "") /\
  (r s <> "" -> String.length (r s') < String.length (r s)).
Proof.
  cbv zeta. destruct (Scan_spec s) as (_ & Hlen & Heof & _ & _ & Hlex).
  destruct (Scan_setToken s) as (tok & text & rest & E). rewrite E in *.
  split; [|split; [|split]].
  - unfold setToken. case_bool_decide as Ht; cbn [fst snd token].
    + subst tok. reflexivity.
    + rewrite (bool_decide_false _ Ht), andb_true_r. reflexivity.
  - unfold setToken. case_bool_decide as Ht; cbn [fst snd token err lexeme].
    + rewrite bool_decide_true by exact Ht. reflexivity.
    + rewrite bool_decide_false by exact Ht. reflexivity.
  - intros Er. specialize (Heof Er). split; [exact Heof|]. split; [exact (Hlex Heof)|].
    rewrite Er in Hlen. simpl in Hlen. destruct (r _); [reflexivity|simpl in Hlen; lia].
  - intros Hne. destruct (r s); [contradiction|]. simpl in Hlen |- *. lia.
Qed.

(** *** Ignoring white space *)

(** The token that [Scan] finds depends on the first rune that it reads
    and on the input after it only, when the rune is not white space. *)
Lemma Scan_first s1 s2 ch rest :
  (if IgnoreWhiteSpace s1 then skipWhitespace (r s1) else read (r s1)) = (ch, rest) ->
  (if IgnoreWhiteSpace s2 then skipWhitespace (r s2) else read (r s2)) = (ch, rest) ->
  isWhitespace ch = false ->
  token (snd (Scan s1)) = token (snd (Scan s2)) /\
  lexeme (snd (Scan s1)) = lexeme (snd (Scan s2)) /\
  r (snd (Scan s1)) = r (snd (Scan s2)).
Proof.
  intros E1 E2 Ew. unfold Scan. rewrite E1, E2. cbv beta iota. rewrite Ew.
  unfold scanComment, scanDelimitedIdentifier, scanQuote,
    scanIdentifier, scanNumber, scanPlaceholder.
  scan_cases; rewrite ?setToken_token, ?setToken_lexeme, ?setToken_r; auto.
Qed.

(** It depends on the input and on the switch [IgnoreWhiteSpace] only. *)
Lemma Scan_ext s1 s2 :
  IgnoreWhiteSpace s1 = IgnoreWhiteSpace s2 -> r s1 = r s2 ->
  token (snd (Scan s1)) = token (snd (Scan s2)) /\
  lexeme (snd (Scan s1)) = lexeme (snd (Scan s2)) /\
  r (snd (Scan s1)) = r (snd (Scan s2)).
Proof.
  intros Hi Hr.
  destruct (if IgnoreWhiteSpace s2 then skipWhitespace (r s2) else read (r s2))
    as [ch rest] eqn:E2.
  assert (E1 : (if IgnoreWhiteSpace s1 then skipWhitespace (r s1) else read (r s1)) =
               (ch, rest)) by (rewrite Hi, Hr; exact E2).
  destruct (isWhitespace ch) eqn:Ew; [|exact (Scan_first s1 s2 ch rest E1 E2 Ew)].
  unfold Scan. rewrite E1, E2. cbv beta iota. rewrite Ew, Hr.
  unfold scanWhitespace.
  scan_cases; rewrite ?setToken_token, ?setToken_lexeme, ?setToken_r; auto.
Qed.

Lemma scanAll_ext fuel : forall s1 s2,
  IgnoreWhiteSpace s1 = IgnoreWhiteSpace s2 -> r s1 = r s2 ->
  scanAll fuel s1 = scanAll fuel s2.
Proof.
  induction fuel as [|fuel IH]; intros s1 s2 Hi Hr; [reflexivity|].
  cbn [scanAll]. cbv zeta.
  destruct (Scan_ext s1 s2 Hi Hr) as (Et & El & Er).
  destruct (Scan_spec s1) as (Hi1 & _). destruct (Scan_spec s2) as (Hi2 & _).
  rewrite Et, El. case_bool_decide; [reflexivity|].
  f_equal. apply IH; congruence.
Qed.

Lemma skipWhitespace_not_space input : isWhitespace (fst (skipWhitespace input)) = false.
Proof.
  induction input as [|ch rest IH]; [reflexivity|].
  simpl. destruct (isWhitespace ch) eqn:E; [exact IH|exact E].
Qed.

(** With [IgnoreWhiteSpace], the token depends on the input after its
    leading white space. *)
Lemma Scan_skip s1 s2 :
  IgnoreWhiteSpace s1 = true -> IgnoreWhiteSpace s2 = true ->
  skipWhitespace (r s1) = skipWhitespace (r s2) ->
  token (snd (Scan s1)) = token (snd (Scan s2)) /\
  lexeme (snd (Scan s1)) = lexeme (snd (Scan s2)) /\
  r (snd (Scan s1)) = r (snd (Scan s2)).
Proof.
  intros H1 H2 Hs.
  pose proof (skipWhitespace_not_space (r s2)) as Hw.
  destruct (skipWhitespace (r s2)) as [ch rest] eqn:E2. cbn [fst] in Hw.
  apply (Scan_first s1 s2 ch rest); [rewrite H1; exact Hs|rewrite H2; exact E2|exact Hw].
Qed.

Lemma scanAll_skip fuel s1 s2 :
  IgnoreWhiteSpace s1 = true -> IgnoreWhiteSpace s2 = true ->
  skipWhitespace (r s1) = skipWhitespace (r s2) ->
  scanAll fuel s1 = scanAll fuel s2.
Proof.
  intros H1 H2 Hs. destruct fuel as [|fuel]; [reflexivity|].
  cbn [scanAll]. cbv zeta.
  destruct (Scan_skip s1 s2 H1 H2 Hs) as (Et & El & Er).
  destruct (Scan_spec s1) as (Hi1 & _). destruct (Scan_spec s2) as (Hi2 & _).
  rewrite Et, El. case_bool_decide; [reflexivity|].
  f_equal. apply scanAll_ext; congruence.
Qed.

Lemma scanWhitespaceLoop_skip input : forall buf,
  noNUL input ->
  skipWhitespace (snd (scanWhitespaceLoop buf input)) = skipWhitespace input.
Proof.
  induction input as [|ch rest IH]; intros buf Hn; [reflexivity|].
  apply noNUL_cons in Hn as [Hch Hn]. cbn [scanWhitespaceLoop]. rewrite Hch.
  destruct (isWhitespace ch) eqn:Ew; cbn [negb].
  - rewrite IH by exact Hn. simpl. rewrite Ew. reflexivity.
  - reflexivity.
Qed.

Lemma scanAll_S fuel s :
  scanAll (S fuel) s =
    if bool_decide (token (snd (Scan s)) = TokenEOF) then [(TokenEOF, "")]
    else (token (snd (Scan s)), lexeme (snd (Scan s))) :: scanAll fuel (snd (Scan s)).
Proof. reflexivity. Qed.

Lemma scanAll_modes n : forall s fuelT fuelF,
  String.length (r s) <= n -> noNUL (r s) -> IgnoreWhiteSpace s = false ->
  String.length (r s) < fuelT -> String.length (r s) < fuelF ->
  scanAll fuelT (setIgnoreWhiteSpace true s) = withoutWhiteSpace (scanAll fuelF s).
Proof.
  induction n as [n IH] using lt_wf_ind. intros s fuelT fuelF Hl Hn Hi HT HF.
  destruct fuelT as [|fuelT]; [lia|]. destruct fuelF as [|fuelF]; [lia|].
  destruct (Scan_spec s) as (Hi' & Hlen & Heof & _ & _ & Hlex).
  destruct (Scan_spec (setIgnoreWhiteSpace true s)) as (HiT & HlenT & HeofT & _ & HwsT & _).
  cbn [IgnoreWhiteSpace setIgnoreWhiteSpace r] in HiT, HlenT, HeofT, HwsT.
  destruct (r s) as [|ch rest] eqn:Er.
  { cbn [scanAll]. cbv zeta.
    rewrite !bool_decide_true by auto. reflexivity. }
  destruct (Scan_takes s Hi) as (text & Et & El & Hne & Hn').
  { rewrite Er. exact Hn. }
  { rewrite Er. discriminate. }
  assert (Hlt : String.length (r (snd (Scan s))) < S (String.length rest))
    by (simpl in Hlen; lia).
  simpl in HT, HF, Hl.
  destruct (isWhitespace ch) eqn:Ew.
  - (* the input opens with white space *)
    assert (Es : Scan s = scanWhitespace (String ch rest) s).
    { unfold Scan. rewrite Hi, Er. cbn [read].
      apply noNUL_cons in Hn as [Hch _]. rewrite Hch, Ew. unfold unread. rewrite Hch.
      reflexivity. }
    assert (Hskip : skipWhitespace (r (snd (Scan s))) = skipWhitespace (String ch rest)).
    { rewrite Es. unfold scanWhitespace. cbn [read].
      destruct (scanWhitespaceLoop (String ch "") rest) as [buf rest'] eqn:Ew'.
      rewrite setToken_r. simpl. rewrite Ew.
      pose proof (scanWhitespaceLoop_skip rest (String ch "")) as Hs.
      rewrite Ew' in Hs. apply Hs. apply noNUL_cons in Hn as [_ Hn]. exact Hn. }
    assert (Htok : token (snd (Scan s)) = TokenWhiteSpace).
    { rewrite Es. unfold scanWhitespace. cbn [read].
      destruct (scanWhitespaceLoop _ _). apply setToken_token. }
    rewrite (scanAll_skip (S fuelT) (setIgnoreWhiteSpace true s)
               (setIgnoreWhiteSpace true (snd (Scan s)))); [|reflexivity|reflexivity|].
    2:{ cbn [r setIgnoreWhiteSpace]. rewrite Er. symmetry. exact Hskip. }
    rewrite (scanAll_S fuelF s), Htok.
    rewrite bool_decide_false by discriminate.
    unfold withoutWhiteSpace. cbn [List.filter fst]. rewrite bool_decide_true by reflexivity.
    cbn [negb]. apply (IH (String.length rest)); try lia; try assumption.
    congruence.
  - (* it opens with a token *)
    assert (Hcore : token (snd (Scan (setIgnoreWhiteSpace true s))) = token (snd (Scan s)) /\
                    lexeme (snd (Scan (setIgnoreWhiteSpace true s))) = lexeme (snd (Scan s)) /\
                    r (snd (Scan (setIgnoreWhiteSpace true s))) = r (snd (Scan s))).
    { apply (Scan_first (setIgnoreWhiteSpace true s) s ch rest).
      - cbn [IgnoreWhiteSpace setIgnoreWhiteSpace r]. rewrite Er.
        cbn [skipWhitespace]. rewrite Ew. reflexivity.
      - rewrite Hi, Er. reflexivity.
      - exact Ew. }
    destruct Hcore as (Ct & Cl & Cr).
    cbn [scanAll]. cbv zeta. rewrite Ct, Cl.
    case_bool_decide as Ht; [reflexivity|].
    unfold withoutWhiteSpace. cbn [List.filter fst].
    rewrite bool_decide_false by (rewrite <- Ct; apply HwsT; reflexivity).
    cbn [negb]. f_equal.
    rewrite (scanAll_ext fuelT _ (setIgnoreWhiteSpace true (snd (Scan s))));
      [|rewrite HiT; reflexivity|exact Cr].
    apply (IH (String.length rest)); try lia; try assumption.
    congruence.
Qed.

(** X14: ignoring white space drops the white-space tokens and nothing
    else.  On a text without NUL, the tokens that the scanner finds with
    [IgnoreWhiteSpace], as the parser reads a statement, are the tokens it
    finds without, less those of white space: their kinds and lexemes are
    the same, in the same order. *)
Theorem ignoring_white_space_drops_its_tokens sql :
  noNUL sql -> tokensOf true sql = withoutWhiteSpace (tokensOf false sql).
Proof.
  intros Hn. unfold tokensOf.
  apply (scanAll_modes (String.length sql) (setIgnoreWhiteSpace false (New sql)));
    cbn [r setIgnoreWhiteSpace New IgnoreWhiteSpace]; auto.
Qed.

(** *** What the executor quotes *)

Lemma scanQuoteLoop_quoted rest arg : forall buf,
  noNUL arg ->
  (forall ch rest', rest = String ch rest' ->
     Ascii.eqb ch squote = false /\ Ascii.eqb ch eof = false) ->
  scanQuoteLoop squote buf
    (ReplaceRune arg squote (String squote (String squote "")) ++ String squote rest) =
    (Some tt,
     buf ++ ReplaceRune arg squote (String squote (String squote "")) ++ String squote "",
     rest).
Proof.
  induction arg as [|c arg IH]; intros buf Hn Hrest.
  - change (scanQuoteLoop squote buf (String squote rest) =
            (Some tt, buf ++ String squote "", rest)).
    cbn [scanQuoteLoop]. change (Ascii.eqb squote eof) with false.
    rewrite Ascii.eqb_refl. cbv zeta iota.
    destruct rest as [|ch2 rest2]; [reflexivity|].
    destruct (Hrest ch2 rest2 eq_refl) as [H1 H2]. rewrite H1.
    unfold unread. rewrite H2. reflexivity.
  - apply noNUL_cons in Hn as [Hc Hn]. cbn [ReplaceRune].
    destruct (Ascii.eqb c squote) eqn:Ec.
    + apply Ascii.eqb_eq in Ec. subst c.
      change (scanQuoteLoop squote buf
                (String squote (String squote
                   (ReplaceRune arg squote (String squote (String squote "")) ++
                    String squote rest))) =
              (Some tt,
               buf ++ String squote (String squote
                  (ReplaceRune arg squote (String squote (String squote "")) ++
                   String squote "")), rest)).
      cbn [scanQuoteLoop]. change (Ascii.eqb squote eof) with false.
      rewrite Ascii.eqb_refl. cbv zeta iota.
      rewrite (IH _ Hn Hrest). rewrite !app_one. reflexivity.
    + rewrite !app_cons. cbn [scanQuoteLoop]. rewrite Hc, Ec. cbv zeta iota.
      rewrite (IH _ Hn Hrest). rewrite app_one. reflexivity.
Qed.

Lemma scanDelimitedLoop_quoted rest name : forall buf,
  noNUL name ->
  (forall ch rest', rest = String ch rest' ->
     Ascii.eqb ch backquote = false /\ Ascii.eqb ch eof = false) ->
  scanDelimitedLoop backquote buf
    (ReplaceRune name backquote (String backquote (String backquote "")) ++
     String backquote rest) =
    (Some tt,
     buf ++ ReplaceRune name backquote (String backquote (String backquote "")) ++
       String backquote "",
     rest).
Proof.
  induction name as [|c name IH]; intros buf Hn Hrest.
  - change (scanDelimitedLoop backquote buf (String backquote rest) =
            (Some tt, buf ++ String backquote "", rest)).
    cbn [scanDelimitedLoop]. change (Ascii.eqb backquote eof) with false.
    rewrite Ascii.eqb_refl. cbv zeta iota.
    destruct rest as [|ch2 rest2]; [reflexivity|].
    destruct (Hrest ch2 rest2 eq_refl) as [H1 H2]. rewrite H1.
    unfold unread. rewrite H2. reflexivity.
  - apply noNUL_cons in Hn as [Hc Hn]. cbn [ReplaceRune].
    destruct (Ascii.eqb c backquote) eqn:Ec.
    + apply Ascii.eqb_eq in Ec. subst c.
      change (scanDelimitedLoop backquote buf
                (String backquote (String backquote
                   (ReplaceRune name backquote (String backquote (String backquote "")) ++
                    String backquote rest))) =
              (Some tt,
               buf ++ String backquote (String backquote
                  (ReplaceRune name backquote (String backquote (String backquote "")) ++
                   String backquote "")), rest)).
      cbn [scanDelimitedLoop]. change (Ascii.eqb backquote eof) with false.
      rewrite Ascii.eqb_refl. cbv zeta iota. cbn [negb].
      rewrite (IH _ Hn Hrest). rewrite !app_one. reflexivity.
    + rewrite !app_cons. cbn [scanDelimitedLoop]. rewrite Hc, Ec. cbv zeta iota.
      rewrite (IH _ Hn Hrest). rewrite app_one. reflexivity.
Qed.

(** X15: what the executor quotes, the scanner reads back as one token.
    A text without NUL that [quoteString] has quoted, followed by an input
    that does not open with a single quote, is scanned as one literal whose
    lexeme is the quoted text, whatever quotes the text holds, and the
    input that follows is left; so is a name that [quoteIdentifier] has
    quoted, as one identifier, before an input that does not open with a
    backquote. *)
Theorem quoted_text_is_one_token s text rest :
  noNUL text ->
  (r s = quoteString text ++ rest ->
   (forall ch rest', rest = String ch rest' ->
      Ascii.eqb ch squote = false /\ Ascii.eqb ch eof = false) ->
   Scan s = (true, mkScanner (IgnoreWhiteSpace s) rest (err s) TokenLiteral
                     (quoteString text))) /\
  (r s = quoteIdentifier text ++ rest ->
   (forall ch rest', rest = String ch rest' ->
      Ascii.eqb ch backquote = false /\ Ascii.eqb ch eof = false) ->
   Scan s = (true, mkScanner (IgnoreWhiteSpace s) rest (err s) TokenIdent
                     (quoteIdentifier text))).
Proof.
  intros Hn. split; intros Er Hrest; unfold Scan; rewrite Er.
  - unfold quoteString. rewrite app_cons, string_app_assoc.
    change (String squote "" ++ rest) with (String squote rest).
    assert (Hfirst : (if IgnoreWhiteSpace s
                      then skipWhitespace (String squote
                             (ReplaceRune text squote (String squote (String squote "")) ++
                              String squote rest))
                      else read (String squote
                             (ReplaceRune text squote (String squote (String squote "")) ++
                              String squote rest))) =
                     (squote, ReplaceRune text squote (String squote (String squote "")) ++
                              String squote rest))
      by (destruct (IgnoreWhiteSpace s); reflexivity).
    rewrite Hfirst. cbv iota beta.
    change (Ascii.eqb squote eof) with false.
    change (isWhitespace squote) with false.
    change (Ascii.eqb squote "-") with false.
    change (Ascii.eqb squote "[") with false.
    change (Ascii.eqb squote backquote) with false.
    change (Ascii.eqb squote dquote) with false.
    rewrite Ascii.eqb_refl. cbv iota.
    unfold scanQuote. rewrite (scanQuoteLoop_quoted rest text _ Hn Hrest).
    reflexivity.
  - unfold quoteIdentifier. rewrite app_cons, string_app_assoc.
    change (String backquote "" ++ rest) with (String backquote rest).
    assert (Hfirst : (if IgnoreWhiteSpace s
                      then skipWhitespace (String backquote
                             (ReplaceRune text backquote
                                (String backquote (String backquote "")) ++
                              String backquote rest))
                      else read (String backquote
                             (ReplaceRune text backquote
                                (String backquote (String backquote "")) ++
                              String backquote rest))) =
                     (backquote,
                      ReplaceRune text backquote (String backquote (String backquote "")) ++
                      String backquote rest))
      by (destruct (IgnoreWhiteSpace s); reflexivity).
    rewrite Hfirst. cbv iota beta.
    change (Ascii.eqb backquote eof) with false.
    change (isWhitespace backquote) with false.
    change (Ascii.eqb backquote "-") with false.
    change (Ascii.eqb backquote "[") with false.
    rewrite Ascii.eqb_refl. cbv iota.
    unfold scanDelimitedIdentifier.
    rewrite (scanDelimitedLoop_quoted rest text _ Hn Hrest).
    reflexivity.
Qed.

Lemma tokens_spell_the_text_witness :
  exists texts,
    "SELECT a  FROM t-- x" = fold_right String.append "" texts /\
    Forall2 (fun tok text => snd tok = spelled (fst tok) text)
      (tokensOf false "SELECT a  FROM t-- x") texts /\
    map snd (tokensOf false "SELECT a  FROM t-- x") =
      ["select"; " "; "a"; "  "; "from"; " "; "t"; "-- x"; ""].
Proof.
  destruct (tokens_spell_the_text "SELECT a  FROM t-- x" eq_refl)
    as (texts & Es & Hf & _).
  exists texts. split; [exact Es|]. split; [exact Hf|]. vm_compute. reflexivity.
Defined.

Lemma quoted_text_is_one_token_witness :
  Scan (New (quoteString "it's" ++ " and b = 1")) =
    (true, mkScanner false " and b = 1" None TokenLiteral "'it''s'").
Proof.
  apply (proj1 (quoted_text_is_one_token
                  (New (quoteString "it's" ++ " and b = 1")) "it's" " and b = 1"
                  eq_refl) eq_refl).
  intros ch rest' E. injection E as <- <-. split; reflexivity.
Defined.

Lemma ignoring_white_space_drops_its_tokens_witness :
  tokensOf true "select  a -- c
 from t" = withoutWhiteSpace (tokensOf false "select  a -- c
 from t") /\
  map snd (tokensOf true "select  a -- c
 from t") = ["select"; "a"; "-- c
"; "from"; "t"; ""].
Proof.
  split; [|vm_compute; reflexivity].
  apply ignoring_white_space_drops_its_tokens. reflexivity.
Defined.

End scan_facts.

(** ** The calls of the driver: panics and cleared columns *)

Module run_facts.
Import gostr lex parse driver sdb sdbrows parse_defs top_facts total_defs parse_total
  exec_defs exec_facts cursor_defs cursor_facts shape_defs parse_shape run_defs top_defs.

Section Run.
Context `{Quoting} `{Codec}.

(** [Parse] returns a statement or a syntax error. *)
Lemma Parse_cases text :
  (exists q, Parse text = inr q) \/ (exists msg, Parse text = inl (Errorf msg)).
Proof.
  unfold Parse, parse, bind.
  destruct (parse_facts.next_spec (newParser text)) as (p & E & _). rewrite E.
  pose proof (dispatch_returns p) as R.
  destruct (dispatch p) as [u p'|[msg| |]]; simpl in R; try contradiction; eauto.
Qed.

(** *** No panic without a nil argument *)

Lemma index_in values i :
  (0 <= i < Z.of_nat (length values))%Z ->
  exists v, index values i = Return v /\ In v values.
Proof.
  intros Hi. unfold index.
  destruct (nth_error values (Z.to_nat i)) as [v|] eqn:E.
  - destruct (Z.ltb_spec i 0); [lia|]. exists v. split; [reflexivity|].
    eapply nth_error_In, E.
  - apply nth_error_None in E. lia.
Qed.

Lemma GetValue_noPanic col args : noPanic (GetValue col args).
Proof.
  unfold GetValue. destruct (ColValue col); [exact I|].
  destruct (_ || _)%bool eqn:E; [exact I|].
  apply orb_false_iff in E as [E1 E2]. apply Z.ltb_ge in E1. apply Z.leb_gt in E2.
  destruct (index_in args (ColOrdinal col)) as (v & -> & _); [lia|exact I].
Qed.

Lemma Key_String_noPanic key args :
  (forall v, In v args -> v <> VNil) -> noPanic (Key_String key args).
Proof.
  intros Hnil. unfold Key_String. destruct (KeyValue key); [exact I|].
  destruct (_ || _)%bool eqn:E; [exact I|].
  apply orb_false_iff in E as [E1 E2]. apply Z.ltb_ge in E1. apply Z.leb_gt in E2.
  destruct (index_in args (KeyOrdinal key)) as (v & -> & Hin); [lia|].
  cbn [obind]. specialize (Hnil v Hin). destruct v; try exact I. contradiction.
Qed.

Lemma encodeColumns_noPanic cols args : forall puts dels,
  noPanic (encodeColumns cols args puts dels).
Proof.
  induction cols as [|col cols IH]; intros puts dels; simpl; [exact I|].
  pose proof (GetValue_noPanic col args) as Hg.
  destruct (GetValue col args) as [v| |]; try exact Hg. cbn [obind].
  destruct v; cbn [encodeColumn obind]; try apply IH; try exact I.
  destruct (String.eqb s ""); cbn [obind]; apply IH.
Qed.

Lemma newPutDeleteInputs_noPanic c t cols key args :
  (forall v, In v args -> v <> VNil) ->
  noPanic (newPutDeleteInputs c t cols key args).
Proof.
  intros Hnil. unfold newPutDeleteInputs.
  pose proof (Key_String_noPanic key args Hnil) as Hk.
  destruct (Key_String key args) as [item| |]; try exact Hk. cbn [obind].
  pose proof (encodeColumns_noPanic cols args
                [mkReplaceableAttribute "sql:id" true "string"] []) as He.
  destruct (encodeColumns _ _ _ _) as [[p d]| |]; try exact He.
Qed.

Lemma replayLexemes_noPanic args lexemes : forall sb argIndex,
  noPanic (replayLexemes args lexemes sb argIndex).
Proof.
  induction lexemes as [|l lexemes IH]; intros sb argIndex; simpl; [exact I|].
  destruct (_ || _)%bool; [apply IH|].
  destruct (String.eqb l "?"); [|apply IH].
  unfold getArg. destruct (nth_error args argIndex) as [[]|]; cbn [obind];
    try exact I; apply IH.
Qed.

(** X16: the calls of the driver do not panic when no argument is nil.
    [ExecContext] returns a result or an error for every statement text,
    every store and every list of arguments without nil, and so does
    [QueryContext] for arguments with the ordinals 1, 2, ..., n: the parser
    returns, every index into the arguments is checked, and the only value
    whose type the key resolution cannot name is nil. *)
Theorem no_panic_without_nil_argument api pf c text :
  (forall args, (forall v, In v args -> v <> VNil) ->
     noPanic (snd (ExecContext api pf c text args))) /\
  (forall nargs,
     map Ordinal nargs = seqZ 1 (Z.of_nat (length nargs)) ->
     (forall a, In a nargs -> ArgValue a <> VNil) ->
     noPanic (snd (QueryContext api c text nargs))).
Proof.
  split.
  - intros args Hnil. unfold ExecContext.
    destruct (Parse_cases text) as [(q & ->)|(msg & ->)]; [|exact I].
    destruct (Select q); [exact I|].
    destruct (CreateTable q) as [ct|].
    { unfold createTable. cbn [snd]. destruct (CreateDomainWithContext _ _); exact I. }
    destruct (DropTable q) as [dt|].
    { unfold dropTable. cbn [snd]. destruct (DeleteDomainWithContext _ _); exact I. }
    destruct (Insert q) as [ins|].
    { unfold insertRow.
      pose proof (newPutDeleteInputs_noPanic c (InsTableName ins) (InsColumns ins)
                    (InsKey ins) args Hnil) as Hn.
      destruct (newPutDeleteInputs _ _ _ _ _) as [[put del]| |]; try exact Hn.
      cbn [snd]. destruct (PutAttributesWithContext _ _); [|exact I].
      destruct (hasCode _ _); exact I. }
    destruct (Update q) as [upd|].
    { pose proof (newPutDeleteInputs_noPanic c (UpdTableName upd) (UpdColumns upd)
                    (UpdKey upd) args Hnil) as Hn.
      destruct (newPutDeleteInputs c (UpdTableName upd) (UpdColumns upd) (UpdKey upd) args)
        as [[put del]| |] eqn:E.
      - rewrite (updateRow_spec api pf c upd args put del E). cbn [snd].
        repeat match goal with
               | |- context [match ?x with _ => _ end] => destruct x
               end; exact I.
      - unfold updateRow. rewrite E. exact I.
      - contradiction. }
    destruct (Delete q) as [del|]; [|exact I].
    unfold deleteRow.
    pose proof (Key_String_noPanic (DelKey del) args Hnil) as Hk.
    destruct (Key_String _ _); try exact Hk.
    cbn [snd]. destruct (DeleteAttributesWithContext _ _); exact I.
  - intros nargs Hord Hnil. unfold QueryContext.
    destruct (Parse_cases text) as [(q & ->)|(msg & ->)]; [|exact I].
    destruct (Select q) as [sq|]; [|exact I].
    assert (Ha : getArgs nargs = Return (map ArgValue nargs)).
    { apply (proj1 (proj2 (getArgs_positional nargs))), Hord. }
    rewrite Ha.
    assert (Hnil' : forall v, In v (map ArgValue nargs) -> v <> VNil).
    { intros v Hv. apply in_map_iff in Hv as (a & <- & Hin). auto. }
    destruct (SelKey sq) as [key|] eqn:Ek.
    + unfold getAttributes. rewrite Ek.
      pose proof (Key_String_noPanic key _ Hnil') as Hk.
      destruct (Key_String _ _); try exact Hk.
      cbn [snd]. destruct (GetAttributesWithContext _ _); exact I.
    + unfold selectQuery, makeSelectExpression.
      match goal with |- context [replayLexemes ?a ?l ?sb ?i] =>
        pose proof (replayLexemes_noPanic a l sb i) as Hr;
        destruct (replayLexemes a l sb i) end; try exact Hr.
      cbv zeta. unfold selectQueryRows.selectNext.
      cbn [selectQueryRows.simpledb selectQueryRows.input selectQueryRows.newRows].
      destruct (SelectWithContext _ _); exact I.
Qed.

(** *** The columns that an update clears *)

Lemma encodeColumn_dels name v puts dels :
  encodeColumn name v = Return (puts, dels) ->
  dels = if cleared v then [mkDeletableAttribute name] else [].
Proof.
  destruct v; cbn [encodeColumn cleared]; try (intros E; inversion E; reflexivity);
    try discriminate.
  destruct (String.eqb s ""); intros E; inversion E; reflexivity.
Qed.

Lemma encodeColumns_dels cols args : forall puts dels p d,
  encodeColumns cols args puts dels = Return (p, d) ->
  exists values,
    Forall2 (fun col v => GetValue col args = Return v) cols values /\
    d = dels ++ map (fun col => mkDeletableAttribute (ColumnName col))
                  (clearedColumns cols values).
Proof.
  induction cols as [|col cols IH]; intros puts dels p d E; simpl in E.
  - inversion E; subst. exists []. split; [constructor|]. rewrite app_nil_r. reflexivity.
  - destruct (GetValue col args) as [v| |] eqn:Eg; simpl in E; try discriminate.
    destruct (encodeColumn (ColumnName col) v) as [[p1 d1]| |] eqn:Ee; simpl in E;
      try discriminate.
    apply encodeColumn_dels in Ee. subst d1.
    apply IH in E as (values & Hf & ->).
    exists (v :: values). split; [constructor; assumption|].
    unfold clearedColumns. cbn [combine List.filter snd fst].
    destruct (cleared v); cbn [map fst]; rewrite <- app_assoc; reflexivity.
Qed.

(** X17: the columns that an update clears.  When the key and the values
    of an update statement resolve, the delete request names the columns
    whose value is nil or the empty string, in the order of the statement,
    and no other; it is sent, beside the put request, when there is such a
    column, and the put request is sent alone when there is none. *)
Theorem update_deletes_cleared_columns api pf c upd args put0 del0 :
  newPutDeleteInputs c (UpdTableName upd) (UpdColumns upd) (UpdKey upd) args =
    Return (put0, del0) ->
  exists values,
    Forall2 (fun col v => GetValue col args = Return v) (UpdColumns upd) values /\
    DelAttributes del0 =
      map (fun col => mkDeletableAttribute (ColumnName col))
        (clearedColumns (UpdColumns upd) values) /\
    let expected := if Upsert upd then None else Some mustExist in
    fst (updateRow api pf c upd args) =
      match clearedColumns (UpdColumns upd) values with
      | [] => [ReqPut (withPutExpected expected put0)]
      | _ :: _ =>
          if pf
          then [ReqPut (withPutExpected expected put0);
                ReqDelete (withDelExpected expected del0)]
          else [ReqDelete (withDelExpected expected del0);
                ReqPut (withPutExpected expected put0)]
      end.
Proof.
  intros E. rewrite (updateRow_spec api pf c upd args put0 del0 E). cbn [fst].
  apply newPutDeleteInputs_inv in E as (item & puts & _ & _ & _ & _ & _ & Ec).
  apply encodeColumns_dels in Ec as (values & Hf & Ed). cbn [app] in Ed.
  exists values. split; [exact Hf|]. split; [exact Ed|].
  cbv zeta. rewrite Ed.
  destruct (clearedColumns (UpdColumns upd) values); destruct pf; reflexivity.
Qed.

End Run.

Lemma no_panic_without_nil_argument_witness :
  noPanic (snd (@ExecContext lexquote.quoting exampleCodec emptyStore true noSchema
                  "update t set a = ? where id = ?" [VString "x"])) /\
  noPanic (snd (@QueryContext lexquote.quoting exampleCodec emptyStore noSchema
                  "select a from t where id = ?" [mkNamedValue "" 1 (VInt64 3)])).
Proof.
  destruct (@no_panic_without_nil_argument lexquote.quoting exampleCodec emptyStore true
              noSchema "update t set a = ? where id = ?") as [He _].
  destruct (@no_panic_without_nil_argument lexquote.quoting exampleCodec emptyStore true
              noSchema "select a from t where id = ?") as [_ Hq].
  split.
  - apply He. intros v [<-|[]]. discriminate.
  - apply Hq; [reflexivity|]. intros a [<-|[]]. discriminate.
Defined.

Lemma update_deletes_cleared_columns_witness :
  fst (@updateRow exampleCodec emptyStore true noSchema
         (mkUpdateQuery "t" [mkColumn "a" 0 None; mkColumn "b" 0 (Some ""); mkColumn "c" 1 None]
            (mkKey 0 (Some "k")) false)
         [VString "x"; VNil]) =
    [ReqPut (mkPutAttributesInput "t" "k"
               [mkReplaceableAttribute "sql:id" true "string";
                mkReplaceableAttribute "sql:a" true "string";
                mkReplaceableAttribute "a" true "x";
                mkReplaceableAttribute "sql:b" true "string";
                mkReplaceableAttribute "sql:c" true "null"] (Some mustExist));
     ReqDelete (mkDeleteAttributesInput "t" "k"
                  [mkDeletableAttribute "b"; mkDeletableAttribute "c"] (Some mustExist))].
Proof.
  pose (upd := mkUpdateQuery "t"
                 [mkColumn "a" 0 None; mkColumn "b" 0 (Some ""); mkColumn "c" 1 None]
                 (mkKey 0 (Some "k")) false).
  destruct (@update_deletes_cleared_columns exampleCodec emptyStore true noSchema upd
              [VString "x"; VNil] _ _ eq_refl) as (values & Hf & _ & Hreq).
  cbv zeta in Hreq. fold upd. rewrite Hreq.
  assert (Hv : values = [VString "x"; VString ""; VNil]).
  { inversion Hf as [|? v1 ? l1 E1 Hf1]; subst.
    inversion Hf1 as [|? v2 ? l2 E2 Hf2]; subst.
    inversion Hf2 as [|? v3 ? l3 E3 Hf3]; subst.
    inversion Hf3; subst.
    vm_compute in E1, E2, E3.
    injection E1 as <-. injection E2 as <-. injection E3 as <-. reflexivity. }
  rewrite Hv. reflexivity.
Defined.

End run_facts.
